(** * LocalTopSH: command guard, approvals, file tools and rate limiter

    A shallow embedding of the TypeScript sources

      - [src/approvals/index.ts]   (dangerous-command patterns, pending store)
      - [src/tools/files.ts]       (read_file, write_file, edit_file,
                                    delete_file, search_text, list_directory)
      - [src/tools/bash.ts]        (run_command)
      - [src/tools/ask.ts]         (ask_user)
      - [bot/src/rate-limiter.ts]  (safeSend, active-user limiter)
      - [bot/src/formatters.ts]    (escapeHtml, splitMessage)
      - [bot/src/index.ts]         (the text handler's admission protocol)

    followed by the properties proved about them.

    JavaScript strings are sequences of UTF-16 code units; they are modelled
    as [list N].  Regular expressions are modelled by an abstract syntax and
    an executable matcher that computes, for a position of the input, every
    position where a match of the expression can end; [RegExp.test] is the
    unanchored search of [RegExp.prototype.test] for expressions without the
    [g] or [y] flag. *)

From Stdlib Require Import ZArith NArith List Bool String Ascii Lia.
From Stdlib Require Import Decimal DecimalZ DecimalFacts.
From stdpp Require Import base option list gmap.

Set Default Proof Using "Type".

(* ===================================================================== *)
(** * Part I: definitions                                                *)
(* ===================================================================== *)

(** ** JavaScript strings *)

Module JS.

(** The code units of an ASCII literal. *)
Fixpoint lit (s : string) : list N :=
  match s with
  | EmptyString => []
  | String a s' => N_of_ascii a :: lit s'
  end.

Definition asciiUpper (c : N) : N :=
  if ((97 <=? c) && (c <=? 122))%N then (c - 32)%N else c.

Definition asciiLower (c : N) : N :=
  if ((65 <=? c) && (c <=? 90))%N then (c + 32)%N else c.

Definition eqs (a b : list N) : bool := bool_decide (a = b).

(** [String.prototype.startsWith] *)
Fixpoint startsWith (s p : list N) : bool :=
  match p, s with
  | [], _ => true
  | _ :: _, [] => false
  | x :: p', y :: s' => (x =? y)%N && startsWith s' p'
  end.

(** [String.prototype.includes] *)
Fixpoint includes (s p : list N) : bool :=
  startsWith s p ||
  match s with
  | [] => false
  | _ :: s' => includes s' p
  end.

(** [Array.prototype.join] on strings *)
Fixpoint join (sep : list N) (parts : list (list N)) : list N :=
  match parts with
  | [] => []
  | [p] => p
  | p :: ps => p ++ sep ++ join sep ps
  end.

(** [String.prototype.split] with a one-unit separator; the result is never
    empty. *)
Fixpoint split (sep : N) (s : list N) : list (list N) :=
  match s with
  | [] => [[]]
  | x :: s' =>
      if (x =? sep)%N then [] :: split sep s'
      else match split sep s' with
           | [] => [[x]]
           | seg :: segs => (x :: seg) :: segs
           end
  end.

(** Decimal rendering of an integral Number, as in a template literal. *)
Fixpoint digits (d : uint) : list N :=
  match d with
  | Nil => []
  | D0 d' => 48%N :: digits d'
  | D1 d' => 49%N :: digits d'
  | D2 d' => 50%N :: digits d'
  | D3 d' => 51%N :: digits d'
  | D4 d' => 52%N :: digits d'
  | D5 d' => 53%N :: digits d'
  | D6 d' => 54%N :: digits d'
  | D7 d' => 55%N :: digits d'
  | D8 d' => 56%N :: digits d'
  | D9 d' => 57%N :: digits d'
  end.

Definition numToString (z : Z) : list N :=
  match Z.to_int z with
  | Pos d => digits d
  | Neg d => 45%N :: digits d
  end.

(** A string between double quotes. *)
Definition quoted (s : list N) : list N := [34%N] ++ s ++ [34%N].

(** [x || dflt] on numbers: zero is falsy. *)
Definition orDefault (x : option Z) (dflt : Z) : Z :=
  match x with
  | Some v => if (v =? 0)%Z then dflt else v
  | None => dflt
  end.

(** Truthiness of an optional number. *)
Definition truthy (x : option Z) : bool :=
  match x with
  | Some v => negb (v =? 0)%Z
  | None => false
  end.

End JS.

(** ** Regular expressions *)

Module RegExp.

Inductive regex : Type :=
| Empty
| Char (c : N)
| Dot
| Class (negated : bool) (ranges : list (N * N))
| Space
| WordChar
| WordBoundary
| EndOfInput
| StartOfInput
| Seq (r1 r2 : regex)
| Alt (r1 r2 : regex)
| Star (r : regex).

(** A position in the input: the code unit before it and what follows. *)
Record cursor : Type := Cursor { prev : option N; rest : list N }.

Record t : Type := RegExp { source : regex; ignoreCase : bool }.

Definition Plus (r : regex) : regex := Seq r (Star r).
Definition Opt (r : regex) : regex := Alt r Empty.

Fixpoint Repeat (n : nat) (r : regex) : regex :=
  match n with
  | O => Empty
  | S n' => Seq r (Repeat n' r)
  end.

Fixpoint seqs (rs : list regex) : regex :=
  match rs with
  | [] => Empty
  | [r] => r
  | r :: rs' => Seq r (seqs rs')
  end.

Fixpoint alts (rs : list regex) : regex :=
  match rs with
  | [] => Class false []
  | [r] => r
  | r :: rs' => Alt r (alts rs')
  end.

(** The literal characters of an ASCII word, in sequence. *)
Definition str (s : string) : regex := seqs (map Char (JS.lit s)).

(** A class listing single characters, as in [[rf]]. *)
Definition oneOf (s : string) : regex :=
  Class false (map (fun c => (c, c)) (JS.lit s)).

Definition isLineTerminator (c : N) : bool :=
  ((c =? 10) || (c =? 13) || (c =? 8232) || (c =? 8233))%N.

(** [\s]: WhiteSpace and LineTerminator of ECMA-262. *)
Definition isSpace (c : N) : bool :=
  ((c =? 9) || (c =? 10) || (c =? 11) || (c =? 12) || (c =? 13) ||
   (c =? 32) || (c =? 160) || (c =? 5760) ||
   ((8192 <=? c) && (c <=? 8202)) ||
   (c =? 8232) || (c =? 8233) || (c =? 8239) || (c =? 8287) ||
   (c =? 12288) || (c =? 65279))%N.

(** [\w]: the basic word characters. *)
Definition isWordChar (c : N) : bool :=
  (((97 <=? c) && (c <=? 122)) || ((65 <=? c) && (c <=? 90)) ||
   ((48 <=? c) && (c <=? 57)) || (c =? 95))%N.

Definition isWord (o : option N) : bool :=
  match o with
  | Some c => isWordChar c
  | None => false
  end.

(** Canonicalize of ECMA-262 without the [u] flag, on the ASCII
    characters the patterns of this program consist of: a non-ASCII unit
    never canonicalizes to an ASCII one. *)
Definition canon (ic : bool) (c : N) : N :=
  if ic then JS.asciiUpper c else c.

Definition inRange (lo hi c : N) : bool := ((lo <=? c) && (c <=? hi))%N.

Definition inRanges (ic : bool) (ranges : list (N * N)) (c : N) : bool :=
  existsb (fun '(lo, hi) =>
             inRange lo hi c ||
             (ic && (inRange lo hi (JS.asciiUpper c) ||
                     inRange lo hi (JS.asciiLower c)))) ranges.

(** One character consumed when [ok] accepts it. *)
Definition step1 (ok : N -> bool) (c : cursor) : list cursor :=
  match rest c with
  | x :: s' => if ok x then [Cursor (Some x) s'] else []
  | [] => []
  end.

(** Iteration for [Star]: an iteration that consumes nothing is not
    continued, so [length (rest c)] iterations are enough. *)
Fixpoint star_iter (step : cursor -> list cursor) (fuel : nat) (c : cursor)
  : list cursor :=
  c :: match fuel with
       | O => []
       | S fuel' =>
           flat_map (star_iter step fuel')
             (List.filter
                (fun c' => (length (rest c') <? length (rest c))%nat)
                (step c))
       end.

(** Every cursor at which a match of [r] starting at [c] can end. *)
Fixpoint ends (ic : bool) (r : regex) (c : cursor) : list cursor :=
  match r with
  | Empty => [c]
  | Char a => step1 (fun x => (canon ic x =? canon ic a)%N) c
  | Dot => step1 (fun x => negb (isLineTerminator x)) c
  | Class neg ranges => step1 (fun x => xorb neg (inRanges ic ranges x)) c
  | Space => step1 isSpace c
  | WordChar => step1 isWordChar c
  | WordBoundary =>
      if xorb (isWord (prev c)) (isWord (head (rest c))) then [c] else []
  | EndOfInput => match rest c with [] => [c] | _ :: _ => [] end
  | StartOfInput => match prev c with None => [c] | Some _ => [] end
  | Seq r1 r2 => flat_map (ends ic r2) (ends ic r1 c)
  | Alt r1 r2 => ends ic r1 c ++ ends ic r2 c
  | Star r1 => star_iter (ends ic r1) (length (rest c)) c
  end.

(** What a match is, said without an algorithm: [matches ic r c c'] when the
    expression [r] can match from the position [c] up to the position
    [c']. *)
Inductive matches (ic : bool) : regex -> cursor -> cursor -> Prop :=
| m_Empty c : matches ic Empty c c
| m_Char a x p s :
    canon ic x = canon ic a ->
    matches ic (Char a) (Cursor p (x :: s)) (Cursor (Some x) s)
| m_Dot x p s :
    isLineTerminator x = false ->
    matches ic Dot (Cursor p (x :: s)) (Cursor (Some x) s)
| m_Class neg ranges x p s :
    xorb neg (inRanges ic ranges x) = true ->
    matches ic (Class neg ranges) (Cursor p (x :: s)) (Cursor (Some x) s)
| m_Space x p s :
    isSpace x = true ->
    matches ic Space (Cursor p (x :: s)) (Cursor (Some x) s)
| m_WordChar x p s :
    isWordChar x = true ->
    matches ic WordChar (Cursor p (x :: s)) (Cursor (Some x) s)
| m_WordBoundary c :
    xorb (isWord (prev c)) (isWord (head (rest c))) = true ->
    matches ic WordBoundary c c
| m_EndOfInput p : matches ic EndOfInput (Cursor p []) (Cursor p [])
| m_StartOfInput s : matches ic StartOfInput (Cursor None s) (Cursor None s)
| m_Seq r1 r2 c c1 c2 :
    matches ic r1 c c1 -> matches ic r2 c1 c2 -> matches ic (Seq r1 r2) c c2
| m_AltL r1 r2 c c' : matches ic r1 c c' -> matches ic (Alt r1 r2) c c'
| m_AltR r1 r2 c c' : matches ic r2 c c' -> matches ic (Alt r1 r2) c c'
| m_StarNil r c : matches ic (Star r) c c
| m_StarCons r c c1 c2 :
    matches ic r c c1 -> matches ic (Star r) c1 c2 ->
    matches ic (Star r) c c2.

(** Every position of the input, from left to right. *)
Fixpoint cursors (p : option N) (s : list N) : list cursor :=
  Cursor p s ::
  match s with
  | [] => []
  | x :: s' => cursors (Some x) s'
  end.

Definition matchesAt (re : t) (c : cursor) : bool :=
  match ends (ignoreCase re) (source re) c with
  | [] => false
  | _ :: _ => true
  end.

(** [RegExp.prototype.test] *)
Definition test (re : t) (s : list N) : bool :=
  existsb (matchesAt re) (cursors None s).

End RegExp.

(** ** src/approvals/index.ts *)

Module Approvals.
Import JS RegExp.

Module PendingCommand.
Record t : Type := Build {
  id : list N;
  sessionId : list N;
  chatId : Z;
  command : list N;
  cwd : list N;
  reason : list N;
  createdAt : Z
}.
End PendingCommand.

Definition bnd : regex := WordBoundary.
Definition sp1 : regex := Plus Space.
Definition sp0 : regex := Star Space.
Definition any0 : regex := Star Dot.

Definition sensitive (rs : list regex) : RegExp.t := RegExp (seqs rs) false.
Definition insensitive (rs : list regex) : RegExp.t := RegExp (seqs rs) true.

(** The table of dangerous patterns, in its declared order. *)
Definition DANGEROUS_PATTERNS : list (RegExp.t * list N) :=
  [ (* Destructive file operations *)
    (sensitive [bnd; str "rm"; sp1;
                Star (seqs [str "-"; Plus (oneOf "rf"); sp1]); oneOf "/~"],
     lit "Recursive delete from root/home");
    (sensitive [bnd; str "rm"; sp1; str "-"; Star (oneOf "rf"); sp0; str "*"],
     lit "Wildcard delete");
    (sensitive [bnd; str "rm"; sp1; str "-rf"; bnd],
     lit "Force recursive delete");
    (sensitive [bnd; str "rmdir"; sp1; str "--ignore-fail-on-non-empty"],
     lit "Force directory removal");
    (* Privilege escalation *)
    (sensitive [bnd; str "sudo"; bnd], lit "Root privileges");
    (sensitive [bnd; str "su"; sp1; Opt (str "-"); sp0; EndOfInput],
     lit "Switch to root");
    (sensitive [bnd; str "chown"; sp1; str "-R"; sp1; str "root"],
     lit "Change ownership to root");
    (* Dangerous permissions *)
    (sensitive [bnd; str "chmod"; sp1; Opt (seqs [str "-R"; sp1]);
                Star (Class false [(48, 55)%N]); str "7";
                Repeat 2 (Class false [(48, 55)%N]); bnd],
     lit "World-writable permissions");
    (sensitive [bnd; str "chmod"; sp1; Opt (seqs [str "-R"; sp1]);
                str "777"; bnd],
     lit "Full permissions to everyone");
    (sensitive [bnd; str "chmod"; sp1; str "+s"; bnd],
     lit "Set SUID/SGID bit");
    (* System modification *)
    (sensitive [bnd; str "mkfs"; bnd], lit "Format filesystem");
    (sensitive [bnd; str "dd"; sp1; any0; str "of=/dev/"],
     lit "Direct disk write");
    (sensitive [str ">"; sp0; str "/dev/"; oneOf "sh"; str "d";
                Class false [(97, 122)%N]],
     lit "Redirect to disk device");
    (sensitive [bnd; str "fdisk"; bnd], lit "Partition manipulation");
    (sensitive [bnd; str "parted"; bnd], lit "Partition manipulation");
    (* Network/Security *)
    (sensitive [bnd; str "iptables"; sp1; alts [str "-F"; str "--flush"]],
     lit "Flush firewall rules");
    (sensitive [bnd; str "ufw"; sp1; str "disable"], lit "Disable firewall");
    (sensitive [bnd; str "systemctl"; sp1; alts [str "stop"; str "disable"];
                sp1; alts [str "ssh"; str "firewall"; str "ufw"]],
     lit "Stop security service");
    (* Package management (can break system) *)
    (sensitive [bnd; str "apt"; Opt (str "-get"); sp1;
                alts [str "remove"; str "purge"]; sp1; any0; str "-y"],
     lit "Auto-confirm package removal");
    (sensitive [bnd; str "yum"; sp1; str "remove"; sp1; any0; str "-y"],
     lit "Auto-confirm package removal");
    (sensitive [bnd; str "pip"; sp1; str "uninstall"; sp1; any0; str "-y"],
     lit "Auto-confirm pip uninstall");
    (* Data destruction *)
    (sensitive [bnd; str "truncate"; sp1; str "-s"; sp0; str "0"],
     lit "Truncate file to zero");
    (sensitive [str ">"; sp0; str "/etc/"], lit "Overwrite system config");
    (sensitive [bnd; str "shred"; bnd], lit "Secure file deletion");
    (* Process/System control *)
    (sensitive [bnd; str "kill"; sp1; str "-9"; sp1; str "-1"; bnd],
     lit "Kill all processes");
    (sensitive [bnd; str "killall"; sp1; str "-9"],
     lit "Force kill processes");
    (sensitive [bnd; str "shutdown"; bnd], lit "System shutdown");
    (sensitive [bnd; str "reboot"; bnd], lit "System reboot");
    (sensitive [bnd; str "init"; sp1; oneOf "06"; bnd],
     lit "System halt/reboot");
    (* Dangerous downloads/execution *)
    (sensitive [str "curl"; any0; str "|"; sp0; Opt (str "ba"); str "sh"],
     lit "Pipe URL to shell");
    (sensitive [str "wget"; any0; str "|"; sp0; Opt (str "ba"); str "sh"],
     lit "Pipe URL to shell");
    (sensitive [bnd; str "eval"; sp1; Opt (Char 34); str "$(curl"],
     lit "Eval remote code");
    (* Git dangerous operations *)
    (sensitive [bnd; str "git"; sp1; str "push"; sp1; any0; str "--force"],
     lit "Force push (rewrites history)");
    (sensitive [bnd; str "git"; sp1; str "reset"; sp1; str "--hard"; sp1;
                str "HEAD~"],
     lit "Hard reset (lose commits)");
    (sensitive [bnd; str "git"; sp1; str "clean"; sp1; str "-fd"],
     lit "Force clean untracked files");
    (* Database *)
    (insensitive [bnd; str "DROP"; sp1; alts [str "DATABASE"; str "TABLE"];
                  bnd],
     lit "Drop database/table");
    (insensitive [bnd; str "TRUNCATE"; sp1; str "TABLE"; bnd],
     lit "Truncate table");
    (insensitive [bnd; str "DELETE"; sp1; str "FROM"; sp1; Plus WordChar;
                  sp0; Opt (str ";"); sp0; EndOfInput],
     lit "Delete all rows (no WHERE)");
    (* Environment *)
    (sensitive [bnd; str "export"; sp1;
                alts [str "PATH"; str "LD_PRELOAD"; str "LD_LIBRARY_PATH"];
                str "="],
     lit "Modify critical env var");
    (sensitive [bnd; str "unset"; sp1; alts [str "PATH"; str "HOME"]; bnd],
     lit "Unset critical env var");
    (* Fork bomb / resource exhaustion *)
    (sensitive [str ":()"; sp0; str "{"; sp0; str ":|:&"; sp0; str "}"],
     lit "Fork bomb");
    (sensitive [str "while"; sp1; str "true"; any0; str "do"; any0;
                str "done"],
     lit "Infinite loop") ].

(** Timeout for pending commands (5 minutes), in milliseconds. *)
Definition COMMAND_TIMEOUT : Z := 5 * 60 * 1000.

(** The result type [{ dangerous: boolean; reason?: string }]. *)
Record CheckResult : Type := { dangerous : bool; reason : option (list N) }.

(** The [for ... of] loop of [checkCommand], returning at the first match. *)
Fixpoint checkCommand_loop (patterns : list (RegExp.t * list N))
    (command : list N) : CheckResult :=
  match patterns with
  | [] => {| dangerous := false; reason := None |}
  | (pattern, why) :: patterns' =>
      if test pattern command
      then {| dangerous := true; reason := Some why |}
      else checkCommand_loop patterns' command
  end.

Definition checkCommand (command : list N) : CheckResult :=
  checkCommand_loop DANGEROUS_PATTERNS command.

(** The spec's decision tags, and the tag a check result stands for. *)
Inductive Decision : Type :=
| Allow
| Forbidden (why : list N)
| Dangerous (why : list N).

Definition decision (r : CheckResult) : Decision :=
  if dangerous r
  then Dangerous (default [] (reason r))
  else Allow.

Definition classify (command : list N) : Decision :=
  decision (checkCommand command).

(** *** The pending store

    The module's state is the [pendingCommands] map together with what
    [setTimeout] has registered: each timer is its deadline and the id its
    callback deletes.  [now] is the reading of [Date.now()].  A timer's
    callback does not run by itself when its deadline is reached: it runs
    when the event loop next comes to its timers. *)
Record State : Type := {
  now : Z;
  pendingCommands : gmap (list N) PendingCommand.t;
  timers : list (Z * list N)
}.

Definition init (t0 : Z) : State :=
  {| now := t0; pendingCommands := ∅; timers := [] |}.

(** [`cmd_${Date.now()}_${suffix}`], where [suffix] is the value of
    [Math.random().toString(36).slice(2, 8)].  [storePendingCommand] runs
    without interruption: its two readings of [Date.now()] and the start
    of its timer are one instant of the clock. *)
Definition makeId (t : Z) (suffix : list N) : list N :=
  lit "cmd_" ++ numToString t ++ lit "_" ++ suffix.

Definition storePendingCommand (sessionId : list N) (chatId : Z)
    (command cwd reason : list N) (suffix : list N) (st : State)
  : list N * State :=
  let id := makeId (now st) suffix in
  (id,
   {| now := now st;
      pendingCommands :=
        <[id := PendingCommand.Build id sessionId chatId command cwd reason
                  (now st)]> (pendingCommands st);
      timers := timers st ++ [(now st + COMMAND_TIMEOUT, id)%Z] |}).

Definition consumePendingCommand (id : list N) (st : State)
  : option PendingCommand.t * State :=
  match pendingCommands st !! id with
  | Some cmd =>
      (Some cmd,
       {| now := now st;
          pendingCommands := delete id (pendingCommands st);
          timers := timers st |})
  | None => (None, st)
  end.

(** The records of a session; the order in which the map lists them is
    not modelled. *)
Definition getSessionPendingCommands (sessionId : list N) (st : State)
  : list PendingCommand.t :=
  List.filter (fun c => eqs (PendingCommand.sessionId c) sessionId)
    (map snd (map_to_list (pendingCommands st))).

Definition cancelPendingCommand (id : list N) (st : State) : bool * State :=
  (bool_decide (is_Some (pendingCommands st !! id)),
   {| now := now st;
      pendingCommands := delete id (pendingCommands st);
      timers := timers st |}).

(** Time passes: the clock moves on by [dt] milliseconds.  No callback
    runs meanwhile; so it is while the program runs synchronous code (the
    [execSync] of [run_command] holds the event loop for up to 180
    seconds) and until the event loop comes to its timers. *)
Definition elapse (dt : N) (st : State) : State :=
  {| now := (now st + Z.of_N dt)%Z;
     pendingCommands := pendingCommands st;
     timers := timers st |}.

(** The callbacks [pendingCommands.delete(id)] of the timers [due]. *)
Definition fire (m : gmap (list N) PendingCommand.t) (due : list (Z * list N))
  : gmap (list N) PendingCommand.t :=
  fold_left (fun m' t => delete (snd t) m') due m.

(** The event loop comes to its timers: every timer whose deadline has
    been reached runs its callback and is gone. *)
Definition runTimers (st : State) : State :=
  {| now := now st;
     pendingCommands :=
       fire (pendingCommands st)
         (List.filter (fun t => (fst t <=? now st)%Z) (timers st));
     timers := List.filter (fun t => negb (fst t <=? now st)%Z) (timers st) |}.

(** What the rest of the program does with the store. *)
Inductive Call : Type :=
| Store (sessionId : list N) (chatId : Z) (command cwd reason : list N)
        (suffix : list N)
| Consume (id : list N)
| Cancel (id : list N)
| Elapse (dt : N)
| Timers.

Inductive Reply : Type :=
| Stored (id : list N)
| Consumed (cmd : option PendingCommand.t)
| Cancelled (found : bool)
| Elapsed
| Fired.

Definition call (c : Call) (st : State) : Reply * State :=
  match c with
  | Store s ch cmd d r suffix =>
      let '(id, st') := storePendingCommand s ch cmd d r suffix st in
      (Stored id, st')
  | Consume id =>
      let '(cmd, st') := consumePendingCommand id st in
      (Consumed cmd, st')
  | Cancel id =>
      let '(b, st') := cancelPendingCommand id st in
      (Cancelled b, st')
  | Elapse dt => (Elapsed, elapse dt st)
  | Timers => (Fired, runTimers st)
  end.

(** A sequence of calls, with the replies in order. *)
Fixpoint calls (cs : list Call) (st : State) : list Reply * State :=
  match cs with
  | [] => ([], st)
  | c :: cs' =>
      let '(r, st1) := call c st in
      let '(rs, st2) := calls cs' st1 in
      (r :: rs, st2)
  end.

(** The records that calls of [consumePendingCommand(id)] returned, given
    the calls made and their replies. *)
Definition consumedBy (id : list N) (cr : Call * Reply)
  : list PendingCommand.t :=
  match cr with
  | (Consume i, Consumed (Some cmd)) => if eqs i id then [cmd] else []
  | _ => []
  end.

Definition consumed (id : list N) (cs : list Call) (rs : list Reply)
  : list PendingCommand.t :=
  flat_map (consumedBy id) (combine cs rs).

(** The same store at another reading of the clock. *)
Definition atTime (t : Z) (st : State) : State :=
  {| now := t; pendingCommands := pendingCommands st; timers := timers st |}.

End Approvals.

(** ** bot/src/config.ts *)

Module CONFIG.
Module rateLimit.
Definition globalMinInterval : Z := 200.
Definition groupMinInterval : Z := 5000.
Definition maxRetries : Z := 3.
Definition retryBuffer : Z := 5.
End rateLimit.
Module users.
Definition maxConcurrent : Z := 10.
End users.
End CONFIG.

(** ** bot/src/rate-limiter.ts *)

Module RateLimiter.
Import JS.

(** What one invocation of the wrapped send function does: it resolves
    with the provider's response, rejects with error code 429 (carrying
    [parameters.retry_after] or not), or rejects with another error. *)
Inductive Outcome (T : Type) : Type :=
| Resolved (v : T)
| RateLimited (retry_after : option Z)
| Failed.
Arguments Resolved {T} v.
Arguments RateLimited {T} retry_after.
Arguments Failed {T}.

(** What an observer of one [safeSend] sees, in order. *)
Inductive Event : Type :=
| Sleep (ms : Z)
| Attempt (n : Z).

(** The module's variables, the clock, and the events so far.  The
    [sendMutex] chain makes calls of [safeSend] run one after another; one
    call is modelled from the moment it holds the mutex. *)
Record State : Type := {
  now : Z;
  globalLastSend : Z;
  lastGroupMessage : gmap Z Z;
  trace : list Event
}.

Definition M (A : Type) : Type := State -> A * State.

#[export] Instance M_ret : MRet M := fun A (x : A) st => (x, st).
#[export] Instance M_bind : MBind M :=
  fun A B (f : A -> M B) (m : M A) st => let '(x, st') := m st in f x st'.

Definition dateNow : M Z := fun st => (now st, st).

(** [await new Promise(r => setTimeout(r, ms))] *)
Definition sleep (ms : Z) : M unit := fun st =>
  (tt, {| now := now st + Z.max 0 ms;
          globalLastSend := globalLastSend st;
          lastGroupMessage := lastGroupMessage st;
          trace := trace st ++ [Sleep ms] |}).

Definition getGlobalLastSend : M Z := fun st => (globalLastSend st, st).

Definition setGlobalLastSend (t : Z) : M unit := fun st =>
  (tt, {| now := now st;
          globalLastSend := t;
          lastGroupMessage := lastGroupMessage st;
          trace := trace st |}).

Definition getLastGroup (chatId : Z) : M (option Z) := fun st =>
  (lastGroupMessage st !! chatId, st).

Definition setLastGroup (chatId t : Z) : M unit := fun st =>
  (tt, {| now := now st;
          globalLastSend := globalLastSend st;
          lastGroupMessage := <[chatId := t]> (lastGroupMessage st);
          trace := trace st |}).

(** [await fn()] on attempt [n]: it takes some time and has an outcome. *)
Definition invoke {T} (fn : Z -> N * Outcome T) (n : Z) : M (Outcome T) :=
  fun st =>
    (snd (fn n),
     {| now := now st + Z.of_N (fst (fn n));
        globalLastSend := globalLastSend st;
        lastGroupMessage := lastGroupMessage st;
        trace := trace st ++ [Attempt n] |}).

Definition when (b : bool) (m : M unit) : M unit :=
  if b then m else mret tt.

(** The [for] loop of [safeSend]; [fuel] is the number of iterations left
    before [attempt <= maxRetries] fails. *)
Fixpoint retryLoop {T} (fuel : nat) (attempt maxRetries : Z)
    (fn : Z -> N * Outcome T) : M (option T) :=
  match fuel with
  | O => mret None
  | S fuel' =>
      o ← invoke fn attempt;
      match o with
      | Resolved v => mret (Some v)
      | RateLimited retry_after =>
          let retryAfter :=
            (orDefault retry_after 30 + CONFIG.rateLimit.retryBuffer)%Z in
          when (attempt <? maxRetries)%Z
            (sleep (retryAfter * 1000);;
             t ← dateNow; setGlobalLastSend t);;
          retryLoop fuel' (attempt + 1) maxRetries fn
      | Failed => mret None
      end
  end.

(** The waits of [safeSend] before its first attempt. *)
Definition throttle (chatId : Z) : M unit :=
  t0 ← dateNow;
  last ← getGlobalLastSend;
  let globalWait := (CONFIG.rateLimit.globalMinInterval - (t0 - last))%Z in
  when (0 <? globalWait)%Z (sleep globalWait);;
  when (chatId <? 0)%Z
    (lg ← getLastGroup chatId;
     t1 ← dateNow;
     let groupWait :=
       (CONFIG.rateLimit.groupMinInterval - (t1 - orDefault lg 0))%Z in
     when (0 <? groupWait)%Z (sleep groupWait);;
     t2 ← dateNow; setLastGroup chatId t2);;
  t3 ← dateNow;
  setGlobalLastSend t3.

(** The parameter [maxRetries = CONFIG.rateLimit.maxRetries] takes its
    default when the caller passes nothing. *)
Definition safeSend {T} (chatId : Z) (fn : Z -> N * Outcome T)
    (maxRetriesArg : option Z) : M (option T) :=
  let maxRetries := default CONFIG.rateLimit.maxRetries maxRetriesArg in
  throttle chatId;;
  retryLoop (Z.to_nat maxRetries) 1 maxRetries fn.

(** The attempts among some events, and the numbers [a, a+1, ...]. *)
Definition attemptsIn (es : list Event) : list Z :=
  flat_map (fun e => match e with Attempt n => [n] | Sleep _ => [] end) es.

Fixpoint countFrom (a : Z) (n : nat) : list Z :=
  match n with
  | O => []
  | S n' => a :: countFrom (a + 1) n'
  end.

Definition start (t0 : Z) : State :=
  {| now := t0; globalLastSend := 0; lastGroupMessage := ∅; trace := [] |}.

(** *** Concurrent users limiter *)

Record Users : Type := {
  activeUsers : gset Z;
  maxConcurrentUsers : Z
}.

Definition noUsers : Users :=
  {| activeUsers := ∅; maxConcurrentUsers := CONFIG.users.maxConcurrent |}.

Definition setMaxConcurrentUsers (max : Z) (us : Users) : Users :=
  {| activeUsers := activeUsers us; maxConcurrentUsers := max |}.

Definition canAcceptUser (userId : Z) (us : Users) : bool :=
  if bool_decide (userId ∈ activeUsers us) then true
  else (Z.of_nat (size (activeUsers us)) <? maxConcurrentUsers us)%Z.

Definition markUserActive (userId : Z) (us : Users) : Users :=
  {| activeUsers := {[userId]} ∪ activeUsers us;
     maxConcurrentUsers := maxConcurrentUsers us |}.

Definition markUserInactive (userId : Z) (us : Users) : Users :=
  {| activeUsers := activeUsers us ∖ {[userId]};
     maxConcurrentUsers := maxConcurrentUsers us |}.

(** The bound the limiter is there for. *)
Definition bounded (us : Users) : Prop :=
  (Z.of_nat (size (activeUsers us)) <= maxConcurrentUsers us)%Z.

End RateLimiter.

(** ** bot/src/index.ts: the text handler's use of the limiter

    One invocation of the handler runs without interruption up to the call
    of [canAcceptUser]; a turn that is accepted and is no prompt injection
    then waits for [setMessageReaction], and only when that returns does it
    call [markUserActive].  It calls [markUserInactive] in the [finally]
    block at its end.  Handlers of different updates interleave at each
    [await]. *)

Module Bot.
Import RateLimiter.

Inductive Phase : Type :=
| Accepted   (* past canAcceptUser, waiting on the reaction *)
| Active.    (* past markUserActive, inside withUserLock *)

Record State : Type := {
  users : Users;
  turns : gmap nat (Z * Phase)
}.

Inductive Step : Type :=
| Arrive (turn : nat) (userId : Z) (injection : bool)
| Resume (turn : nat)
| Finish (turn : nat).

Definition step (s : Step) (st : State) : option State :=
  match s with
  | Arrive turn userId injection =>
      match turns st !! turn with
      | Some _ => None
      | None =>
          if negb (canAcceptUser userId (users st)) then Some st
          else if injection then Some st
          else Some {| users := users st;
                       turns := <[turn := (userId, Accepted)]> (turns st) |}
      end
  | Resume turn =>
      match turns st !! turn with
      | Some (userId, Accepted) =>
          Some {| users := markUserActive userId (users st);
                  turns := <[turn := (userId, Active)]> (turns st) |}
      | _ => None
      end
  | Finish turn =>
      match turns st !! turn with
      | Some (userId, Active) =>
          Some {| users := markUserInactive userId (users st);
                  turns := delete turn (turns st) |}
      | _ => None
      end
  end.

Fixpoint run (ss : list Step) (st : State) : option State :=
  match ss with
  | [] => Some st
  | s :: ss' =>
      match step s st with
      | Some st' => run ss' st'
      | None => None
      end
  end.

Definition boot (max : Z) : State :=
  {| users := setMaxConcurrentUsers max noUsers; turns := ∅ |}.

(** Eleven users write at the same moment: every handler runs up to its
    first [await], and then each one resumes. *)
Definition crowd : list Step :=
  map (fun k => Arrive k (Z.of_nat k + 1) false) (seq 0 11)
    ++ map Resume (seq 0 11).

(** Admission without a suspension between the check and the mark. *)
Definition checkThenMark (userId : Z) (us : Users) : Users :=
  if canAcceptUser userId us then markUserActive userId us else us.

Inductive Atomic : Type :=
| Enter (userId : Z)
| Leave (userId : Z).

Definition atomic (a : Atomic) (us : Users) : Users :=
  match a with
  | Enter u => checkThenMark u us
  | Leave u => markUserInactive u us
  end.

End Bot.

(** ** Node's [path] module (POSIX), as far as the file tools use it *)

Module Path.
Import JS.

Definition isAbsolute (p : list N) : bool :=
  match p with
  | c :: _ => (c =? 47)%N
  | [] => false
  end.

Definition dot : list N := [46%N].
Definition dotdot : list N := [46%N; 46%N].

(** [normalizeString] on the segments between slashes; [res] holds the
    segments kept so far, the last one first. *)
Fixpoint normalizeSegments (allowAboveRoot : bool) (res : list (list N))
    (segs : list (list N)) : list (list N) :=
  match segs with
  | [] => rev res
  | seg :: segs' =>
      if eqs seg [] || eqs seg dot then
        normalizeSegments allowAboveRoot res segs'
      else if eqs seg dotdot then
        match res with
        | top :: res' =>
            if eqs top dotdot then
              normalizeSegments allowAboveRoot
                (if allowAboveRoot then dotdot :: res else res) segs'
            else normalizeSegments allowAboveRoot res' segs'
        | [] =>
            normalizeSegments allowAboveRoot
              (if allowAboveRoot then [dotdot] else []) segs'
        end
      else normalizeSegments allowAboveRoot (seg :: res) segs'
  end.

Definition normalizeString (path : list N) (allowAboveRoot : bool)
  : list N :=
  join [47%N] (normalizeSegments allowAboveRoot [] (split 47 path)).

Definition endsWithSlash (p : list N) : bool :=
  match last p with
  | Some c => (c =? 47)%N
  | None => false
  end.

Definition normalize (path : list N) : list N :=
  match path with
  | [] => dot
  | _ :: _ =>
      let abs := isAbsolute path in
      let trailing := endsWithSlash path in
      let p := normalizeString path (negb abs) in
      match p with
      | [] => if abs then [47%N] else if trailing then lit "./" else dot
      | _ :: _ =>
          let p' := if trailing then p ++ [47%N] else p in
          if abs then 47%N :: p' else p'
      end
  end.

(** [path.join(a, b)] *)
Definition join2 (a b : list N) : list N :=
  match a, b with
  | [], [] => dot
  | [], _ :: _ => normalize b
  | _ :: _, [] => normalize a
  | _ :: _, _ :: _ => normalize (a ++ [47%N] ++ b)
  end.

(** [path.resolve(p)]; [processCwd] is the value of [process.cwd()]. *)
Definition resolve (processCwd p : list N) : list N :=
  let acc : list N * bool :=
    match p with
    | [] => ([], false)
    | _ :: _ => (p ++ [47%N], isAbsolute p)
    end in
  let acc' : list N * bool :=
    if snd acc then acc
    else match processCwd with
         | [] => acc
         | _ :: _ => (processCwd ++ [47%N] ++ fst acc, isAbsolute processCwd)
         end in
  let resolved := normalizeString (fst acc') (negb (snd acc')) in
  if snd acc' then 47%N :: resolved
  else match resolved with
       | [] => dot
       | _ :: _ => resolved
       end.

(** [path.basename(p)]: the last segment that is not empty. *)
Definition basename (p : list N) : list N :=
  default [] (last (List.filter (fun seg => negb (eqs seg [])) (split 47 p))).

Fixpoint dropWhile (f : N -> bool) (l : list N) : list N :=
  match l with
  | [] => []
  | x :: l' => if f x then dropWhile f l' else l
  end.

(** [path.dirname(p)] *)
Definition dirname (p : list N) : list N :=
  match p with
  | [] => dot
  | c0 :: body =>
      let hasRoot := (c0 =? 47)%N in
      let r1 := dropWhile (fun c => (c =? 47)%N) (rev body) in
      let r2 := dropWhile (fun c => negb (c =? 47)%N) r1 in
      match r2 with
      | [] => if hasRoot then [47%N] else dot
      | _ :: r3 =>
          match r3 with
          | [] => if hasRoot then lit "//" else [c0]
          | _ :: _ => c0 :: rev r3
          end
      end
  end.

End Path.

(** ** src/tools/files.ts *)

Module Files.
Import JS RegExp.

(** [String.prototype.toLowerCase]: the Unicode case tables belong to the
    JavaScript runtime and are taken as given. *)
Class Runtime : Type := { toLowerCase : list N -> list N }.

(** Node's [fs] and [child_process], over some type of file-system
    states.  An operation that can throw returns [None], or the message of
    the exception where the tools report it. *)
Class FileSystem (FS : Type) : Type := {
  processCwd : FS -> list N;
  existsSync : FS -> list N -> bool;
  realpathSync : FS -> list N -> option (list N);
  lstatIsSymbolicLink : FS -> list N -> option bool;
  readFileSync : FS -> list N -> list N + list N;
  mkdirSync : FS -> list N -> FS * option (list N);
  writeFileSync : FS -> list N -> list N -> FS * option (list N);
  execSync : FS -> list N -> list N -> option (list N)
}.

(** The result type [{ success: boolean; output?: string; error?: string }]. *)
Record ToolResult : Type := {
  success : bool;
  output : option (list N);
  error : option (list N)
}.

Definition ok (out : list N) : ToolResult :=
  {| success := true; output := Some out; error := None |}.
Definition failure (msg : list N) : ToolResult :=
  {| success := false; output := None; error := Some msg |}.

(** The sign that opens every security refusal, U+1F6AB, and the word
    after it. *)
Definition BLOCKED : list N := [55357%N; 57003%N] ++ lit " BLOCKED: ".

(** [content || dflt] on strings: the empty string is falsy. *)
Definition orText (s dflt : list N) : list N :=
  match s with
  | [] => dflt
  | _ :: _ => s
  end.

Definition SENSITIVE_FILES : list (list N) :=
  [ lit ".env"; lit ".env.local"; lit ".env.production";
    lit ".env.development"; lit ".env.staging"; lit "credentials.json";
    lit "credentials.yaml"; lit "secrets.json"; lit "secrets.yaml";
    lit ".secrets"; lit "service-account.json";
    lit "serviceAccountKey.json"; lit ".npmrc"; lit ".pypirc";
    lit "id_rsa"; lit "id_ed25519"; lit "id_ecdsa"; lit "id_dsa";
    lit ".pem"; lit ".key" ].

Definition jsonYaml : regex := alts [str "json"; str "yaml"; str "yml"].

Definition SENSITIVE_PATTERNS : list RegExp.t :=
  [ RegExp (seqs [str ".env";
                  Opt (seqs [str "."; Plus (Class false [(97, 122)%N])]);
                  EndOfInput]) true;
    RegExp (seqs [str "credential"; Opt (str "s"); str "."; jsonYaml;
                  EndOfInput]) true;
    RegExp (seqs [str "secret"; Opt (str "s"); str "."; jsonYaml;
                  EndOfInput]) true;
    RegExp (seqs [str "service"; Opt Dot; str "account"; Star Dot;
                  str ".json"; EndOfInput]) true;
    RegExp (seqs [str "private"; Opt Dot; str "key"]) true;
    RegExp (seqs [str "id_";
                  alts [str "rsa"; str "dsa"; str "ecdsa"; str "ed25519"];
                  EndOfInput]) true;
    RegExp (seqs [str ".";
                  alts [str "pem"; str "key"; str "p12"; str "pfx"];
                  EndOfInput]) true ].

(** [/password|secret|token|api.?key|credential|private.?key/i] *)
Definition secretPatterns : RegExp.t :=
  RegExp (alts [str "password"; str "secret"; str "token";
                seqs [str "api"; Opt Dot; str "key"];
                str "credential";
                seqs [str "private"; Opt Dot; str "key"]]) true.

Section WithRuntime.
Context `{Runtime}.

Definition isSensitiveFile (filePath : list N) : bool :=
  let fileName := toLowerCase (Path.basename filePath) in
  let fullPath := toLowerCase filePath in
  if existsb (fun f => eqs fileName (toLowerCase f)) SENSITIVE_FILES
  then true
  else if existsb (fun p => test p fullPath) SENSITIVE_PATTERNS
  then true
  else if includes fullPath (lit "/.ssh/") ||
          includes fullPath (lit "\.ssh\")
  then true
  else false.

Definition fullPathOf (path cwd : list N) : list N :=
  if startsWith path (lit "/") then path else Path.join2 cwd path.

(** What it is for a path to name a sensitive file, in the words of the
    rules: the base name is on the list of secret file names, whatever
    its case; or a sensitive pattern matches the lower-cased path; or
    the lower-cased path has a segment [.ssh] between two others (in an
    absolute path: any directory segment [.ssh]). *)
Definition namesSensitive (filePath : list N) : Prop :=
  (exists f, f ∈ SENSITIVE_FILES
             /\ toLowerCase (Path.basename filePath) = toLowerCase f)
  \/ (exists p, p ∈ SENSITIVE_PATTERNS
                /\ test p (toLowerCase filePath) = true)
  \/ (exists before after,
        split 47 (toLowerCase filePath) = before ++ lit ".ssh" :: after
        /\ before <> [] /\ after <> []).

Section WithFileSystem.
Context {FS : Type} `{FileSystem FS}.

Definition sensitivePaths : list (list N) :=
  [ lit "/etc"; lit "/root"; lit "/home"; lit "/proc"; lit "/sys";
    lit "/dev"; lit "/var" ].

(** The result type [{ escape: boolean; reason?: string }]. *)
Definition noEscape : bool * option (list N) := (false, None).

Fixpoint firstSensitive (realPath : list N) (ps : list (list N))
  : bool * option (list N) :=
  match ps with
  | [] => noEscape
  | sensitive :: ps' =>
      if startsWith realPath sensitive
      then (true,
            Some (lit "Symlink points to sensitive location ("
                    ++ sensitive ++ lit ")"))
      else firstSensitive realPath ps'
  end.

Definition isSymlinkEscape (fs : FS) (filePath workspacePath : list N)
  : bool * option (list N) :=
  if negb (existsSync fs filePath) then noEscape
  else
    match realpathSync fs filePath with
    | None => noEscape
    | Some realPath =>
        match realpathSync fs workspacePath with
        | None => noEscape
        | Some realWorkspace =>
            if negb (startsWith realPath (realWorkspace ++ lit "/"))
               && negb (eqs realPath realWorkspace)
            then (true,
                  Some (lit "Symlink points outside workspace ("
                          ++ realPath ++ lit ")"))
            else
              match lstatIsSymbolicLink fs filePath with
              | None => noEscape
              | Some false => noEscape
              | Some true => firstSensitive realPath sensitivePaths
              end
        end
    end.

(** A canonical path is inside a workspace when it is the workspace
    or starts with the workspace and a slash. *)
Definition inside (realWorkspace realPath : list N) : Prop :=
  realPath = realWorkspace
  \/ exists tail, realPath = realWorkspace ++ lit "/" ++ tail.

(** An existing path whose canonical form lies outside the canonical
    form of the workspace. *)
Definition liesOutside (fs : FS) (filePath workspacePath : list N)
  : Prop :=
  exists realPath realWorkspace,
    existsSync fs filePath = true
    /\ realpathSync fs filePath = Some realPath
    /\ realpathSync fs workspacePath = Some realWorkspace
    /\ ~ inside realWorkspace realPath.

(** [Array.prototype.slice(start, end)] with integral bounds. *)
Definition arraySlice {A} (l : list A) (from to : Z) : list A :=
  let len := Z.of_nat (length l) in
  let k := if (from <? 0)%Z then Z.max (len + from) 0
           else Z.min from len in
  let fin := if (to <? 0)%Z then Z.max (len + to) 0
             else Z.min to len in
  firstn (Z.to_nat (fin - k)) (skipn (Z.to_nat k) l).

Fixpoint numberLines (start : Z) (i : Z) (ls : list (list N))
  : list (list N) :=
  match ls with
  | [] => []
  | l :: ls' =>
      (numToString (start + i + 1) ++ lit "|" ++ l)
        :: numberLines start (i + 1) ls'
  end.

Definition executeRead (fs : FS) (path : list N) (offset limit : option Z)
    (cwd : list N) : ToolResult :=
  let fullPath := fullPathOf path cwd in
  if isSensitiveFile fullPath then
    failure (BLOCKED ++ lit "Cannot read sensitive file ("
               ++ Path.basename fullPath
               ++ lit "). This file may contain secrets.")
  else
    let symlinkCheck := isSymlinkEscape fs fullPath cwd in
    if fst symlinkCheck then
      failure (BLOCKED ++ default [] (snd symlinkCheck))
    else if negb (existsSync fs fullPath) then
      failure (lit "File not found: " ++ fullPath)
    else
      match readFileSync fs fullPath with
      | inl message => failure message
      | inr content =>
          let content1 :=
            if bool_decide (is_Some offset) || bool_decide (is_Some limit)
            then
              let lines := split 10 content in
              let start := (orDefault offset 1 - 1)%Z in
              let stop :=
                if truthy limit then (start + default 0%Z limit)%Z
                else Z.of_nat (length lines) in
              join [10%N] (numberLines start 0 (arraySlice lines start stop))
            else content in
          let content2 :=
            if (100000 <? Z.of_nat (length content1))%Z
            then firstn (Z.to_nat 100000) content1
                   ++ 10%N :: lit "...(truncated)"
            else content1 in
          ok (orText content2 (lit "(empty file)"))
      end.

Definition executeWrite (fs : FS) (path content : list N) (cwd : list N)
  : ToolResult * FS :=
  let fullPath := fullPathOf path cwd in
  let resolvedPath := Path.resolve (processCwd fs) fullPath in
  let resolvedCwd := Path.resolve (processCwd fs) cwd in
  if negb (startsWith resolvedPath (resolvedCwd ++ lit "/"))
     && negb (eqs resolvedPath resolvedCwd)
  then (failure (BLOCKED ++ lit "Cannot write files outside workspace"),
        fs)
  else if isSensitiveFile fullPath then
    (failure (BLOCKED ++ lit "Cannot write to sensitive file ("
                ++ Path.basename fullPath ++ lit ")"), fs)
  else
    let symlinkCheck := isSymlinkEscape fs fullPath cwd in
    if fst symlinkCheck then
      (failure (BLOCKED ++ default [] (snd symlinkCheck)), fs)
    else
      let dir := Path.dirname fullPath in
      let made :=
        if negb (existsSync fs dir) then mkdirSync fs dir
        else (fs, None) in
      match snd made with
      | Some message => (failure message, fst made)
      | None =>
          let written := writeFileSync (fst made) fullPath content in
          match snd written with
          | Some message => (failure message, fst written)
          | None =>
              (ok (lit "Written "
                     ++ numToString (Z.of_nat (length content))
                     ++ lit " bytes to " ++ path),
               fst written)
          end
      end.

(** [s.replace(/"/g, '\\"')] *)
Definition escapeQuotes (s : list N) : list N :=
  flat_map (fun c => if (c =? 34)%N then [92%N; 34%N] else [c]) s.

Definition searchFlags (context_before context_after : option Z)
    (files_only ignore_case : bool) : list (list N) :=
  [lit "-rn"]
    ++ (if ignore_case then [lit "-i"] else [])
    ++ (if files_only then [lit "-l"] else [])
    ++ (if truthy context_before
        then [lit "-B" ++ numToString (default 0%Z context_before)]
        else [])
    ++ (if truthy context_after
        then [lit "-A" ++ numToString (default 0%Z context_after)]
        else [])
    ++ [ lit "--exclude-dir=node_modules"; lit "--exclude-dir=.git";
         lit "--exclude-dir=dist" ]
    ++ [ lit "--exclude=*.env*"; lit "--exclude=*credentials*";
         lit "--exclude=*secret*" ]
    ++ [ lit "--exclude=*.pem"; lit "--exclude=*.key";
         lit "--exclude=id_rsa*" ].

(** The tool's result together with the shell commands it ran. *)
Definition executeSearchText (fs : FS) (pattern : list N)
    (path : option (list N)) (context_before context_after : option Z)
    (files_only ignore_case : bool) (cwd : list N)
  : ToolResult * list (list N) :=
  if test secretPatterns pattern then
    (failure (BLOCKED
                ++ lit "Cannot search for secrets/credentials patterns"),
     [])
  else
    let searchPath :=
      match path with
      | Some p => match p with
                  | [] => cwd
                  | _ :: _ => fullPathOf p cwd
                  end
      | None => cwd
      end in
    let flags :=
      searchFlags context_before context_after files_only ignore_case in
    let cmd :=
      lit "grep " ++ join (lit " ") flags ++ lit " "
        ++ [34%N] ++ escapeQuotes pattern ++ [34%N] ++ lit " "
        ++ [34%N] ++ searchPath ++ [34%N]
        ++ lit " 2>/dev/null | head -200" in
    match execSync fs cmd cwd with
    | Some out => (ok (orText out (lit "(no matches)")), [cmd])
    | None => (ok (lit "(no matches)"), [cmd])
    end.

End WithFileSystem.
End WithRuntime.

(** What [search_text] refuses to look for: a word that reads, whatever
    its case, [password], [secret], [token] or [credential], or [api] or
    [private], then at most one unit that is no line terminator, then
    [key]. *)
Definition gap (g : list N) : Prop :=
  g = [] \/ exists x, g = [x] /\ isLineTerminator x = false.

Definition secretWord (m : list N) : Prop :=
  map asciiLower m
    ∈ [lit "password"; lit "secret"; lit "token"; lit "credential"]
  \/ exists m1 g m2,
       m = m1 ++ g ++ m2
       /\ map asciiLower m1 ∈ [lit "api"; lit "private"]
       /\ gap g
       /\ map asciiLower m2 = lit "key".

Definition mentionsSecret (pattern : list N) : Prop :=
  exists pre m post, pattern = pre ++ m ++ post /\ secretWord m.

(** Equal to an ASCII word up to the case folding of the [i] flag. *)
Definition ceq (m : list N) (w : string) : Prop :=
  map (canon true) m = map (canon true) (lit w).

(** The substrings listed for the same check elsewhere: no unit other
    than a space or a hyphen between [api] or [private] and [key]. *)
Definition listedSecretWords : list (list N) :=
  [ lit "password"; lit "secret"; lit "token"; lit "credential";
    lit "api key"; lit "api-key"; lit "apikey";
    lit "private key"; lit "private-key"; lit "privatekey" ].

Definition containsListedWord (pattern : list N) : bool :=
  existsb (fun w => includes (map asciiLower pattern) w) listedSecretWords.

(** A security refusal: no success, no output, and an error that opens
    with the blocked sign. *)
Definition isBlocked (r : ToolResult) : bool :=
  negb (success r) && bool_decide (output r = None) &&
  match error r with
  | Some msg => startsWith msg BLOCKED
  | None => false
  end.

End Files.

(** ** Concrete instances, to run the tools on *)

Module Instances.
Import JS Files.

(** A runtime that folds the ASCII letters only. *)
Definition asciiRuntime : Runtime := {| toLowerCase := map asciiLower |}.

(** A flat disk: every path that exists is listed with what it is. *)
Inductive Entry : Type :=
| File (content : list N)
| Dir
| Link (target : list N).

Record Disk : Type := {
  entries : list (list N * Entry);
  workdir : list N
}.

Fixpoint lookupEntry (es : list (list N * Entry)) (p : list N)
  : option Entry :=
  match es with
  | [] => None
  | (q, e) :: es' => if eqs q p then Some e else lookupEntry es' p
  end.

Definition diskRealpath (d : Disk) (p : list N) : option (list N) :=
  match lookupEntry (entries d) p with
  | Some (Link target) =>
      match lookupEntry (entries d) target with
      | Some (File _) | Some Dir => Some target
      | _ => None
      end
  | Some _ => Some p
  | None => None
  end.

Definition diskRead (d : Disk) (p : list N) : list N + list N :=
  match diskRealpath d p with
  | Some q =>
      match lookupEntry (entries d) q with
      | Some (File content) => inr content
      | _ => inl (lit "EISDIR: illegal operation on a directory, read")
      end
  | None => inl (lit "ENOENT: no such file or directory")
  end.

Definition diskPut (d : Disk) (p : list N) (e : Entry) : Disk :=
  {| entries := (p, e) :: entries d; workdir := workdir d |}.

#[export] Instance diskFileSystem : FileSystem Disk := {|
  processCwd := workdir;
  existsSync d p := bool_decide (is_Some (diskRealpath d p));
  realpathSync := diskRealpath;
  lstatIsSymbolicLink d p :=
    match lookupEntry (entries d) p with
    | Some (Link _) => Some true
    | Some _ => Some false
    | None => None
    end;
  readFileSync := diskRead;
  mkdirSync d p := (diskPut d p Dir, None);
  writeFileSync d p content := (diskPut d p (File content), None);
  execSync _ _ _ := None
|}.

(** A workspace with one file and a link that leaves it, and a file
    outside. *)
Definition sampleDisk : Disk :=
  {| entries :=
       [ (lit "/workspace/42", Dir);
         (lit "/workspace/42/foo.txt", File (lit "hello"));
         (lit "/workspace/42/out", Link (lit "/workspace/43/x"));
         (lit "/workspace/43", Dir);
         (lit "/workspace/43/x", File (lit "other user")) ];
     workdir := lit "/app" |}.

(** A send function that is rate-limited once, with a retry-after value
    of 7 seconds, and then goes through. *)
Definition flakySend (n : Z) : N * RateLimiter.Outcome (list N) :=
  if (n =? 1)%Z then (120%N, RateLimiter.RateLimited (Some 7%Z))
  else (80%N, RateLimiter.Resolved (lit "message 4711")).

(** A store in which one dangerous command waits for its approval. *)
Definition sampleId : list N := Approvals.makeId 1000 (lit "k3x9ab").

Definition sampleStore : Approvals.State :=
  (Approvals.storePendingCommand (lit "session-7") 7 (lit "rm -rf build")
     (lit "/workspace/7") (lit "Force recursive delete") (lit "k3x9ab")
     (Approvals.init 1000)).2.

End Instances.

(** ** bot/src/formatters.ts *)

Module Formatters.
Import JS.

(** [s.replace(/c/g, by)] for one literal character [c] and a replacement
    without dollar signs. *)
Definition replaceAllChar (c : N) (by_ : list N) (s : list N) : list N :=
  flat_map (fun x => if (x =? c)%N then by_ else [x]) s.

Definition escapeHtml (text : list N) : list N :=
  replaceAllChar 62 (lit "&gt;")
    (replaceAllChar 60 (lit "&lt;")
       (replaceAllChar 38 (lit "&amp;") text)).

(** What one character becomes. *)
Definition entity (x : N) : list N :=
  if (x =? 38)%N then lit "&amp;"
  else if (x =? 60)%N then lit "&lt;"
  else if (x =? 62)%N then lit "&gt;"
  else [x].

(** The loop of [splitMessage]: the parts pushed so far, and [current]. *)
Definition splitStep (maxLen : Z) (acc : list (list N) * list N)
    (line : list N) : list (list N) * list N :=
  let '(parts, current) := acc in
  if (maxLen <? Z.of_nat (length current) + Z.of_nat (length line) + 1)%Z
  then ((match current with
         | [] => parts
         | _ :: _ => parts ++ [current]
         end), line)
  else (parts,
        current ++ (match current with
                    | [] => []
                    | _ :: _ => [10%N]
                    end) ++ line).

Definition MESSAGES_MAX_LENGTH : Z := 4000.

(** The parameter [maxLen = CONFIG.messages.maxLength] takes its default
    when the caller passes nothing. *)
Definition splitMessage (text : list N) (maxLenArg : option Z)
  : list (list N) :=
  let maxLen := default MESSAGES_MAX_LENGTH maxLenArg in
  if (Z.of_nat (length text) <=? maxLen)%Z then [text]
  else
    let '(parts, current) :=
      fold_left (splitStep maxLen) (split 10 text) ([], []) in
    match current with
    | [] => parts
    | _ :: _ => parts ++ [current]
    end.

Definition nonEmpty (s : list N) : bool :=
  match s with
  | [] => false
  | _ :: _ => true
  end.

(** A string of at most [maxLen] units. *)
Definition fits (maxLen : Z) (s : list N) : Prop :=
  (Z.of_nat (length s) <= maxLen)%Z.

(** The lines that are not empty, of the parts pushed and of [current]. *)
Definition linesOf (parts : list (list N)) (current : list N)
  : list (list N) :=
  List.filter nonEmpty (flat_map (split 10) parts ++ split 10 current).

End Formatters.

(** ** src/tools/ask.ts *)

Module Ask.
Import JS Files.

(** The callback set from the bot: it resolves with the user's answer
    ([inr]) or rejects with an error message ([inl]). *)
Definition Callback : Type :=
  list N -> list N -> list (list N) -> list N + list N.

(** One invocation of the callback: session, question, options. *)
Definition Asked : Type := list N * list N * list (list N).

(** [args.options] may be missing; the result comes with the invocations
    of the callback that were made. *)
Definition execute (askCallback : option Callback) (question : list N)
    (options : option (list (list N))) (sessionId : list N)
  : ToolResult * list Asked :=
  match askCallback with
  | None => (failure (lit "Ask callback not configured"), [])
  | Some callback =>
      match options with
      | None => (failure (lit "Need at least 2 options"), [])
      | Some opts =>
          if (length opts <? 2)%nat
          then (failure (lit "Need at least 2 options"), [])
          else
            let opts' := if (4 <? length opts)%nat then firstn 4 opts
                         else opts in
            match callback sessionId question opts' with
            | inr answer =>
                (ok (lit "User selected: " ++ answer),
                 [(sessionId, question, opts')])
            | inl message =>
                (failure (lit "Failed to get user response: " ++ message),
                 [(sessionId, question, opts')])
            end
      end
  end.

End Ask.

(** ** src/tools/bash.ts *)

Module Bash.
Import JS RegExp Approvals.

(** What [execSync] throws: the child's streams when it has them, the
    message, and the exit status. *)
Record ExecError : Type := {
  stderr : option (list N);
  stdout : option (list N);
  message : list N;
  status : option Z
}.

(** The shell: [execSync] returns the output ([inr]) or throws ([inl]);
    [spawn] returns the child's pid, which may be undefined, or throws with
    a message. *)
Record Shell : Type := {
  execSync : list N -> list N -> ExecError + list N;
  spawn : list N -> list N -> list N + option Z
}.

(** What was handed to the shell. *)
Inductive Invocation : Type :=
| Ran (command cwd : list N)
| Spawned (command cwd : list N).

(** The result type of [run_command]. *)
Record Result : Type := {
  success : bool;
  output : option (list N);
  error : option (list N);
  approval_required : option bool
}.

(** [ExecuteContext]; a call with a plain string for [cwd] is the context
    with that [cwd] and nothing else. *)
Record ExecuteContext : Type := {
  cwd : list N;
  sessionId : option (list N);
  chatId : option Z
}.

(** [String.prototype.trim] *)
Definition trimStart (s : list N) : list N := Path.dropWhile isSpace s.
Definition trimEnd (s : list N) : list N := rev (trimStart (rev s)).
Definition trim (s : list N) : list N := trimEnd (trimStart s).

(** [/&\s*$/] *)
Definition trailingAmpersand : RegExp.t :=
  RegExp (seqs [str "&"; Star Space; EndOfInput]) false.

(** [s.replace(re, '')] for an expression that ends in [$]: the first match
    runs to the end of the string, so what is left is what stands before
    it. *)
Fixpoint cutAtFirstMatch (re : RegExp.t) (p : option N) (s : list N)
  : list N :=
  if matchesAt re (Cursor p s) then []
  else match s with
       | [] => []
       | x :: s' => x :: cutAtFirstMatch re (Some x) s'
       end.

(** [a || b] on strings: the empty string is falsy. *)
Definition orElse (a b : list N) : list N :=
  match a with
  | [] => b
  | _ :: _ => a
  end.

(** [s.slice(-n)] *)
Definition lastN (n : Z) (s : list N) : list N :=
  skipn (length s - Z.to_nat n) s.

(** [s.length > limit ? s.slice(0, head) + marker + s.slice(-tail) : s] *)
Definition truncateMiddle (limit head tail : Z) (s : list N) : list N :=
  if (limit <? Z.of_nat (length s))%Z
  then firstn (Z.to_nat head) s ++ [10%N] ++ lit "...(truncated)..."
         ++ [10%N] ++ lastN tail s
  else s.

Definition pidText (pid : option Z) : list N :=
  match pid with
  | Some n => numToString n
  | None => lit "undefined"
  end.

Definition plain (ok : bool) (out err : option (list N)) : Result :=
  {| success := ok; output := out; error := err; approval_required := None |}.

Definition executeCommand (sh : Shell) (command cwd : list N)
  : Result * list Invocation :=
  let isBackground :=
    test trailingAmpersand (trim command) || includes command (lit "nohup") in
  if isBackground then
    let cleanCmd := trim (cutAtFirstMatch trailingAmpersand None (trim command)) in
    match spawn sh cleanCmd cwd with
    | inr pid =>
        (plain true
           (Some (lit "Started in background (PID: " ++ pidText pid ++ lit ")"))
           None,
         [Spawned cleanCmd cwd])
    | inl msg =>
        (plain false None
           (Some (lit "Failed to start background process: " ++ msg)),
         [Spawned cleanCmd cwd])
    end
  else
    match execSync sh command cwd with
    | inr out =>
        (plain true
           (Some (orElse (truncateMiddle 10000 5000 3000 out)
                    (lit "(empty output)")))
           None,
         [Ran command cwd])
    | inl e =>
        let full :=
          orElse (default [] (stderr e))
            (orElse (default [] (stdout e)) (message e)) in
        (plain false None
           (Some (lit "Exit " ++ numToString (orDefault (status e) 1)
                    ++ lit ": " ++ truncateMiddle 5000 2500 2000 full)),
         [Ran command cwd])
    end.

(** One call of the approval callback: chat, command id, command, reason. *)
Definition Shown : Type := Z * list N * list N * list N.

(** The warning sign U+26A0 U+FE0F and the text after it. *)
Definition approvalRequired (reason : list N) : list N :=
  [9888%N; 65039%N] ++ lit " APPROVAL REQUIRED: " ++ quoted reason
    ++ [10%N; 10%N]
    ++ lit "Waiting for user to click Approve/Deny button.".

(** What a call of [execute] leaves behind: the result, the pending store,
    the approval prompts shown and the shell invocations made.
    [callbackSet] tells whether [setApprovalCallback] has been called;
    [suffix] is the random part of the id [storePendingCommand] makes. *)
Record Outcome : Type := {
  result : Result;
  store : Approvals.State;
  shown : list Shown;
  invoked : list Invocation
}.

Definition execute (sh : Shell) (callbackSet : bool) (suffix : list N)
    (command : list N) (context : ExecuteContext) (st : Approvals.State)
  : Outcome :=
  let workDir := cwd context in
  let session := orElse (default [] (sessionId context)) (lit "default") in
  let chat := orDefault (chatId context) 0 in
  let check := checkCommand command in
  if dangerous check then
    let why := default [] (reason check) in
    let '(commandId, st') :=
      storePendingCommand session chat command workDir why suffix st in
    {| result :=
         {| success := false; output := None;
            error := Some (approvalRequired why);
            approval_required := Some true |};
       store := st';
       shown := if callbackSet && negb (chat =? 0)%Z
                then [(chat, commandId, command, why)] else [];
       invoked := [] |}
  else
    let '(r, inv) := executeCommand sh command workDir in
    {| result := r; store := st; shown := []; invoked := inv |}.

End Bash.

(** ** src/tools/files.ts, continued: edit_file, delete_file,
    list_directory *)

Module FilesRest.
Import JS RegExp Files.

(** What these tools need of Node beyond [FileSystem]: [unlinkSync], and
    [execSync] with the message of what it throws ([inl]). *)
Class FileSystemRest (FS : Type) : Type := {
  unlinkSync : FS -> list N -> FS * option (list N);
  execSyncOrThrow : FS -> list N -> list N -> list N + list N
}.

(** The first occurrence of [pat] in [s]: what stands before it and what
    follows it. *)
Fixpoint splitAtFirst (s pat : list N) : option (list N * list N) :=
  if startsWith s pat then Some ([], skipn (length pat) s)
  else match s with
       | [] => None
       | x :: s' =>
           match splitAtFirst s' pat with
           | Some (before, after) => Some (x :: before, after)
           | None => None
           end
       end.

(** GetSubstitution of ECMA-262 for a match without captures: [$$] is a
    dollar sign, [$&] the match, [$`] what precedes it, [$'] what follows
    it; every other dollar sign stands for itself. *)
Fixpoint getSubstitution (matched before after template : list N) : list N :=
  match template with
  | [] => []
  | c :: rest =>
      if (c =? 36)%N then
        match rest with
        | [] => [36%N]
        | d :: rest' =>
            if (d =? 36)%N then
              36%N :: getSubstitution matched before after rest'
            else if (d =? 38)%N then
              matched ++ getSubstitution matched before after rest'
            else if (d =? 96)%N then
              before ++ getSubstitution matched before after rest'
            else if (d =? 39)%N then
              after ++ getSubstitution matched before after rest'
            else 36%N :: getSubstitution matched before after rest
        end
      else c :: getSubstitution matched before after rest
  end.

(** [content.replace(old_text, new_text)] with strings for both. *)
Definition replaceFirst (content old_text new_text : list N) : list N :=
  match splitAtFirst content old_text with
  | None => content
  | Some (before, after) =>
      before ++ getSubstitution old_text before after new_text ++ after
  end.

(** Directories that should not be listed *)
Definition BLOCKED_DIRECTORIES : list (list N) :=
  [ lit "/etc"; lit "/root"; lit "/.ssh"; lit "/proc"; lit "/sys";
    lit "/dev"; lit "/boot"; lit "/var/log"; lit "/var/run" ].

Fixpoint firstBlocked (resolvedDir : list N) (bs : list (list N))
  : option (list N) :=
  match bs with
  | [] => None
  | blocked :: bs' =>
      if eqs resolvedDir blocked
         || startsWith resolvedDir (blocked ++ lit "/")
      then Some blocked
      else firstBlocked resolvedDir bs'
  end.

(** [before] and [after] surround the first occurrence of [pat]. *)
Definition firstOccurrence (content pat before after : list N) : Prop :=
  content = before ++ pat ++ after
  /\ forall b a, content = b ++ pat ++ a -> (length before <= length b)%nat.

(** What a dollar sign and the unit after it stand for in a replacement
    text. *)
Definition dollarPattern (d : N) (matched before after : list N)
  : option (list N) :=
  if (d =? 36)%N then Some [36%N]
  else if (d =? 38)%N then Some matched
  else if (d =? 96)%N then Some before
  else if (d =? 39)%N then Some after
  else None.

Section WithNode.
Context `{Runtime} {FS : Type} `{FileSystem FS} `{FileSystemRest FS}.

(** The checks of [executeEdit] let the path through and the file reads
    as [content]. *)
Definition editable (fs : FS) (path cwd content : list N) : Prop :=
  isSensitiveFile (fullPathOf path cwd) = false
  /\ (isSymlinkEscape fs (fullPathOf path cwd) cwd).1 = false
  /\ existsSync fs (fullPathOf path cwd) = true
  /\ readFileSync fs (fullPathOf path cwd) = inr content.

(** What [executeEdit] answers after writing. *)
Definition edited (path : list N) (written : FS * option (list N))
  : ToolResult * FS :=
  match snd written with
  | Some message => (failure message, fst written)
  | None => (ok (lit "Edited " ++ path), fst written)
  end.

Definition executeEdit (fs : FS) (path old_text new_text : list N)
    (cwd : list N) : ToolResult * FS :=
  let fullPath := fullPathOf path cwd in
  if isSensitiveFile fullPath then
    (failure (BLOCKED ++ lit "Cannot edit sensitive file ("
                ++ Path.basename fullPath ++ lit ")"), fs)
  else
    let symlinkCheck := isSymlinkEscape fs fullPath cwd in
    if fst symlinkCheck then
      (failure (BLOCKED ++ default [] (snd symlinkCheck)), fs)
    else if negb (existsSync fs fullPath) then
      (failure (lit "File not found: " ++ fullPath), fs)
    else
      match readFileSync fs fullPath with
      | inl message => (failure message, fs)
      | inr content =>
          if negb (includes content old_text) then
            (failure (lit "old_text not found." ++ [10%N; 10%N]
                        ++ lit "File preview:" ++ [10%N]
                        ++ firstn (Z.to_nat 2000) content), fs)
          else
            let newContent := replaceFirst content old_text new_text in
            let written := writeFileSync fs fullPath newContent in
            match snd written with
            | Some message => (failure message, fst written)
            | None => (ok (lit "Edited " ++ path), fst written)
            end
      end.

Definition executeDelete (fs : FS) (path : list N) (cwd : list N)
  : ToolResult * FS :=
  let fullPath := fullPathOf path cwd in
  let resolved := Path.resolve (processCwd fs) fullPath in
  let cwdResolved := Path.resolve (processCwd fs) cwd in
  if negb (startsWith resolved cwdResolved) then
    (failure (lit "Security: cannot delete files outside workspace"), fs)
  else if negb (existsSync fs fullPath) then
    (failure (lit "File not found: " ++ fullPath), fs)
  else
    let removed := unlinkSync fs fullPath in
    match snd removed with
    | Some message => (failure message, fst removed)
    | None => (ok (lit "Deleted: " ++ path), fst removed)
    end.

(** The tool's result together with the shell commands it ran. *)
Definition executeListDirectory (fs : FS) (path : option (list N))
    (cwd : list N) : ToolResult * list (list N) :=
  let dir :=
    match path with
    | Some p => match p with
                | [] => cwd
                | _ :: _ => fullPathOf p cwd
                end
    | None => cwd
    end in
  let resolvedDir := toLowerCase (Path.resolve (processCwd fs) dir) in
  match firstBlocked resolvedDir BLOCKED_DIRECTORIES with
  | Some blocked =>
      (failure (BLOCKED ++ lit "Cannot list directory " ++ blocked
                  ++ lit " for security reasons"), [])
  | None =>
      if includes resolvedDir (lit "/.ssh") then
        (failure (BLOCKED ++ lit "Cannot list .ssh directory"), [])
      else
        let cmd := lit "ls -la " ++ quoted dir in
        match execSyncOrThrow fs cmd cwd with
        | inr out =>
            ({| success := true; output := Some out; error := None |}, [cmd])
        | inl message => (failure message, [cmd])
        end
  end.

End WithNode.

End FilesRest.

(** ** More instances: a disk that can unlink and list, a shell, a user *)

Module Samples.
Import JS Files Instances.

Definition diskUnlink (d : Disk) (p : list N) : Disk * option (list N) :=
  match lookupEntry (entries d) p with
  | Some (File _) | Some (Link _) =>
      ({| entries := List.filter (fun e => negb (eqs e.1 p)) (entries d);
          workdir := workdir d |}, None)
  | Some Dir => (d, Some (lit "EISDIR: illegal operation on a directory, unlink"))
  | None => (d, Some (lit "ENOENT: no such file or directory, unlink"))
  end.

#[export] Instance diskRest : FilesRest.FileSystemRest Disk := {|
  FilesRest.unlinkSync := diskUnlink;
  FilesRest.execSyncOrThrow _ cmd _ := inr (lit "total 0")
|}.

(** A shell that prints the command it is given, and a spawn that starts
    process 4242. *)
Definition echoShell : Bash.Shell :=
  {| Bash.execSync command _ := inr command;
     Bash.spawn _ _ := inr (Some 4242%Z) |}.

(** A user who always picks the first option offered. *)
Definition firstOption : Ask.Callback :=
  fun _ _ options =>
    match options with
    | o :: _ => inr o
    | [] => inl (lit "Timeout")
    end.

(** The context of a command sent from chat 7. *)
Definition sampleContext : Bash.ExecuteContext :=
  {| Bash.cwd := lit "/workspace/7";
     Bash.sessionId := Some (lit "session-7");
     Bash.chatId := Some 7%Z |}.

End Samples.

(** ** A disk with links on the way

    A path is looked up one segment after the other, from the root; a
    link met on the way leads on to its target.  The keys of [nodes] and
    the targets of links are canonical paths. *)

Module Linked.
Import JS Files Instances.

Record Tree : Type := {
  nodes : list (list N * Entry);
  cwdOf : list N
}.

Definition segments (p : list N) : list (list N) :=
  List.filter (fun seg => negb (eqs seg [])) (split 47 p).

(** The canonical place of [segs] below [cur]; the root is the empty
    path. *)
Fixpoint walk (es : list (list N * Entry)) (cur : list N)
    (segs : list (list N)) : option (list N) :=
  match segs with
  | [] => Some cur
  | seg :: segs' =>
      let next := cur ++ [47%N] ++ seg in
      match lookupEntry es next with
      | Some (Link target) => walk es target segs'
      | Some Dir => walk es next segs'
      | Some (File _) =>
          match segs' with
          | [] => Some next
          | _ :: _ => None
          end
      | None => None
      end
  end.

(** [realpathSync]: every segment must exist, and so must what the last
    link leads to. *)
Definition treeRealpath (t : Tree) (p : list N) : option (list N) :=
  match walk (nodes t) [] (segments p) with
  | Some [] => Some [47%N]
  | Some (c :: cs) =>
      match lookupEntry (nodes t) (c :: cs) with
      | Some _ => Some (c :: cs)
      | None => None
      end
  | None => None
  end.

(** Where the last segment of [p] sits, links in the directory part
    followed and the last segment taken as it is. *)
Definition treePlace (t : Tree) (p : list N) : option (list N) :=
  match walk (nodes t) [] (segments (Path.dirname p)) with
  | Some dir => Some (dir ++ [47%N] ++ Path.basename p)
  | None => None
  end.

Definition treePut (t : Tree) (p : list N) (e : Entry) : Tree :=
  {| nodes := (p, e) :: nodes t; cwdOf := cwdOf t |}.

Definition treeRead (t : Tree) (p : list N) : list N + list N :=
  match treeRealpath t p with
  | Some q =>
      match lookupEntry (nodes t) q with
      | Some (File content) => inr content
      | _ => inl (lit "EISDIR: illegal operation on a directory, read")
      end
  | None => inl (lit "ENOENT: no such file or directory")
  end.

Definition treeWrite (t : Tree) (p content : list N)
  : Tree * option (list N) :=
  match treePlace t p with
  | Some place =>
      match lookupEntry (nodes t) place with
      | Some Dir =>
          (t, Some (lit "EISDIR: illegal operation on a directory, open"))
      | Some (Link target) => (treePut t target (File content), None)
      | _ => (treePut t place (File content), None)
      end
  | None => (t, Some (lit "ENOENT: no such file or directory, open"))
  end.

(** [mkdirSync] with [recursive: true] *)
Fixpoint mkdirs (es : list (list N * Entry)) (cur : list N)
    (segs : list (list N)) : list (list N * Entry) * option (list N) :=
  match segs with
  | [] => (es, None)
  | seg :: segs' =>
      let next := cur ++ [47%N] ++ seg in
      match lookupEntry es next with
      | Some (Link target) => mkdirs es target segs'
      | Some Dir => mkdirs es next segs'
      | Some (File _) => (es, Some (lit "EEXIST: file already exists, mkdir"))
      | None => mkdirs ((next, Dir) :: es) next segs'
      end
  end.

#[export] Instance treeFileSystem : FileSystem Tree := {|
  processCwd := cwdOf;
  existsSync t p := bool_decide (is_Some (treeRealpath t p));
  realpathSync := treeRealpath;
  lstatIsSymbolicLink t p :=
    match treePlace t p with
    | Some place =>
        match lookupEntry (nodes t) place with
        | Some (Link _) => Some true
        | Some _ => Some false
        | None => None
        end
    | None => None
    end;
  readFileSync := treeRead;
  mkdirSync t p :=
    ({| nodes := (mkdirs (nodes t) [] (segments p)).1; cwdOf := cwdOf t |},
     (mkdirs (nodes t) [] (segments p)).2);
  writeFileSync := treeWrite;
  execSync _ _ _ := None
|}.

(** The workspace of user 42 holds a link [lnk] to the workspace of user
    43. *)
Definition linkedTree : Tree :=
  {| nodes :=
       [ (lit "/workspace", Dir);
         (lit "/workspace/42", Dir);
         (lit "/workspace/42/lnk", Link (lit "/workspace/43"));
         (lit "/workspace/43", Dir) ];
     cwdOf := lit "/app" |}.

End Linked.

(** ** The timers of the pending store, and words in a command *)

Module Notions.
Import JS RegExp Approvals.

(** Every timer deletes the id that was made when it was started. *)
Definition timersInv (st : State) : Prop :=
  forall d i, (d, i) ∈ timers st ->
              exists suffix, i = makeId (d - COMMAND_TIMEOUT) suffix.

(** The time that passes during some calls. *)
Fixpoint elapsedIn (cs : list Call) : Z :=
  match cs with
  | [] => 0
  | Elapse dt :: cs' => Z.of_N dt + elapsedIn cs'
  | _ :: cs' => elapsedIn cs'
  end.

(** [word] stands in [command] as a word of its own: no word character
    right before it and none right after it. *)
Definition wholeWord (word command : list N) : Prop :=
  exists pre post,
    command = pre ++ word ++ post
    /\ isWord (last pre) = false
    /\ isWord (head post) = false.

(** The words that have a pattern of their own in [DANGEROUS_PATTERNS],
    between two word boundaries. *)
Definition guardedWords : list (list N) :=
  [ lit "sudo"; lit "mkfs"; lit "fdisk"; lit "parted"; lit "shred";
    lit "shutdown"; lit "reboot" ].

End Notions.

(* ===================================================================== *)
(** * Part II: properties                                                *)
(* ===================================================================== *)

(** ** The command classifier *)

Section Classifier.
Import JS RegExp Approvals.

(** The loop reports the entry at which it stops, and it stops at the
    first entry whose pattern matches. *)
Lemma checkCommand_loop_first (patterns : list (RegExp.t * list N))
    (command why : list N) :
  checkCommand_loop patterns command
    = {| dangerous := true; reason := Some why |}
  <-> exists pre pattern post,
        patterns = pre ++ (pattern, why) :: post
        /\ test pattern command = true
        /\ Forall (fun e => test (fst e) command = false) pre.
Proof.
  induction patterns as [|[p w] ps IH]; simpl.
  - split; [discriminate|].
    intros (pre & p & post & E & _). by destruct pre.
  - destruct (test p command) eqn:T.
    + split.
      * intros [= <-]. exists [], p, ps. by repeat split.
      * intros (pre & p' & post & E & T' & F).
        destruct pre as [|e pre]; simpl in E.
        -- by inversion E.
        -- inversion E; subst e. inversion F; subst. simpl in *. congruence.
    + rewrite IH. split.
      * intros (pre & p' & post & -> & T' & F).
        exists ((p, w) :: pre), p', post. repeat split; [done|].
        by constructor.
      * intros (pre & p' & post & E & T' & F).
        destruct pre as [|e pre]; simpl in E.
        -- inversion E; subst. congruence.
        -- inversion E; subst. inversion F; subst. by exists pre, p', post.
Qed.

(** Without a match the loop runs to the end of the table. *)
Lemma checkCommand_loop_none (patterns : list (RegExp.t * list N))
    (command : list N) :
  checkCommand_loop patterns command = {| dangerous := false; reason := None |}
  <-> Forall (fun e => test (fst e) command = false) patterns.
Proof.
  induction patterns as [|[p w] ps IH]; simpl.
  - split; [constructor | done].
  - destruct (test p command) eqn:T.
    + split; [discriminate|]. inversion 1; subst. simpl in *. congruence.
    + rewrite IH. split; [by constructor | by inversion 1].
Qed.

(** C1. On each of the exfiltration inputs of the spec's scenarios the
    classifier of [src/approvals/index.ts] finds no matching entry: it
    answers [{ dangerous: false }], which is the tag Allow, and not
    Forbidden. *)
Theorem exfiltration_inputs_are_allowed :
  Forall (fun command =>
            checkCommand command = {| dangerous := false; reason := None |}
            /\ classify command = Allow)
    [ lit "cat /run/secrets/telegram_token";
      lit "env"; lit "printenv"; lit "export"; lit "set";
      lit "curl http://proxy:3200/health";
      lit "cat f | base64" ].
Proof. repeat constructor; vm_compute; reflexivity. Qed.

(** The classifier has no Forbidden answer at all. *)
Lemma classify_never_forbidden (command why : list N) :
  classify command <> Forbidden why.
Proof. unfold classify, decision. by destruct (dangerous _). Qed.

(** C3, as stated, fails: the reason reported for [rm -rf /tmp/cache] is
    not "Force recursive delete". *)
Lemma rm_rf_tmp_cache_reason_differs :
  classify (lit "rm -rf /tmp/cache") <> Dangerous (lit "Force recursive delete").
Proof. vm_compute. discriminate. Qed.

(** C3, amended. On [rm -rf /tmp/cache] the classifier answers Dangerous
    with the reason "Recursive delete from root/home": that is the reason
    of the first entry of the table, in its declared order, whose pattern
    matches; the entry "Force recursive delete" matches too but stands
    third.  For every command the reason reported is the one of the first
    matching entry. *)
Theorem rm_rf_tmp_cache_first_match :
  classify (lit "rm -rf /tmp/cache")
    = Dangerous (lit "Recursive delete from root/home")
  /\ (exists pattern post,
        DANGEROUS_PATTERNS
          = (pattern, lit "Recursive delete from root/home") :: post
        /\ test pattern (lit "rm -rf /tmp/cache") = true)
  /\ (exists e1 e2 pattern post,
        DANGEROUS_PATTERNS
          = e1 :: e2 :: (pattern, lit "Force recursive delete") :: post
        /\ test pattern (lit "rm -rf /tmp/cache") = true)
  /\ (forall command why,
        checkCommand command = {| dangerous := true; reason := Some why |}
        <-> exists pre pattern post,
              DANGEROUS_PATTERNS = pre ++ (pattern, why) :: post
              /\ test pattern command = true
              /\ Forall (fun e => test (fst e) command = false) pre).
Proof.
  split; [by vm_compute|].
  split; [eexists _, _; split; [reflexivity | by vm_compute]|].
  split; [eexists _, _, _, _; split; [reflexivity | by vm_compute]|].
  intros command why. apply checkCommand_loop_first.
Qed.

(** C9. Each permitted command of the spec's scenarios is classified
    Allow, and no entry of the table matches it. *)
Theorem permitted_commands_are_allowed :
  Forall (fun command =>
            classify command = Allow
            /\ Forall (fun e => test (fst e) command = false)
                 DANGEROUS_PATTERNS)
    [ lit "ls -la"; lit "pwd"; lit "echo hello";
      lit "python3 -c " ++ quoted (lit "print(1+1)");
      lit "curl https://google.com" ].
Proof.
  repeat (apply Forall_cons; split;
          [split; [by vm_compute | apply checkCommand_loop_none; by vm_compute]|]).
  constructor.
Qed.

End Classifier.

(** ** The pending store *)

Section PendingStore.
Import JS Approvals Instances.

Lemma digits_no_underscore (d : uint) : 95%N ∉ digits d.
Proof.
  induction d; simpl; rewrite ?elem_of_cons; try apply not_elem_of_nil;
    intros [?|?]; done.
Qed.

Lemma digits_no_minus (d : uint) : 45%N ∉ digits d.
Proof.
  induction d; simpl; rewrite ?elem_of_cons; try apply not_elem_of_nil;
    intros [?|?]; done.
Qed.

Lemma digits_inj (d1 d2 : uint) : digits d1 = digits d2 -> d1 = d2.
Proof.
  revert d2. induction d1; intros [] E; simpl in E; try discriminate;
    try reflexivity; f_equal; apply IHd1; congruence.
Qed.

Lemma numToString_inj (z1 z2 : Z) :
  numToString z1 = numToString z2 -> z1 = z2.
Proof.
  unfold numToString. intros E. apply DecimalZ.to_int_inj.
  destruct (Z.to_int z1) as [d1|d1], (Z.to_int z2) as [d2|d2].
  - f_equal. by apply digits_inj.
  - exfalso. apply (digits_no_minus d1). rewrite E. by left.
  - exfalso. apply (digits_no_minus d2). rewrite <- E. by left.
  - f_equal. apply digits_inj. congruence.
Qed.

Lemma numToString_no_underscore (z : Z) : 95%N ∉ numToString z.
Proof.
  unfold numToString. destruct (Z.to_int z).
  - apply digits_no_underscore.
  - rewrite elem_of_cons. intros [?|?]; [done|].
    by apply (digits_no_underscore d).
Qed.

(** Two words cut at the first occurrence of a separator agree before it. *)
Lemma cut_at_first (x : N) (l1 l2 r1 r2 : list N) :
  x ∉ l1 -> x ∉ l2 -> l1 ++ x :: r1 = l2 ++ x :: r2 -> l1 = l2.
Proof.
  revert l2. induction l1 as [|a l1 IH]; intros [|b l2] H1 H2 E;
    simpl in E; try reflexivity.
  - inversion E; subst. exfalso. apply H2. by left.
  - inversion E; subst. exfalso. apply H1. by left.
  - inversion E; subst. f_equal. apply IH; [| |done].
    + intros ?. apply H1. by right.
    + intros ?. apply H2. by right.
Qed.

(** The id tells the time at which it was made. *)
Lemma makeId_inj (t1 t2 : Z) (s1 s2 : list N) :
  makeId t1 s1 = makeId t2 s2 -> t1 = t2.
Proof.
  unfold makeId. intros E. apply app_inv_head in E.
  apply numToString_inj.
  apply (cut_at_first 95%N _ _ s1 s2); auto using numToString_no_underscore.
Qed.

(** Timers only delete. *)
Lemma fire_lookup (due : list (Z * list N))
    (m : gmap (list N) PendingCommand.t) (id : list N) :
  fire m due !! id = if bool_decide (id ∈ map snd due) then None else m !! id.
Proof.
  unfold fire. revert m. induction due as [|[d i] due IH]; intros m; simpl.
  - done.
  - rewrite IH. destruct (decide (i = id)) as [->|Hne].
    + rewrite lookup_delete_eq. rewrite (bool_decide_eq_true_2 (id ∈ id :: _)).
      * by case_bool_decide.
      * by left.
    + rewrite lookup_delete_ne by done.
      repeat case_bool_decide; try done.
      * exfalso. apply H0. by right.
      * exfalso. apply H. apply elem_of_cons in H0 as [?|?]; [congruence|done].
Qed.

(** Time passing alone takes nothing out of the store. *)
Lemma consume_after_elapse (id : list N) (dt : N) (st : State) :
  (consumePendingCommand id (elapse dt st)).1
  = (consumePendingCommand id st).1.
Proof.
  unfold consumePendingCommand, elapse. simpl.
  by destruct (pendingCommands st !! id).
Qed.

(** C4. [consumePendingCommand] has no check of the time: a record leaves
    the store through a call or when the event loop comes to its timer.
    A command stored at 1000 ms and consumed 301045 ms later, the event
    loop not having come to its timers in between, is returned as it was
    stored, 1045 ms after its creation time plus [COMMAND_TIMEOUT]; after
    the timers have run it is gone. *)
Theorem consume_after_ttl_returns_record :
  PendingCommand.createdAt <$> pendingCommands sampleStore !! sampleId
  = Some 1000%Z
  /\ now (calls [Elapse 301045] sampleStore).2 = 302045%Z
  /\ (1000 + COMMAND_TIMEOUT <= now (calls [Elapse 301045] sampleStore).2)%Z
  /\ (consumePendingCommand sampleId
        (calls [Elapse 301045] sampleStore).2).1
     = Some (PendingCommand.Build sampleId (lit "session-7") 7
               (lit "rm -rf build") (lit "/workspace/7")
               (lit "Force recursive delete") 1000)
  /\ (consumePendingCommand sampleId
        (calls [Elapse 301045; Timers] sampleStore).2).1 = None.
Proof.
  split; [reflexivity|]. split; [reflexivity|].
  split; [by vm_compute|]. split.
  - change (calls [Elapse 301045] sampleStore).2
      with (elapse 301045 sampleStore).
    rewrite consume_after_elapse. reflexivity.
  - reflexivity.
Qed.

End PendingStore.

Section ConsumeOnce.
Import JS Approvals.

Lemma consume_absent (id : list N) (st : State) :
  pendingCommands st !! id = None ->
  consumePendingCommand id st = (None, st).
Proof. intros L. unfold consumePendingCommand. by rewrite L. Qed.

(** [consumePendingCommand] does not look at the clock: a record leaves
    the store by a call or by its timer. *)
Lemma consume_reads_no_clock (id : list N) (st : State) (t : Z) :
  (consumePendingCommand id (atTime t st)).1 = (consumePendingCommand id st).1.
Proof.
  unfold consumePendingCommand, atTime. simpl.
  by destruct (pendingCommands st !! id).
Qed.

Lemma consume_present (id : list N) (st : State) (cmd : PendingCommand.t) :
  pendingCommands st !! id = Some cmd ->
  exists st', consumePendingCommand id st = (Some cmd, st')
              /\ pendingCommands st' !! id = None.
Proof.
  intros L. unfold consumePendingCommand. rewrite L.
  eexists. split; [done|]. simpl. apply lookup_delete_eq.
Qed.

(** A call that does not store under [id] leaves [id] absent. *)
Lemma call_keeps_absent (id : list N) (c : Call) (st : State) :
  pendingCommands st !! id = None ->
  (call c st).1 <> Stored id ->
  pendingCommands (call c st).2 !! id = None
  /\ consumedBy id (c, (call c st).1) = [].
Proof.
  intros L Hne. destruct c as [s ch cmd d r suffix|i|i|dt|]; simpl in *.
  - split; [|done]. rewrite lookup_insert_ne; [done|]. congruence.
  - unfold consumePendingCommand.
    destruct (pendingCommands st !! i) as [rec|] eqn:Li; simpl.
    + split.
      * rewrite lookup_delete_ne; [done|]. congruence.
      * unfold eqs. case_bool_decide; [congruence|done].
    + done.
  - split; [|done]. rewrite lookup_delete. by case_decide.
  - done.
  - split; [|done]. rewrite fire_lookup. by case_bool_decide.
Qed.

Lemma calls_keep_absent (id : list N) (cs : list Call) (st : State) :
  pendingCommands st !! id = None ->
  Stored id ∉ (calls cs st).1 ->
  consumed id cs (calls cs st).1 = []
  /\ pendingCommands (calls cs st).2 !! id = None.
Proof.
  revert st. induction cs as [|c cs IH]; intros st L Hno; simpl in *; [done|].
  pose proof (call_keeps_absent id c st L) as Hc.
  destruct (call c st) as [r st1] eqn:Ec. simpl in Hc.
  specialize (IH st1).
  destruct (calls cs st1) as [rs st2] eqn:Ecs. simpl in *.
  rewrite not_elem_of_cons in Hno. destruct Hno as [Hr Hrs].
  destruct Hc as [L1 Hby]; [congruence|].
  destruct (IH L1 Hrs) as [IH1 IH2].
  unfold consumed in *. simpl. by rewrite Hby, IH1.
Qed.

(** C5. In any sequence of calls on the store in which no later
    [storePendingCommand] returns the same id again, at most one
    [consumePendingCommand(id)] returns a record; when the id is not in the
    store none does; and a call that returns the record leaves a store
    without the id, on which the next [consumePendingCommand(id)] returns
    nothing. *)
Theorem consume_at_most_once (id : list N) (cs : list Call) (st : State) :
  Stored id ∉ (calls cs st).1 ->
  (length (consumed id cs (calls cs st).1) <= 1)%nat
  /\ (pendingCommands st !! id = None ->
      consumePendingCommand id st = (None, st)
      /\ consumed id cs (calls cs st).1 = [])
  /\ (forall cmd st1,
        consumePendingCommand id st = (Some cmd, st1) ->
        pendingCommands st1 !! id = None
        /\ consumePendingCommand id st1 = (None, st1)).
Proof.
  intros Hno. split; [|split].
  - revert st Hno. induction cs as [|c cs IH]; intros st Hno; simpl in *.
    + unfold consumed. simpl. lia.
    + destruct (call c st) as [r st1] eqn:Ec.
      pose proof (calls_keep_absent id cs st1) as Habs.
      specialize (IH st1).
      destruct (calls cs st1) as [rs st2] eqn:Ecs. simpl in *.
      rewrite not_elem_of_cons in Hno. destruct Hno as [Hr Hrs].
      specialize (IH Hrs). unfold consumed in *. simpl.
      rewrite length_app.
      destruct c as [s ch cmd d rr suffix|i|i|dt|]; simpl in Ec.
      * injection Ec as <- <-. simpl. lia.
      * unfold consumePendingCommand in Ec.
        destruct (pendingCommands st !! i) as [rec|] eqn:Li;
          injection Ec as <- <-; simpl; [|lia].
        unfold eqs. case_bool_decide as Ei; simpl; [|lia]. subst i.
        destruct Habs as [-> _]; [simpl; apply lookup_delete_eq|done|].
        simpl. lia.
      * injection Ec as <- <-. simpl. lia.
      * injection Ec as <- <-. simpl. lia.
      * injection Ec as <- <-. simpl. lia.
  - intros L. split; [by apply consume_absent|].
    by apply calls_keep_absent.
  - intros cmd st1 Hc. unfold consumePendingCommand in Hc.
    destruct (pendingCommands st !! id) as [rec|] eqn:L; [|discriminate].
    injection Hc as <- <-. simpl.
    assert (delete id (pendingCommands st) !! id = None) as Hd
      by apply lookup_delete_eq.
    split; [done|]. apply consume_absent. done.
Qed.

End ConsumeOnce.

(** ** The active-user limiter *)

Section ActiveUsers.
Import RateLimiter Bot.

Lemma markUserInactive_bounded (u : Z) (us : Users) :
  bounded us -> bounded (markUserInactive u us).
Proof.
  unfold bounded. simpl. intros Hb.
  assert (size (activeUsers us ∖ {[u]}) <= size (activeUsers us))%nat.
  { apply subseteq_size, subseteq_difference_l. done. }
  lia.
Qed.

(** When the mark follows the check with nothing in between, the bound is
    kept. *)
Lemma checkThenMark_bounded (u : Z) (us : Users) :
  bounded us -> bounded (checkThenMark u us).
Proof.
  unfold bounded, checkThenMark, canAcceptUser. intros Hb.
  case_bool_decide as Hin; simpl.
  - rewrite (subseteq_union_1_L {[u]} (activeUsers us)); [done|].
    by apply singleton_subseteq_l.
  - destruct (Z.ltb_spec (Z.of_nat (size (activeUsers us)))
                (maxConcurrentUsers us)) as [Hlt|Hge]; simpl; [|done].
    rewrite size_union by (by apply disjoint_singleton_l).
    rewrite size_singleton. lia.
Qed.

Lemma atomic_admission_bounded (steps : list Atomic) (us : Users) :
  bounded us -> bounded (fold_left (fun s a => atomic a s) steps us).
Proof.
  revert us. induction steps as [|a steps IH]; intros us Hb; simpl; [done|].
  apply IH. destruct a; simpl; auto using checkThenMark_bounded, markUserInactive_bounded.
Qed.

(** C6. The handler of [bot/src/index.ts] calls [markUserActive] only after
    [canAcceptUser] returned true, yet with the default limit of 10 the
    active-user set reaches 11 members: eleven handlers pass the check
    while the set is still empty, wait for their reaction call, and then
    each marks its user. *)
Theorem handler_exceeds_limit :
  exists st,
    run crowd (boot CONFIG.users.maxConcurrent) = Some st
    /\ maxConcurrentUsers (users st) = 10%Z
    /\ size (activeUsers (users st)) = 11%nat.
Proof. eexists. split; [by vm_compute|]. split; by vm_compute. Qed.

End ActiveUsers.

(** ** safeSend *)

Section SafeSend.
Import JS RateLimiter.
Context {T : Type}.
Implicit Types (fn : Z -> N * Outcome T) (st : State).

Lemma attemptsIn_app (es1 es2 : list Event) :
  attemptsIn (es1 ++ es2) = attemptsIn es1 ++ attemptsIn es2.
Proof. unfold attemptsIn. apply flat_map_app. Qed.

(** The waits before the first attempt add sleeps only. *)
Lemma throttle_trace (chatId : Z) st :
  exists sleeps,
    trace (throttle chatId st).2 = trace st ++ sleeps
    /\ attemptsIn sleeps = [].
Proof.
  unfold throttle, mbind, M_bind, when, dateNow, getGlobalLastSend,
    getLastGroup, setLastGroup, setGlobalLastSend, sleep, mret, M_ret.
  simpl.
  destruct (0 <? _)%Z; destruct (chatId <? 0)%Z; simpl;
    try destruct (0 <? _)%Z; simpl;
    first [ exists []; split; [by rewrite app_nil_r | done]
          | eexists; split; [rewrite <- ?app_assoc; reflexivity | done] ].
Qed.

(** One round of the loop. *)
Lemma retryLoop_S (fuel : nat) (a maxRetries : Z) fn st :
  retryLoop (S fuel) a maxRetries fn st =
  let st1 := (invoke fn a st).2 in
  match (fn a).2 with
  | Resolved v => (Some v, st1)
  | RateLimited retry_after =>
      retryLoop fuel (a + 1) maxRetries fn
        (if (a <? maxRetries)%Z
         then
           (setGlobalLastSend
              (now (sleep ((orDefault retry_after 30
                            + CONFIG.rateLimit.retryBuffer) * 1000) st1).2)
              (sleep ((orDefault retry_after 30
                       + CONFIG.rateLimit.retryBuffer) * 1000) st1).2).2
         else st1)
  | Failed => (None, st1)
  end.
Proof.
  simpl. unfold mbind, M_bind, invoke, when, mret, M_ret. simpl.
  destruct (fn a).2; try reflexivity.
  by destruct (a <? maxRetries)%Z.
Qed.

(** The loop only adds events, starts with an attempt when it runs at all,
    and makes at most [fuel] attempts. *)
Lemma retryLoop_trace (fuel : nat) (a maxRetries : Z) fn st :
  exists es,
    trace (retryLoop fuel a maxRetries fn st).2 = trace st ++ es
    /\ (fuel <> O -> exists es', es = Attempt a :: es')
    /\ (length (attemptsIn es) <= fuel)%nat.
Proof.
  revert a st. induction fuel as [|fuel IH]; intros a st.
  - exists []. simpl. rewrite app_nil_r. by repeat split.
  - rewrite retryLoop_S. cbv zeta.
    destruct (fn a).2 as [v|ra|] eqn:E.
    + exists [Attempt a]. simpl. repeat split; eauto. lia.
    + match goal with |- context [retryLoop fuel _ _ _ ?s] =>
        destruct (IH (a + 1)%Z s) as (es & Htr & _ & Hlen) end.
      rewrite Htr.
      destruct (a <? maxRetries)%Z; simpl; rewrite <- ?app_assoc; simpl;
        eexists; (split; [reflexivity|]); (split; [eauto|]); simpl; lia.
    + exists [Attempt a]. simpl. repeat split; eauto. lia.
Qed.

(** The loop as far as attempt [k], when the attempts before it are all
    rate-limited. *)
Lemma retryLoop_reach (d : nat) (k maxRetries : Z) fn :
  forall (a : Z) (fuel : nat) st,
    d = Z.to_nat (k - a) ->
    fuel = Z.to_nat (maxRetries - a + 1) ->
    (a <= k <= maxRetries)%Z ->
    (forall n, (a <= n < k)%Z -> exists ra, (fn n).2 = RateLimited ra) ->
    exists st1,
      attemptsIn (trace st1) = attemptsIn (trace st) ++ countFrom a d
      /\ (exists es, trace st1 = trace st ++ es)
      /\ retryLoop fuel a maxRetries fn st
         = retryLoop (Z.to_nat (maxRetries - k + 1)) k maxRetries fn st1.
Proof.
  induction d as [|d IH]; intros a fuel st Hd Hfuel Hk Hrl.
  - assert (a = k) by lia. subst a fuel. exists st. simpl.
    rewrite app_nil_r. split; [done|]. split; [|done].
    exists []. by rewrite app_nil_r.
  - destruct (Hrl a) as [ra Era]; [lia|].
    assert (fuel = S (Z.to_nat (maxRetries - (a + 1) + 1))) as -> by lia.
    rewrite retryLoop_S. cbv zeta. rewrite Era.
    match goal with |- context [retryLoop _ (a + 1)%Z _ _ ?s] =>
      destruct (IH (a + 1)%Z (Z.to_nat (maxRetries - (a + 1) + 1)) s)
        as (st1 & Hatt & [es Hes] & Heq) end;
      [lia | done | lia | intros; apply Hrl; lia |].
    exists st1. rewrite Heq. split; [|split; [|done]].
    + rewrite Hatt. destruct (a <? maxRetries)%Z; simpl;
        rewrite !attemptsIn_app; simpl; rewrite <- !app_assoc; simpl;
        by rewrite ?app_nil_r.
    + rewrite Hes. destruct (a <? maxRetries)%Z; simpl;
        rewrite <- ?app_assoc; eauto.
Qed.

Lemma countFrom_snoc (a : Z) (n : nat) :
  countFrom a (S n) = countFrom a n ++ [(a + Z.of_nat n)%Z].
Proof.
  revert a. induction n as [|n IH]; intros a.
  - simpl. by rewrite Z.add_0_r.
  - change (countFrom a (S (S n))) with (a :: countFrom (a + 1) (S n)).
    rewrite IH. simpl. do 3 f_equal. lia.
Qed.

Lemma orDefault_nonzero (R d : Z) : R <> 0%Z -> orDefault (Some R) d = R.
Proof. intros HR. simpl. destruct (Z.eqb_spec R 0); [done|done]. Qed.

(** C8. [safeSend] makes at most [maxRetries] attempts (3 when the caller
    passes none).  Let attempt [k] be reached, the attempts before it
    having been rate-limited.  If it resolves, [safeSend] returns the
    response; if it fails with another error, [safeSend] returns null at
    once; if it is rate-limited and was the last one allowed, [safeSend]
    returns null; and if it is rate-limited with a retry-after value [R]
    and another attempt is allowed, the attempt is followed by a sleep of
    [R + 5] seconds and then by attempt [k + 1].  In the first three cases
    the attempts made are exactly [1 .. k] and attempt [k] is the last
    thing [safeSend] does.  A retry-after value that is missing or zero
    counts as 30 seconds. *)
Theorem safeSend_retry_policy (chatId : Z) fn (maxRetriesArg : option Z) st
    (k : Z) :
  let maxRetries := default CONFIG.rateLimit.maxRetries maxRetriesArg in
  (1 <= k <= maxRetries)%Z ->
  (forall n, (1 <= n < k)%Z -> exists ra, (fn n).2 = RateLimited ra) ->
  let r := safeSend chatId fn maxRetriesArg st in
  let made :=
    drop (length (attemptsIn (trace st))) (attemptsIn (trace r.2)) in
  (length made <= Z.to_nat maxRetries)%nat
  /\ (maxRetriesArg = None -> (length made <= 3)%nat)
  /\ (forall v, (fn k).2 = Resolved v ->
        r.1 = Some v /\ made = countFrom 1 (Z.to_nat k)
        /\ exists pre, trace r.2 = pre ++ [Attempt k])
  /\ ((fn k).2 = Failed ->
      r.1 = None /\ made = countFrom 1 (Z.to_nat k)
      /\ exists pre, trace r.2 = pre ++ [Attempt k])
  /\ (forall ra, (fn k).2 = RateLimited ra -> k = maxRetries ->
        r.1 = None /\ made = countFrom 1 (Z.to_nat k)
        /\ exists pre, trace r.2 = pre ++ [Attempt k])
  /\ (forall R, (fn k).2 = RateLimited (Some R) -> R <> 0%Z ->
        (k < maxRetries)%Z ->
        exists pre post,
          trace r.2
          = pre ++ [Attempt k;
                    Sleep ((R + CONFIG.rateLimit.retryBuffer) * 1000);
                    Attempt (k + 1)] ++ post)
  /\ (forall ra, (fn k).2 = RateLimited ra -> (k < maxRetries)%Z ->
        exists pre post,
          trace r.2
          = pre ++ [Attempt k;
                    Sleep ((orDefault ra 30 + CONFIG.rateLimit.retryBuffer)
                           * 1000);
                    Attempt (k + 1)] ++ post).
Proof.
  intros maxRetries Hk Hrl r made.
  destruct (throttle_trace chatId st) as (sleeps & Hsl & Hnone).
  assert (r = retryLoop (Z.to_nat maxRetries) 1 maxRetries fn
                (throttle chatId st).2) as Hr.
  { subst r. unfold safeSend, mbind, M_bind. fold maxRetries.
    by destruct (throttle chatId st). }
  set (st0 := (throttle chatId st).2) in *.
  assert (attemptsIn (trace st0) = attemptsIn (trace st)) as Hatt0.
  { rewrite Hsl, attemptsIn_app, Hnone. apply app_nil_r. }
  assert (length made <= Z.to_nat maxRetries)%nat as Hbound.
  { destruct (retryLoop_trace (Z.to_nat maxRetries) 1 maxRetries fn st0)
      as (es & Htr & _ & Hlen).
    subst made. rewrite Hr, Htr, attemptsIn_app, Hatt0, drop_app_length.
    done. }
  split; [done|]. split.
  { intros ->. subst maxRetries. simpl in Hbound.
    unfold CONFIG.rateLimit.maxRetries in Hbound. lia. }
  destruct (retryLoop_reach (Z.to_nat (k - 1)) k maxRetries fn 1
              (Z.to_nat maxRetries) st0)
    as (st1 & Hatt1 & [es1 Hes1] & Heq); [done | lia | lia | done |].
  rewrite Heq in Hr.
  assert (Z.to_nat (maxRetries - k + 1) = S (Z.to_nat (maxRetries - k)))
    as Hf by lia.
  rewrite Hf, retryLoop_S in Hr. cbv zeta in Hr.
  assert (countFrom 1 (Z.to_nat k)
          = countFrom 1 (Z.to_nat (k - 1)) ++ [k]) as Hcount.
  { replace (Z.to_nat k) with (S (Z.to_nat (k - 1))) by lia.
    rewrite countFrom_snoc. do 2 f_equal. lia. }
  assert (drop (length (attemptsIn (trace st)))
            (attemptsIn (trace (invoke fn k st1).2))
          = countFrom 1 (Z.to_nat k)) as Hmade1.
  { simpl. rewrite attemptsIn_app, Hatt1, Hatt0, <- app_assoc.
    rewrite drop_app_length. simpl. by rewrite Hcount. }
  split; [|split; [|split]].
  - intros v Hv. subst made. rewrite Hr, Hv.
    split; [done|]. split; [exact Hmade1|]. by exists (trace st1).
  - intros Hf'. subst made. rewrite Hr, Hf'.
    split; [done|]. split; [exact Hmade1|]. by exists (trace st1).
  - intros ra Hra ->. subst made. rewrite Hr, Hra, Z.ltb_irrefl, Z.sub_diag.
    split; [done|]. split; [exact Hmade1|]. by exists (trace st1).
  - assert (forall ra, (fn k).2 = RateLimited ra -> (k < maxRetries)%Z ->
              exists pre post,
                trace r.2
                = pre ++ [Attempt k;
                          Sleep ((orDefault ra 30
                                  + CONFIG.rateLimit.retryBuffer) * 1000);
                          Attempt (k + 1)] ++ post) as Hsleep.
    { intros ra Hra Hlt. rewrite Hr, Hra.
      rewrite (proj2 (Z.ltb_lt k maxRetries) Hlt).
      match goal with |- context [retryLoop ?f ?a _ _ ?s] =>
        destruct (retryLoop_trace f a maxRetries fn s)
          as (es & Htr & Hhead & _) end.
      destruct Hhead as [es' ->]; [lia|].
      rewrite Htr. simpl. exists (trace st1), es'.
      rewrite <- !app_assoc. done. }
    split; [|done]. intros R HR HR0 Hlt.
    rewrite <- (orDefault_nonzero R 30 HR0). by apply Hsleep.
Qed.

End SafeSend.

(** ** Strings *)

Section Strings.
Import JS.

Lemma startsWith_spec (s p : list N) :
  startsWith s p = true <-> exists t, s = p ++ t.
Proof.
  revert s. induction p as [|x p IH]; intros [|y s]; simpl.
  - split; [by exists [] | done].
  - split; [by exists (y :: s) | done].
  - split; [done | by intros [t E]].
  - rewrite andb_true_iff, N.eqb_eq, IH. split.
    + intros [-> [t ->]]. by exists t.
    + intros [t E]. inversion E; subst. split; [done | by exists t].
Qed.

Lemma startsWith_app (p t : list N) : startsWith (p ++ t) p = true.
Proof. apply startsWith_spec. by exists t. Qed.

Lemma includes_nil (p : list N) : includes [] p = startsWith [] p.
Proof. unfold includes. apply orb_false_r. Qed.

Lemma includes_cons (y : N) (s p : list N) :
  includes (y :: s) p = startsWith (y :: s) p || includes s p.
Proof. reflexivity. Qed.

Lemma includes_spec (s p : list N) :
  includes s p = true <-> exists a b, s = a ++ p ++ b.
Proof.
  induction s as [|y s IH].
  - rewrite includes_nil, startsWith_spec. split.
    + intros [t E]. by exists [], t.
    + intros (a & b & E). symmetry in E.
      apply app_eq_nil in E as [-> E]. apply app_eq_nil in E as [-> ->].
      by exists [].
  - rewrite includes_cons, orb_true_iff, startsWith_spec, IH. split.
    + intros [[t E]|(a & b & E)].
      * by exists [], t.
      * exists (y :: a), b. by rewrite E.
    + intros (a & b & E). destruct a as [|z a]; simpl in E.
      * left. by exists b.
      * right. inversion E; subst. by exists a, b.
Qed.

Lemma eqs_spec (a b : list N) : eqs a b = true <-> a = b.
Proof. unfold eqs. apply bool_decide_eq_true. Qed.

Lemma split_nonempty (sep : N) (s : list N) : split sep s <> [].
Proof.
  destruct s as [|x s]; simpl; [done|].
  destruct (x =? sep)%N; [done|]. by destruct (split sep s).
Qed.

(** Joining the pieces of a split gives the string back. *)
Lemma join_split (sep : N) (s : list N) : join [sep] (split sep s) = s.
Proof.
  induction s as [|x s IH]; [done|]. simpl.
  pose proof (split_nonempty sep s) as Hne.
  destruct (N.eqb_spec x sep) as [->|Hx].
  - destruct (split sep s) as [|seg segs] eqn:E; [done|].
    change (join [sep] ([] :: seg :: segs))
      with ([] ++ [sep] ++ join [sep] (seg :: segs)).
    by rewrite IH.
  - destruct (split sep s) as [|seg segs] eqn:E; [done|].
    destruct segs as [|seg' segs]; simpl in *; by rewrite <- IH.
Qed.

Lemma join_cons (sep : list N) (p : list N) (ps : list (list N)) :
  ps <> [] -> join sep (p :: ps) = p ++ sep ++ join sep ps.
Proof. by destruct ps. Qed.

Lemma join_app (sep : list N) (ps qs : list (list N)) :
  ps <> [] -> qs <> [] ->
  join sep (ps ++ qs) = join sep ps ++ sep ++ join sep qs.
Proof.
  intros Hp Hq. induction ps as [|p ps IH]; [done|].
  destruct ps as [|p' ps].
  - simpl app. by rewrite join_cons.
  - change ((p :: p' :: ps) ++ qs) with (p :: (p' :: ps) ++ qs).
    rewrite join_cons by done. rewrite IH by done.
    rewrite (join_cons sep p (p' :: ps)) by done.
    by rewrite <- !app_assoc.
Qed.

(** A segment between two others stands between two separators. *)
Lemma segment_between (sep : N) (s seg : list N)
    (before after : list (list N)) :
  split sep s = before ++ seg :: after ->
  before <> [] -> after <> [] ->
  includes s ([sep] ++ seg ++ [sep]) = true.
Proof.
  intros E Hb Ha. apply includes_spec.
  rewrite <- (join_split sep s), E.
  rewrite join_app by done. rewrite join_cons by done.
  exists (join [sep] before), (join [sep] after).
  by rewrite <- !app_assoc.
Qed.

End Strings.

(** ** The file tools *)

Section FileTools.
Import JS RegExp Files.
Context `{Runtime} {FS : Type} `{FileSystem FS}.

Lemma isBlocked_failure (msg : list N) :
  isBlocked (failure (BLOCKED ++ msg)) = true.
Proof.
  unfold isBlocked, failure; cbn [success output error negb andb].
  rewrite bool_decide_eq_true_2 by done. apply startsWith_app.
Qed.

Lemma existsb_elem {A} (f : A -> bool) (l : list A) (x : A) :
  x ∈ l -> f x = true -> existsb f l = true.
Proof.
  intros Hin Hf. apply existsb_exists. exists x.
  split; [by apply list_elem_of_In | done].
Qed.

(** The check of [isSensitiveFile] covers the three rules. *)
Lemma namesSensitive_isSensitiveFile (filePath : list N) :
  namesSensitive filePath -> isSensitiveFile filePath = true.
Proof.
  unfold isSensitiveFile. intros [(f & Hin & E)|[(p & Hin & Hp)|Hssh]].
  - erewrite existsb_elem; [done | exact Hin |]. by apply eqs_spec.
  - destruct (existsb _ SENSITIVE_FILES); [done|].
    erewrite (existsb_elem _ SENSITIVE_PATTERNS); [done | exact Hin | done].
  - destruct (existsb _ SENSITIVE_FILES); [done|].
    destruct (existsb _ SENSITIVE_PATTERNS); [done|].
    destruct Hssh as (before & after & E & Hb & Ha).
    pose proof (segment_between 47 _ _ _ _ E Hb Ha) as Hinc.
    change ([47%N] ++ lit ".ssh" ++ [47%N]) with (lit "/.ssh/") in Hinc.
    by rewrite Hinc.
Qed.

Lemma not_inside (realWorkspace realPath : list N) :
  ~ inside realWorkspace realPath ->
  negb (startsWith realPath (realWorkspace ++ lit "/"))
  && negb (eqs realPath realWorkspace) = true.
Proof.
  intros Hout. apply andb_true_iff. split; apply negb_true_iff.
  - apply not_true_iff_false. intros Hs. apply Hout. right.
    apply startsWith_spec in Hs as [t ->]. exists t. by rewrite <- app_assoc.
  - apply not_true_iff_false. intros He. apply Hout. left.
    by apply eqs_spec.
Qed.

Lemma liesOutside_isSymlinkEscape (fs : FS) (filePath workspacePath : list N) :
  liesOutside fs filePath workspacePath ->
  (isSymlinkEscape fs filePath workspacePath).1 = true.
Proof.
  intros (realPath & realWorkspace & Hex & Hrp & Hrw & Hout).
  unfold isSymlinkEscape. rewrite Hex, Hrp, Hrw. simpl.
  by rewrite not_inside.
Qed.

(** X24. [executeRead] refuses, with a security-block error and without
    any output, every path that names a sensitive file (by its base name,
    by a sensitive pattern, or by a [.ssh] segment between two others)
    and every existing path whose canonical form lies outside the
    canonical form of the workspace, when the workspace has one. *)
Theorem executeRead_blocks (fs : FS) (path : list N) (offset limit : option Z)
    (cwd : list N) :
  namesSensitive (fullPathOf path cwd)
  \/ liesOutside fs (fullPathOf path cwd) cwd ->
  isBlocked (executeRead fs path offset limit cwd) = true
  /\ success (executeRead fs path offset limit cwd) = false
  /\ output (executeRead fs path offset limit cwd) = None.
Proof.
  intros Hbad.
  assert (isBlocked (executeRead fs path offset limit cwd) = true) as Hb.
  { unfold executeRead.
    destruct (isSensitiveFile (fullPathOf path cwd)) eqn:Es.
    - apply isBlocked_failure.
    - destruct Hbad as [Hs|Ho].
      + apply namesSensitive_isSensitiveFile in Hs. congruence.
      + rewrite (liesOutside_isSymlinkEscape _ _ _ Ho).
        apply isBlocked_failure. }
  split; [done|]. unfold isBlocked in Hb.
  apply andb_true_iff in Hb as [Hb _]. apply andb_true_iff in Hb as [Hs Ho].
  apply negb_true_iff in Hs. apply bool_decide_eq_true in Ho. done.
Qed.

(** The first check of [executeWrite]. *)
Lemma executeWrite_containment (fs : FS) (path content cwd : list N) :
  ~ inside (Path.resolve (processCwd fs) cwd)
      (Path.resolve (processCwd fs) (fullPathOf path cwd)) ->
  isBlocked (executeWrite fs path content cwd).1 = true
  /\ (executeWrite fs path content cwd).2 = fs.
Proof.
  intros Hout. unfold executeWrite. rewrite not_inside by done.
  simpl. split; [apply isBlocked_failure | done].
Qed.

Lemma dotdot_is_outside (pc : list N) :
  ~ inside (Path.resolve pc (lit "/workspace/42"))
      (Path.resolve pc (fullPathOf (lit "/workspace/42/../43/x")
                          (lit "/workspace/42"))).
Proof.
  assert (Path.resolve pc (lit "/workspace/42") = lit "/workspace/42")
    as -> by (by vm_compute).
  assert (Path.resolve pc (fullPathOf (lit "/workspace/42/../43/x")
                             (lit "/workspace/42")) = lit "/workspace/43/x")
    as -> by (by vm_compute).
  intros [E|[tail E]]; vm_compute in E; discriminate.
Qed.

(** X25. [executeWrite] refuses, and leaves the file system as it was,
    every path whose form under [path.resolve] (dot segments taken out,
    links not followed) is neither the resolved workspace nor begins with
    it and a slash; so it does for [/workspace/42/../43/x] under the
    workspace [/workspace/42]. *)
Theorem executeWrite_outside_blocked (fs : FS) (path content cwd : list N) :
  Path.resolve (processCwd fs) (fullPathOf path cwd)
    <> Path.resolve (processCwd fs) cwd ->
  (forall tail,
      Path.resolve (processCwd fs) (fullPathOf path cwd)
      <> Path.resolve (processCwd fs) cwd ++ lit "/" ++ tail) ->
  (isBlocked (executeWrite fs path content cwd).1 = true
   /\ (executeWrite fs path content cwd).2 = fs)
  /\ (isBlocked (executeWrite fs (lit "/workspace/42/../43/x") content
                   (lit "/workspace/42")).1 = true
      /\ (executeWrite fs (lit "/workspace/42/../43/x") content
            (lit "/workspace/42")).2 = fs).
Proof.
  intros Hne Hpre. split.
  - apply executeWrite_containment. intros [E|[tail E]]; [done|].
    by apply (Hpre tail).
  - apply executeWrite_containment, dotdot_is_outside.
Qed.

End FileTools.

(** ** Where the checks of the file tools let a path through *)

Section Escapes.
Import JS RegExp Files Instances Linked.

Local Ltac apart E := vm_compute in E; discriminate E.

(** The [catch] of [isSymlinkEscape]: when the workspace cannot be
    resolved, no path is an escape. *)
Lemma isSymlinkEscape_unresolved {FS : Type} `{FileSystem FS}
    (fs : FS) (filePath workspacePath : list N) :
  realpathSync fs workspacePath = None ->
  isSymlinkEscape fs filePath workspacePath = noEscape.
Proof.
  intros Hws. unfold isSymlinkEscape. rewrite Hws.
  destruct (negb (existsSync fs filePath)); [done|].
  by destruct (realpathSync fs filePath).
Qed.

(** Its first line: a path that does not exist yet is no escape,
    wherever its directory leads. *)
Lemma isSymlinkEscape_absent {FS : Type} `{FileSystem FS}
    (fs : FS) (filePath workspacePath : list N) :
  existsSync fs filePath = false ->
  isSymlinkEscape fs filePath workspacePath = noEscape.
Proof. intros Hex. unfold isSymlinkEscape. by rewrite Hex. Qed.

(** C2. [executeRead] has no containment check of its own; it relies on
    [isSymlinkEscape], which answers that there is no escape whenever
    [realpathSync] throws.  Under the workspace [/workspace/nowhere],
    which cannot be resolved (moving a workspace away is a command that
    [checkCommand] lets through), the file [/workspace/43/x], whose
    canonical form is itself and lies outside the workspace, is read and
    its contents are returned. *)
Theorem executeRead_unresolved_workspace :
  Approvals.dangerous
    (Approvals.checkCommand (lit "mv /workspace/nowhere /workspace/gone"))
  = false
  /\ realpathSync sampleDisk (lit "/workspace/43/x")
     = Some (lit "/workspace/43/x")
  /\ realpathSync sampleDisk (lit "/workspace/nowhere") = None
  /\ ~ inside (lit "/workspace/nowhere") (lit "/workspace/43/x")
  /\ isSymlinkEscape sampleDisk (lit "/workspace/43/x")
       (lit "/workspace/nowhere") = noEscape
  /\ executeRead (H := asciiRuntime) sampleDisk (lit "/workspace/43/x")
       None None (lit "/workspace/nowhere")
     = ok (lit "other user").
Proof.
  split; [by vm_compute|].
  split; [reflexivity|]. split; [reflexivity|]. split.
  { intros [E|[tail E]]; apart E. }
  split; [|reflexivity].
  by apply isSymlinkEscape_unresolved.
Qed.

(** C7. [executeWrite] compares the paths as [path.resolve] gives them,
    links not followed, and [isSymlinkEscape] passes every path that does
    not exist yet.  In the workspace [/workspace/42], where [lnk] is a
    link to [/workspace/43], the new file [lnk/new.txt] passes both
    checks and is written: afterwards [/workspace/43/new.txt], outside
    the workspace, holds the content. *)
Theorem executeWrite_through_link :
  let r := executeWrite (H := asciiRuntime) linkedTree (lit "lnk/new.txt")
             (lit "data") (lit "/workspace/42") in
  realpathSync linkedTree (lit "/workspace/42") = Some (lit "/workspace/42")
  /\ existsSync linkedTree (lit "/workspace/43/new.txt") = false
  /\ isSymlinkEscape linkedTree (lit "/workspace/42/lnk/new.txt")
       (lit "/workspace/42") = noEscape
  /\ r.1 = ok (lit "Written 4 bytes to lnk/new.txt")
  /\ realpathSync r.2 (lit "/workspace/42/lnk/new.txt")
     = Some (lit "/workspace/43/new.txt")
  /\ ~ inside (lit "/workspace/42") (lit "/workspace/43/new.txt")
  /\ readFileSync r.2 (lit "/workspace/43/new.txt") = inr (lit "data").
Proof.
  cbv zeta. split; [reflexivity|]. split; [reflexivity|]. split.
  { by apply isSymlinkEscape_absent. }
  split; [reflexivity|]. split; [reflexivity|]. split.
  { intros [E|[tail E]]; apart E. }
  reflexivity.
Qed.

End Escapes.

(** ** The matcher on words *)

Section Matcher.
Import JS RegExp.

Lemma flat_map_singleton {A} (l : list A) : flat_map (fun x => [x]) l = l.
Proof. induction l as [|x l IH]; [done|]. simpl. by rewrite IH. Qed.

Lemma ends_seqs_cons (ic : bool) (r : regex) (rs : list regex) (c : cursor) :
  ends ic (seqs (r :: rs)) c = flat_map (ends ic (seqs rs)) (ends ic r c).
Proof.
  destruct rs as [|r' rs]; [|done].
  simpl. symmetry. apply flat_map_singleton.
Qed.

Lemma ends_seqs3_in (ic : bool) (r1 r2 r3 : regex) (c c' : cursor) :
  In c' (ends ic (seqs [r1; r2; r3]) c)
  <-> exists c1 c2, In c1 (ends ic r1 c) /\ In c2 (ends ic r2 c1)
                    /\ In c' (ends ic r3 c2).
Proof.
  simpl. rewrite in_flat_map. split.
  - intros (c1 & H1 & Hin). apply in_flat_map in Hin as (c2 & H2 & H3).
    by exists c1, c2.
  - intros (c1 & c2 & H1 & H2 & H3). exists c1. split; [done|].
    apply in_flat_map. by exists c2.
Qed.

Lemma step1_in (ok : N -> bool) (c c' : cursor) :
  In c' (step1 ok c)
  <-> exists x t, rest c = x :: t /\ ok x = true /\ c' = Cursor (Some x) t.
Proof.
  unfold step1. destruct (rest c) as [|x t].
  - split; [done | by intros (? & ? & ? & _)].
  - destruct (ok x) eqn:E; simpl.
    + split.
      * intros [<-|[]]. by exists x, t.
      * intros (x' & t' & [= <- <-] & _ & ->). by left.
    + split; [done|]. intros (x' & t' & [= <- <-] & ? & _). congruence.
Qed.

Lemma step1_matches (ic : bool) (r : regex) (ok : N -> bool) (c c' : cursor) :
  (forall x p s, ok x = true ->
                 matches ic r (Cursor p (x :: s)) (Cursor (Some x) s)) ->
  In c' (step1 ok c) -> matches ic r c c'.
Proof.
  intros Hr Hin. apply step1_in in Hin as (x & t & Hrest & Hx & ->).
  destruct c as [p s]. simpl in Hrest. subst s. by apply Hr.
Qed.

Lemma star_iter_sound (ic : bool) (r : regex) (fuel : nat) :
  (forall c c', In c' (ends ic r c) -> matches ic r c c') ->
  forall c c', In c' (star_iter (ends ic r) fuel c) -> matches ic (Star r) c c'.
Proof.
  intros Hr. induction fuel as [|fuel IH]; intros c c'; simpl.
  - intros [<-|[]]. constructor.
  - intros [<-|Hin]; [constructor|].
    apply in_flat_map in Hin as (c1 & H1 & H2).
    apply filter_In in H1 as [H1 _].
    eapply m_StarCons; [by apply Hr | by apply IH].
Qed.

(** The matcher finds only matches. *)
Lemma ends_sound (ic : bool) (r : regex) (c c' : cursor) :
  In c' (ends ic r c) -> matches ic r c c'.
Proof.
  revert c c'. induction r as [|a| |neg ranges| | | | | |r1 IH1 r2 IH2
                               |r1 IH1 r2 IH2|r IH]; intros c c'; simpl.
  - intros [<-|[]]. constructor.
  - apply step1_matches. intros x p s Hx. constructor. by apply N.eqb_eq.
  - apply step1_matches. intros x p s Hx. constructor.
    by apply negb_true_iff.
  - apply step1_matches. intros x p s Hx. by constructor.
  - apply step1_matches. intros x p s Hx. by constructor.
  - apply step1_matches. intros x p s Hx. by constructor.
  - destruct (xorb _ _) eqn:E; [|done]. intros [<-|[]]. by constructor.
  - destruct c as [p [|x s]]; simpl; [|done]. intros [<-|[]]. constructor.
  - destruct c as [[x|] s]; simpl; [done|]. intros [<-|[]]. constructor.
  - intros Hin. apply in_flat_map in Hin as (c1 & H1 & H2).
    eapply m_Seq; eauto.
  - intros Hin. apply in_app_iff in Hin as [Hin|Hin].
    + apply m_AltL. auto.
    + apply m_AltR. auto.
  - by apply star_iter_sound.
Qed.

(** A match consumes something or leaves the position as it is. *)
Lemma matches_progress (ic : bool) (r : regex) (c c' : cursor) :
  matches ic r c c' ->
  c' = c \/ (length (rest c') < length (rest c))%nat.
Proof.
  induction 1; simpl; try (by left); try (right; lia); try done.
  - destruct IHmatches1 as [->|H1], IHmatches2 as [->|H2];
      try (by left); right; lia.
  - destruct IHmatches1 as [->|H1], IHmatches2 as [->|H2];
      try (by left); right; lia.
Qed.

Lemma star_iter_mono (step : cursor -> list cursor) (fuel fuel' : nat)
    (c c' : cursor) :
  (fuel <= fuel')%nat ->
  In c' (star_iter step fuel c) -> In c' (star_iter step fuel' c).
Proof.
  revert fuel' c. induction fuel as [|fuel IH]; intros fuel' c Hle.
  - simpl. intros [<-|[]]. destruct fuel'; by left.
  - destruct fuel' as [|fuel']; [lia|]. simpl.
    intros [<-|Hin]; [by left|]. right.
    apply in_flat_map in Hin as (c1 & H1 & H2).
    apply in_flat_map. exists c1. split; [done|]. apply IH; [lia|done].
Qed.

(** The matcher finds every match. *)
Lemma ends_complete (ic : bool) (r : regex) (c c' : cursor) :
  matches ic r c c' -> In c' (ends ic r c).
Proof.
  induction 1 as [c|a x p s Hx|x p s Hx|neg ranges x p s Hx|x p s Hx|x p s Hx
                  |c Hb|p|s|r1 r2 c c1 c2 H1 IH1 H2 IH2|r1 r2 c c' H1 IH1
                  |r1 r2 c c' H1 IH1|r c|r c c1 c2 H1 IH1 H2 IH2]; simpl.
  - by left.
  - unfold step1. simpl. apply N.eqb_eq in Hx. rewrite Hx. by left.
  - unfold step1. simpl. rewrite Hx. by left.
  - unfold step1. simpl. rewrite Hx. by left.
  - unfold step1. simpl. rewrite Hx. by left.
  - unfold step1. simpl. rewrite Hx. by left.
  - rewrite Hb. by left.
  - by left.
  - by left.
  - apply in_flat_map. by exists c1.
  - apply in_app_iff. by left.
  - apply in_app_iff. by right.
  - destruct (length (rest c)); by left.
  - simpl in IH2.
    destruct (matches_progress _ _ _ _ H1) as [->|Hlt]; [done|].
    destruct (length (rest c)) as [|n] eqn:En; [lia|].
    simpl. right. apply in_flat_map. exists c1. split.
    + apply filter_In. split; [done|]. apply Nat.ltb_lt. lia.
    + eapply star_iter_mono; [|exact IH2]. lia.
Qed.

(** The matcher computes exactly the matches. *)
Lemma ends_matches (ic : bool) (r : regex) (c c' : cursor) :
  In c' (ends ic r c) <-> matches ic r c c'.
Proof. split; [apply ends_sound | apply ends_complete]. Qed.

(** A sequence of literal characters consumes a word equal to it up to
    case. *)
Lemma ends_chars_sound (ic : bool) (w : list N) (c c' : cursor) :
  In c' (ends ic (seqs (map Char w)) c) ->
  exists m, rest c = m ++ rest c'
            /\ map (canon ic) m = map (canon ic) w.
Proof.
  revert c. induction w as [|a w IH]; intros c.
  - simpl. intros [<-|[]]. by exists [].
  - change (map Char (a :: w)) with (Char a :: map Char w).
    rewrite ends_seqs_cons, in_flat_map. intros (c1 & H1 & H2).
    simpl in H1. apply step1_in in H1 as (x & t & Hr & Hx & ->).
    apply IH in H2 as (m & Hm & Hc). simpl in Hm.
    exists (x :: m). simpl. rewrite Hr, Hm. split; [done|].
    apply N.eqb_eq in Hx. by rewrite Hx, Hc.
Qed.

Lemma ends_chars_complete (ic : bool) (w m t : list N) (c : cursor) :
  rest c = m ++ t ->
  map (canon ic) m = map (canon ic) w ->
  exists c', In c' (ends ic (seqs (map Char w)) c) /\ rest c' = t.
Proof.
  revert c m. induction w as [|a w IH]; intros c m Hr Hc.
  - destruct m; [|done]. exists c. split; [by left | done].
  - destruct m as [|x m]; [done|]. simpl in Hc. injection Hc as Hx Hc.
    destruct (IH (Cursor (Some x) (m ++ t)) m eq_refl Hc) as (c' & Hin & Ht).
    exists c'. split; [|done].
    change (map Char (a :: w)) with (Char a :: map Char w).
    rewrite ends_seqs_cons, in_flat_map.
    exists (Cursor (Some x) (m ++ t)). split; [|done].
    simpl. apply step1_in. exists x, (m ++ t).
    split; [done|]. split; [by apply N.eqb_eq | done].
Qed.

(** Every cursor of a string stands before a suffix of it, and every
    suffix has its cursor. *)
Lemma cursors_sound (q : option N) (s : list N) (c : cursor) :
  In c (cursors q s) -> exists pre, s = pre ++ rest c.
Proof.
  revert q. induction s as [|x s IH]; intros q; simpl.
  - intros [<-|[]]. by exists [].
  - intros [<-|Hin]; [by exists []|].
    apply IH in Hin as [pre ->]. by exists (x :: pre).
Qed.

Lemma cursors_complete (q : option N) (pre t : list N) :
  exists c, In c (cursors q (pre ++ t)) /\ rest c = t.
Proof.
  revert q. induction pre as [|x pre IH]; intros q.
  - exists (Cursor q t). split; [|done]. destruct t; by left.
  - destruct (IH (Some x)) as (c & Hin & Hr). exists c.
    split; [|done]. simpl. by right.
Qed.

Lemma matchesAt_spec (re : RegExp.t) (c : cursor) :
  matchesAt re c = true <-> exists c', In c' (ends (ignoreCase re) (source re) c).
Proof.
  unfold matchesAt. destruct (ends _ _ c) as [|c' l].
  - split; [done | by intros [? []]].
  - split; [|done]. intros _. exists c'. by left.
Qed.

Lemma test_spec (re : RegExp.t) (s : list N) :
  test re s = true
  <-> exists c c', In c (cursors None s)
                   /\ In c' (ends (ignoreCase re) (source re) c).
Proof.
  unfold test. rewrite existsb_exists. split.
  - intros (c & Hin & Hm). apply matchesAt_spec in Hm as [c' Hc'].
    by exists c, c'.
  - intros (c & c' & Hin & Hc'). exists c. split; [done|].
    apply matchesAt_spec. by exists c'.
Qed.

(** Folding a lower-case letter's case both ways. *)
Lemma canon_lower (a x : N) :
  (97 <= a <= 122)%N ->
  canon true x = canon true a <-> asciiLower x = a.
Proof.
  intros Ha. unfold canon, asciiUpper, asciiLower.
  destruct (N.leb_spec 97 x), (N.leb_spec x 122), (N.leb_spec 65 x),
    (N.leb_spec x 90), (N.leb_spec 97 a), (N.leb_spec a 122);
    simpl; lia.
Qed.

Lemma canon_lower_word (w m : list N) :
  Forall (fun a => (97 <= a <= 122)%N) w ->
  map (canon true) m = map (canon true) w <-> map asciiLower m = w.
Proof.
  intros Hw. revert m. induction Hw as [|a w Ha Hw IH]; intros [|x m]; simpl;
    try done.
  split; intros [= E1 E2]; f_equal;
    try (by apply (canon_lower a x)); by apply IH.
Qed.

Lemma lineTerminator_lower (x : N) :
  isLineTerminator (asciiLower x) = isLineTerminator x.
Proof.
  unfold isLineTerminator, asciiLower.
  destruct (N.leb_spec 65 x), (N.leb_spec x 90); simpl; try done.
  repeat match goal with
         | |- context [(?u =? ?v)%N] => destruct (N.eqb_spec u v); try lia
         end; done.
Qed.

End Matcher.

(** ** search_text *)

Section SearchText.
Import JS RegExp Files Instances.
Context {FS : Type} `{FileSystem FS}.

Lemma word_match (w : string) (c : cursor) :
  (exists c', In c' (ends true (str w) c))
  <-> exists m t, rest c = m ++ t /\ ceq m w.
Proof.
  unfold str. split.
  - intros [c' Hin]. apply ends_chars_sound in Hin as (m & Hr & Hc).
    by exists m, (rest c').
  - intros (m & t & Hr & Hc).
    destruct (ends_chars_complete true _ m t c Hr Hc) as (c' & Hin & _).
    by exists c'.
Qed.

Lemma optDot_in (c c' : cursor) :
  In c' (ends true (Opt Dot) c)
  <-> (exists x, rest c = x :: rest c' /\ isLineTerminator x = false
                 /\ c' = Cursor (Some x) (rest c'))
      \/ c' = c.
Proof.
  unfold Opt. simpl. rewrite in_app_iff, step1_in. split.
  - intros [(x & t & Hr & Hx & ->)|[<-|[]]]; [left | by right].
    exists x. simpl. split; [done|]. by apply negb_true_iff in Hx.
  - intros [(x & Hr & Hx & ->)| ->]; [left | right; by left].
    exists x, (rest c'). split; [done|]. split; [|done].
    by apply negb_true_iff.
Qed.

Lemma gap_match (a b : string) (c : cursor) :
  (exists c', In c' (ends true (seqs [str a; Opt Dot; str b]) c))
  <-> exists m1 g m2 t,
        rest c = m1 ++ g ++ m2 ++ t /\ ceq m1 a /\ gap g /\ ceq m2 b.
Proof.
  split.
  - intros [c' Hin]. apply ends_seqs3_in in Hin as (c1 & c2 & H1 & H2 & H3).
    unfold str in H1, H3.
    apply ends_chars_sound in H1 as (m1 & Hr1 & Hc1).
    apply ends_chars_sound in H3 as (m2 & Hr2 & Hc2).
    apply optDot_in in H2 as [(x & Hrx & Hx & _)|E].
    + exists m1, [x], m2, (rest c'). repeat split; try done.
      * rewrite Hr1, Hrx, Hr2. done.
      * right. by exists x.
    + subst c2. exists m1, [], m2, (rest c'). repeat split; try done.
      * rewrite Hr1, Hr2. done.
      * by left.
  - intros (m1 & g & m2 & t & Hr & Hc1 & Hg & Hc2).
    destruct (ends_chars_complete true _ m1 (g ++ m2 ++ t) c Hr Hc1)
      as (c1 & Hin1 & Hr1).
    assert (exists c2, In c2 (ends true (Opt Dot) c1) /\ rest c2 = m2 ++ t)
      as (c2 & Hin2 & Hr2).
    { destruct Hg as [E|(x & E & Hx)]; subst g.
      - exists c1. split; [|done]. apply optDot_in. by right.
      - exists (Cursor (Some x) (m2 ++ t)). split; [|done].
        apply optDot_in. left. exists x. by repeat split. }
    destruct (ends_chars_complete true _ m2 t c2 Hr2 Hc2) as (c' & Hin3 & _).
    exists c'. apply ends_seqs3_in. by exists c1, c2.
Qed.

Lemma ends_alt_in (r1 r2 : regex) (c c' : cursor) :
  In c' (ends true (Alt r1 r2) c)
  <-> In c' (ends true r1 c) \/ In c' (ends true r2 c).
Proof. simpl. apply in_app_iff. Qed.

Lemma lower_word (w : string) (m : list N) :
  forallb (fun a => (97 <=? a) && (a <=? 122))%N (lit w) = true ->
  ceq m w <-> map asciiLower m = lit w.
Proof.
  intros Hw. apply canon_lower_word, Forall_forall. intros a Ha.
  rewrite forallb_forall in Hw. apply list_elem_of_In in Ha.
  specialize (Hw a Ha).
  apply andb_true_iff in Hw as [H1 H2].
  apply N.leb_le in H1, H2. done.
Qed.

Local Ltac lower_in E :=
  apply lower_word in E; [|by vm_compute].
Local Ltac lowered :=
  apply lower_word; [by vm_compute | done].

(** What the pattern of [executeSearchText] matches at a position. *)
Lemma secret_matchesAt (c : cursor) :
  (exists c', In c' (ends true (source secretPatterns) c))
  <-> exists m t, rest c = m ++ t /\ secretWord m.
Proof.
  change (source secretPatterns)
    with (Alt (str "password")
            (Alt (str "secret")
               (Alt (str "token")
                  (Alt (seqs [str "api"; Opt Dot; str "key"])
                     (Alt (str "credential")
                        (seqs [str "private"; Opt Dot; str "key"])))))).
  split.
  - intros [c' Hin]. rewrite !ends_alt_in in Hin.
    assert (forall w, In c' (ends true (str w) c) ->
                      exists m t, rest c = m ++ t /\ ceq m w) as Hword.
    { intros w Hw. apply word_match. by exists c'. }
    assert (forall a b,
               In c' (ends true (seqs [str a; Opt Dot; str b]) c) ->
               exists m1 g m2 t, rest c = m1 ++ g ++ m2 ++ t
                                 /\ ceq m1 a /\ gap g /\ ceq m2 b) as Hgap.
    { intros a b Hw. apply gap_match. by exists c'. }
    destruct Hin as [Hw|[Hw|[Hw|[Hg|[Hw|Hg]]]]];
      try (apply Hword in Hw as (m & t & Hr & E); lower_in E;
           exists m, t; split; [done|]; left; rewrite E;
           rewrite !elem_of_cons; tauto);
      apply Hgap in Hg as (m1 & g & m2 & t & Hr & E1 & Hg & E2);
      lower_in E1; lower_in E2;
      exists (m1 ++ g ++ m2), t;
      (split; [by rewrite Hr, <- !app_assoc|]);
      right; exists m1, g, m2; rewrite E1;
      repeat split; try done; rewrite !elem_of_cons; tauto.
  - intros (m & t & Hr & [Hw|(m1 & g & m2 & -> & Hw & Hg & E2)]).
    + assert (forall w, ceq m w -> exists c', In c' (ends true (str w) c))
        as Hword.
      { intros w E. apply word_match. by exists m, t. }
      rewrite !elem_of_cons, elem_of_nil in Hw.
      destruct Hw as [E|[E|[E|[E|[]]]]].
      * destruct (Hword "password"%string) as [c' Hc']; [lowered|].
        exists c'. rewrite !ends_alt_in. tauto.
      * destruct (Hword "secret"%string) as [c' Hc']; [lowered|].
        exists c'. rewrite !ends_alt_in. tauto.
      * destruct (Hword "token"%string) as [c' Hc']; [lowered|].
        exists c'. rewrite !ends_alt_in. tauto.
      * destruct (Hword "credential"%string) as [c' Hc']; [lowered|].
        exists c'. rewrite !ends_alt_in. tauto.
    + assert (forall a,
                 ceq m1 a ->
                 exists c', In c' (ends true
                                     (seqs [str a; Opt Dot; str "key"]) c))
        as Hgap.
      { intros a E. apply gap_match. exists m1, g, m2, t.
        rewrite Hr, <- !app_assoc. repeat split; try done. lowered. }
      rewrite !elem_of_cons, elem_of_nil in Hw.
      destruct Hw as [E|[E|[]]].
      * destruct (Hgap "api"%string) as [c' Hc']; [lowered|].
        exists c'. rewrite !ends_alt_in. tauto.
      * destruct (Hgap "private"%string) as [c' Hc']; [lowered|].
        exists c'. rewrite !ends_alt_in. tauto.
Qed.

Lemma secretPatterns_test (pattern : list N) :
  test secretPatterns pattern = true <-> mentionsSecret pattern.
Proof.
  rewrite test_spec. change (ignoreCase secretPatterns) with true. split.
  - intros (c & c' & Hc & Hin).
    apply cursors_sound in Hc as [pre ->].
    destruct (proj1 (secret_matchesAt c)) as (m & t & Hr & Hs); [by exists c'|].
    exists pre, m, t. by rewrite Hr.
  - intros (pre & m & post & -> & Hs).
    destruct (cursors_complete None pre (m ++ post)) as (c & Hc & Hr).
    destruct (proj2 (secret_matchesAt c)) as [c' Hin]; [by exists m, post|].
    by exists c, c'.
Qed.

(** C10, as stated, fails: [api_key] mentions none of the listed
    substrings, and the search for it is refused all the same. *)
Lemma search_for_api_key_refused :
  containsListedWord (lit "api_key") = false
  /\ isBlocked
       (executeSearchText Instances.sampleDisk (lit "api_key") None None
          None false false (lit "/workspace/42")).1 = true.
Proof. split; by vm_compute. Qed.

(** C10, amended. [executeSearchText] answers with the blocked-secrets
    error, and runs no command, exactly when the pattern contains,
    whatever the case of its ASCII letters, [password], [secret], [token]
    or [credential], or [api] or [private] followed by [key] with at most
    one unit other than a line terminator in between; every other pattern
    passes the check, and the search runs as one shell command. *)
Theorem executeSearchText_refusal (fs : FS) (pattern : list N)
    (path : option (list N)) (context_before context_after : option Z)
    (files_only ignore_case : bool) (cwd : list N) :
  let r := executeSearchText fs pattern path context_before context_after
             files_only ignore_case cwd in
  ((isBlocked r.1 = true /\ r.2 = []) <-> mentionsSecret pattern)
  /\ (isBlocked r.1 = true
      -> error r.1
         = Some (BLOCKED
                   ++ lit "Cannot search for secrets/credentials patterns"))
  /\ (~ mentionsSecret pattern ->
      success r.1 = true /\ exists cmd, r.2 = [cmd]).
Proof.
  intros r. subst r. unfold executeSearchText.
  pose proof (secretPatterns_test pattern) as Ht.
  destruct (test secretPatterns pattern).
  - split; [|split].
    + split; [intros _; by apply Ht|]. intros _.
      split; [apply isBlocked_failure | done].
    + done.
    + intros Hn. exfalso. apply Hn. by apply Ht.
  - split; [|split].
    + split.
      * intros [_ Hnil]. by destruct (execSync _ _ _).
      * intros Hm. apply Ht in Hm. done.
    + by destruct (execSync _ _ _).
    + intros _. destruct (execSync _ _ _); eauto.
Qed.

End SearchText.

(** ** The theorems at work on concrete inputs *)

Section Witnesses.
Import JS Files Instances.

Local Ltac differ E := vm_compute in E; discriminate E.

Lemma consume_at_most_once_witness :
  (length (Approvals.consumed sampleId
             [Approvals.Consume sampleId; Approvals.Elapse 10;
              Approvals.Consume sampleId]
             (Approvals.calls
                [Approvals.Consume sampleId; Approvals.Elapse 10;
                 Approvals.Consume sampleId] sampleStore).1) <= 1)%nat.
Proof.
  apply (consume_at_most_once sampleId
           [Approvals.Consume sampleId; Approvals.Elapse 10;
            Approvals.Consume sampleId] sampleStore).
  intros Hin. vm_compute in Hin.
  repeat (apply elem_of_cons in Hin as [Hin|Hin]; [discriminate Hin|]).
  by apply elem_of_nil in Hin.
Defined.

Lemma safeSend_retry_policy_witness :
  exists pre post,
    RateLimiter.trace
      (RateLimiter.safeSend (-1001234) flakySend None
         (RateLimiter.start 5000)).2
    = pre ++ [RateLimiter.Attempt 1; RateLimiter.Sleep 12000;
              RateLimiter.Attempt 2] ++ post.
Proof.
  destruct (safeSend_retry_policy (-1001234) flakySend None
              (RateLimiter.start 5000) 1) as (_ & _ & _ & _ & _ & Hsleep & _).
  - vm_compute. split; discriminate.
  - intros n Hn. lia.
  - apply (Hsleep 7%Z).
    + reflexivity.
    + discriminate.
    + reflexivity.
Defined.

Lemma executeRead_blocks_witness :
  isBlocked
    (executeRead (H := asciiRuntime) sampleDisk (lit "out") None None
       (lit "/workspace/42")) = true
  /\ success
       (executeRead (H := asciiRuntime) sampleDisk (lit "out") None None
          (lit "/workspace/42")) = false
  /\ output
       (executeRead (H := asciiRuntime) sampleDisk (lit "out") None None
          (lit "/workspace/42")) = None.
Proof.
  apply (executeRead_blocks (H := asciiRuntime) sampleDisk (lit "out") None
           None (lit "/workspace/42")).
  right. exists (lit "/workspace/43/x"), (lit "/workspace/42").
  split; [reflexivity|]. split; [reflexivity|]. split; [reflexivity|].
  intros [E|[tail E]]; differ E.
Defined.

Lemma executeWrite_outside_blocked_witness :
  isBlocked
    (executeWrite (H := asciiRuntime) sampleDisk (lit "/workspace/43/x")
       (lit "data") (lit "/workspace/42")).1 = true
  /\ (executeWrite (H := asciiRuntime) sampleDisk (lit "/workspace/43/x")
        (lit "data") (lit "/workspace/42")).2 = sampleDisk.
Proof.
  apply (executeWrite_outside_blocked (H := asciiRuntime) sampleDisk
           (lit "/workspace/43/x") (lit "data") (lit "/workspace/42")).
  - intros E. differ E.
  - intros tail E. differ E.
Defined.

End Witnesses.

(** ** Message formatting *)

Section Formatting.
Import JS Formatters.

Lemma flat_map_flat_map {A B C} (f : B -> list C) (g : A -> list B)
    (l : list A) :
  flat_map f (flat_map g l) = flat_map (fun x => flat_map f (g x)) l.
Proof.
  induction l as [|x l IH]; [done|]. simpl. by rewrite flat_map_app, IH.
Qed.

(** The three replacements, one after the other, amount to one pass: an
    entity written by the first is not rewritten by the next. *)
Lemma escapeHtml_entities (text : list N) :
  escapeHtml text = flat_map entity text.
Proof.
  unfold escapeHtml, replaceAllChar. rewrite !flat_map_flat_map.
  apply flat_map_ext. intros x. unfold entity.
  destruct (N.eqb_spec x 38) as [->|H38]; [done|].
  destruct (N.eqb_spec x 60) as [->|H60]; [done|].
  destruct (N.eqb_spec x 62) as [->|H62]; [done|].
  simpl. rewrite (proj2 (N.eqb_neq x 60)) by done. simpl.
  by rewrite (proj2 (N.eqb_neq x 62)) by done.
Qed.

Local Ltac no_member Hin :=
  vm_compute in Hin;
  repeat (apply elem_of_cons in Hin as [Hin|Hin]; [discriminate Hin|]);
  by apply elem_of_nil in Hin.

Lemma entity_no_angle (x : N) : (60%N ∉ entity x) /\ (62%N ∉ entity x).
Proof.
  unfold entity.
  destruct (N.eqb_spec x 38); [split; intros Hin; no_member Hin|].
  destruct (N.eqb_spec x 60); [split; intros Hin; no_member Hin|].
  destruct (N.eqb_spec x 62); [split; intros Hin; no_member Hin|].
  split; rewrite list_elem_of_singleton; congruence.
Qed.

(** Where an ampersand of an escaped text comes from. *)
Local Ltac peel E pre :=
  destruct pre as [|? pre]; simpl in E;
  [inversion E; subst; clear E | injection E as _ E].

Lemma entities_ampersand (text pre post : list N) :
  flat_map entity text = pre ++ 38%N :: post ->
  startsWith post (lit "amp;") = true
  \/ startsWith post (lit "lt;") = true
  \/ startsWith post (lit "gt;") = true.
Proof.
  revert pre. induction text as [|x text IH]; intros pre E; simpl in E.
  - by destruct pre.
  - unfold entity in E at 1.
    destruct (N.eqb_spec x 38) as [->|H38];
      [|destruct (N.eqb_spec x 60) as [->|H60];
        [|destruct (N.eqb_spec x 62) as [->|H62]]]; simpl in E.
    + peel E pre; [left; apply startsWith_spec; by eexists|].
      do 4 (peel E pre). by apply (IH pre).
    + peel E pre; [right; left; apply startsWith_spec; by eexists|].
      do 3 (peel E pre). by apply (IH pre).
    + peel E pre; [right; right; apply startsWith_spec; by eexists|].
      do 3 (peel E pre). by apply (IH pre).
    + peel E pre; [done|]. by apply (IH pre).
Qed.

(** X1. The output of [escapeHtml] holds no [<] and no [>], every [&] in it
    opens one of the entities [&amp;], [&lt;], [&gt;], and a text is
    escaped piece by piece. *)
Theorem escapeHtml_safe (text more : list N) :
  (60%N ∉ escapeHtml text)
  /\ (62%N ∉ escapeHtml text)
  /\ (forall pre post,
        escapeHtml text = pre ++ 38%N :: post ->
        startsWith post (lit "amp;") = true
        \/ startsWith post (lit "lt;") = true
        \/ startsWith post (lit "gt;") = true)
  /\ escapeHtml (text ++ more) = escapeHtml text ++ escapeHtml more.
Proof.
  rewrite !escapeHtml_entities. split; [|split; [|split]].
  - induction text as [|x text IH]; simpl; [apply not_elem_of_nil|].
    rewrite elem_of_app. intros [Hin|Hin]; [|done].
    by apply (proj1 (entity_no_angle x)).
  - induction text as [|x text IH]; simpl; [apply not_elem_of_nil|].
    rewrite elem_of_app. intros [Hin|Hin]; [|done].
    by apply (proj2 (entity_no_angle x)).
  - intros pre post. apply entities_ampersand.
  - apply flat_map_app.
Qed.

(** An entity tells the character it stands for. *)
Lemma entity_prefix_inj (x y : N) (r s : list N) :
  entity x ++ r = entity y ++ s -> x = y /\ r = s.
Proof.
  unfold entity.
  destruct (N.eqb_spec x 38) as [->|X38];
    [|destruct (N.eqb_spec x 60) as [->|X60];
      [|destruct (N.eqb_spec x 62) as [->|X62]]];
    (destruct (N.eqb_spec y 38) as [->|Y38];
     [|destruct (N.eqb_spec y 60) as [->|Y60];
       [|destruct (N.eqb_spec y 62) as [->|Y62]]]);
    simpl; intros E; inversion E; subst; try done.
Qed.

(** X2. [escapeHtml] loses nothing: two texts with the same escaped form
    are the same text. *)
Theorem escapeHtml_injective (a b : list N) :
  escapeHtml a = escapeHtml b -> a = b.
Proof.
  rewrite !escapeHtml_entities. revert b.
  induction a as [|x a IH]; intros [|y b] E; simpl in E.
  - done.
  - exfalso. unfold entity in E.
    destruct (y =? 38)%N, (y =? 60)%N, (y =? 62)%N; discriminate E.
  - exfalso. unfold entity in E.
    destruct (x =? 38)%N, (x =? 60)%N, (x =? 62)%N; discriminate E.
  - apply entity_prefix_inj in E as [-> E]. f_equal. by apply IH.
Qed.

End Formatting.

Section SplitMessage.
Import JS Formatters.

Lemma split_no_sep (sep : N) (s : list N) :
  Forall (fun l => sep ∉ l) (split sep s).
Proof.
  induction s as [|x s IH]; simpl.
  - constructor; [apply not_elem_of_nil | constructor].
  - destruct (N.eqb_spec x sep) as [->|Hx].
    + constructor; [apply not_elem_of_nil | done].
    + destruct (split sep s) as [|seg segs].
      * constructor; [|constructor].
        rewrite list_elem_of_singleton. congruence.
      * inversion IH; subst. constructor; [|done].
        rewrite elem_of_cons. intros [?|?]; [congruence|done].
Qed.

Lemma split_line (sep : N) (l : list N) : sep ∉ l -> split sep l = [l].
Proof.
  induction l as [|x l IH]; intros Hno; [done|]. simpl.
  rewrite not_elem_of_cons in Hno. destruct Hno as [Hx Hl].
  destruct (N.eqb_spec x sep) as [->|_]; [done|]. by rewrite IH.
Qed.

Lemma split_app_sep (sep : N) (a b : list N) :
  split sep (a ++ sep :: b) = split sep a ++ split sep b.
Proof.
  induction a as [|x a IH]; simpl.
  - by rewrite N.eqb_refl.
  - destruct (N.eqb_spec x sep) as [->|Hx]; [by rewrite IH|].
    rewrite IH. pose proof (split_nonempty sep a) as Hne.
    by destruct (split sep a).
Qed.

Lemma splitStep_fits (maxLen : Z) (parts : list (list N))
    (current line : list N) :
  fits maxLen line -> Forall (fits maxLen) parts -> fits maxLen current ->
  Forall (fits maxLen) (splitStep maxLen (parts, current) line).1
  /\ fits maxLen (splitStep maxLen (parts, current) line).2.
Proof.
  unfold fits, splitStep. intros Hl Hp Hc.
  destruct (Z.ltb_spec maxLen
              (Z.of_nat (length current) + Z.of_nat (length line) + 1))
    as [Hgt|Hle]; simpl.
  - split; [|done]. destruct current; [done|].
    apply Forall_app. split; [done|]. by constructor.
  - split; [done|]. destruct current; simpl in *; [done|].
    rewrite length_app. simpl. lia.
Qed.

Lemma fold_splitStep_fits (maxLen : Z) (lines parts : list (list N))
    (current : list N) :
  Forall (fits maxLen) lines -> Forall (fits maxLen) parts ->
  fits maxLen current ->
  Forall (fits maxLen) (fold_left (splitStep maxLen) lines (parts, current)).1
  /\ fits maxLen (fold_left (splitStep maxLen) lines (parts, current)).2.
Proof.
  revert parts current.
  induction lines as [|line lines IH]; intros parts current Hl Hp Hc;
    cbn [fold_left].
  - done.
  - inversion Hl; subst.
    destruct (splitStep_fits maxLen parts current line) as [Hs1 Hs2];
      try done.
    destruct (splitStep maxLen (parts, current) line) as [parts' current'].
    by apply IH.
Qed.

(** X3. When no line of the text is longer than [maxLen], no part that
    [splitMessage] returns is. *)
Theorem splitMessage_within_limit (text : list N) (maxLenArg : option Z) :
  Forall (fits (default MESSAGES_MAX_LENGTH maxLenArg)) (split 10 text) ->
  Forall (fits (default MESSAGES_MAX_LENGTH maxLenArg))
    (splitMessage text maxLenArg).
Proof.
  intros Hlines. unfold splitMessage.
  destruct (Z.leb_spec (Z.of_nat (length text))
              (default MESSAGES_MAX_LENGTH maxLenArg)) as [Hle|Hgt].
  - by constructor.
  - assert (fits (default MESSAGES_MAX_LENGTH maxLenArg) []) as Hnil.
    { pose proof (split_nonempty 10 text) as Hne.
      inversion Hlines as [E|l ls Hl Hls E]; [congruence|].
      unfold fits in *. simpl. lia. }
    destruct (fold_splitStep_fits (default MESSAGES_MAX_LENGTH maxLenArg)
                (split 10 text) [] [] Hlines (Forall_nil_2 _) Hnil)
      as [Hs1 Hs2].
    destruct (fold_left _ _ _) as [parts current]. simpl in *.
    destruct current; [done|]. apply Forall_app. split; [done|].
    by constructor.
Qed.

Lemma filter_nonEmpty_split_nil : List.filter nonEmpty (split 10 []) = [].
Proof. done. Qed.

Lemma splitStep_lines (maxLen : Z) (parts : list (list N))
    (current line : list N) :
  (10%N ∉ line) ->
  linesOf (splitStep maxLen (parts, current) line).1
    (splitStep maxLen (parts, current) line).2
  = linesOf parts current ++ List.filter nonEmpty [line].
Proof.
  intros Hline. unfold linesOf, splitStep.
  destruct (maxLen <? _)%Z; simpl fst; simpl snd.
  - destruct current as [|c current].
    + rewrite !List.filter_app, filter_nonEmpty_split_nil, app_nil_r.
      by rewrite (split_line 10 line).
    + rewrite flat_map_app, !List.filter_app. simpl flat_map.
      rewrite app_nil_r, (split_line 10 line) by done.
      by rewrite <- !app_assoc.
  - destruct current as [|c current].
    + simpl app at 2. rewrite !List.filter_app, filter_nonEmpty_split_nil.
      by rewrite app_nil_r, (split_line 10 line).
    + change ((c :: current) ++ [10%N] ++ line)
        with ((c :: current) ++ 10%N :: line).
      rewrite split_app_sep, (split_line 10 line) by done.
      by rewrite !List.filter_app, <- !app_assoc.
Qed.

Lemma fold_splitStep_lines (maxLen : Z) (lines parts : list (list N))
    (current : list N) :
  Forall (fun l => 10%N ∉ l) lines ->
  linesOf (fold_left (splitStep maxLen) lines (parts, current)).1
    (fold_left (splitStep maxLen) lines (parts, current)).2
  = linesOf parts current ++ List.filter nonEmpty lines.
Proof.
  revert parts current.
  induction lines as [|line lines IH]; intros parts current Hl.
  - simpl. by rewrite app_nil_r.
  - inversion Hl; subst. cbn [fold_left].
    pose proof (splitStep_lines maxLen parts current line) as Hs.
    destruct (splitStep maxLen (parts, current) line) as [parts' current'].
    rewrite IH by done. simpl in Hs. rewrite Hs by done.
    rewrite <- app_assoc. f_equal. simpl. by destruct (nonEmpty line).
Qed.

Lemma fold_splitStep_nonEmpty (maxLen : Z) (lines parts : list (list N))
    (current : list N) :
  Forall (fun p => p <> []) parts ->
  Forall (fun p => p <> [])
    (fold_left (splitStep maxLen) lines (parts, current)).1.
Proof.
  revert parts current.
  induction lines as [|line lines IH]; intros parts current Hp; [done|].
  cbn [fold_left]. unfold splitStep at 2.
  destruct (maxLen <? _)%Z; [|by apply IH].
  apply IH. destruct current; [done|].
  apply Forall_app. split; [done|]. by constructor.
Qed.

(** X4. [splitMessage] loses no line that is not empty, repeats none and
    keeps their order; and unless the text is empty, no part is empty. *)
Theorem splitMessage_keeps_lines (text : list N) (maxLenArg : option Z) :
  List.filter nonEmpty (flat_map (split 10) (splitMessage text maxLenArg))
  = List.filter nonEmpty (split 10 text)
  /\ (text <> [] ->
      Forall (fun p => p <> []) (splitMessage text maxLenArg)).
Proof.
  unfold splitMessage.
  destruct (Z.of_nat (length text) <=? _)%Z.
  - simpl. rewrite app_nil_r. split; [done|]. intros Hne. by constructor.
  - pose proof (fold_splitStep_lines (default MESSAGES_MAX_LENGTH maxLenArg)
                  (split 10 text) [] [] (split_no_sep 10 text)) as Hl.
    pose proof (fold_splitStep_nonEmpty (default MESSAGES_MAX_LENGTH maxLenArg)
                  (split 10 text) [] [] (Forall_nil_2 _)) as Hn.
    destruct (fold_left _ _ _) as [parts current]. simpl in *.
    unfold linesOf in Hl. simpl in Hl. split.
    + rewrite <- Hl. destruct current as [|c current].
      * by rewrite List.filter_app, filter_nonEmpty_split_nil, app_nil_r.
      * rewrite flat_map_app. simpl. by rewrite app_nil_r.
    + intros _. destruct current; [done|].
      apply Forall_app. split; [done|]. by constructor.
Qed.

End SplitMessage.

(** ** ask_user and run_command *)

Section AskUser.
Import JS Files Ask.

(** X5. [ask_user] hands the callback between two and four options, the
    first four of those given, with the session and question it was given;
    it asks at most once, and without a callback, without options or with
    fewer than two it does not ask at all and fails. *)
Theorem ask_user_options (askCallback : option Callback) (question : list N)
    (options : option (list (list N))) (sessionId : list N) :
  let r := execute askCallback question options sessionId in
  Forall (fun a : Asked =>
            a.1.1 = sessionId /\ a.1.2 = question
            /\ (2 <= length a.2 <= 4)%nat
            /\ exists given, options = Some given /\ a.2 = firstn 4 given)
    r.2
  /\ (length r.2 <= 1)%nat
  /\ (askCallback = None \/ options = None
      \/ (exists given, options = Some given /\ (length given < 2)%nat)
      <-> r.2 = [])
  /\ (r.2 = [] -> success r.1 = false).
Proof.
  unfold execute. destruct askCallback as [callback|].
  2:{ simpl. repeat split; try done; try lia; eauto. }
  destruct options as [opts|].
  2:{ simpl. repeat split; try done; try lia; eauto. }
  destruct (Nat.ltb_spec (length opts) 2) as [Hlt|Hge].
  { simpl. repeat split; try done; try lia; eauto. }
  assert (((if (4 <? length opts)%nat then firstn 4 opts else opts)
           = firstn 4 opts)
          /\ (2 <= length (firstn 4 opts) <= 4)%nat) as Hopts.
  { destruct (Nat.ltb_spec 4 (length opts)) as [H4|H4].
    - split; [done|]. rewrite length_firstn. lia.
    - split; [by rewrite firstn_all2 by lia|].
      rewrite firstn_all2 by lia. lia. }
  destruct Hopts as [-> Hlen].
  destruct (callback sessionId question (firstn 4 opts)); simpl;
    (split; [constructor; [|constructor]; simpl; eauto 10|]);
    (split; [lia|]); (split; [|done]);
    (split; [|done]);
    intros [?|[?|(given & [= <-] & ?)]]; try done; lia.
Qed.

End AskUser.

Section RunCommand.
Import JS RegExp Approvals Bash.

(** A dangerous answer of the loop carries the reason of an entry. *)
Lemma checkCommand_loop_reason (patterns : list (RegExp.t * list N))
    (command : list N) :
  if dangerous (checkCommand_loop patterns command)
  then exists why, reason (checkCommand_loop patterns command) = Some why
                   /\ why ∈ map snd patterns
  else reason (checkCommand_loop patterns command) = None.
Proof.
  induction patterns as [|[p w] ps IH]; simpl; [done|].
  destruct (test p command); simpl.
  - exists w. split; [done | by left].
  - destruct (dangerous _); [|done].
    destruct IH as (why & E & Hin). exists why. split; [done | by right].
Qed.

(** X6. [run_command] does not run a command that [checkCommand] finds
    dangerous: nothing reaches the shell, the result asks for approval, the
    prompt (when a callback is set and the chat id is not zero) names the
    new id, and consuming that id afterwards yields the very command, its
    working directory and the reason. *)
Theorem run_command_dangerous (sh : Shell) (callbackSet : bool)
    (suffix command : list N) (context : ExecuteContext)
    (st : Approvals.State) :
  dangerous (checkCommand command) = true ->
  let o := execute sh callbackSet suffix command context st in
  invoked o = []
  /\ success (result o) = false
  /\ approval_required (result o) = Some true
  /\ exists why rec st',
       reason (checkCommand command) = Some why
       /\ error (result o) = Some (approvalRequired why)
       /\ shown o
          = (if callbackSet && negb (orDefault (chatId context) 0 =? 0)%Z
             then [(orDefault (chatId context) 0,
                    makeId (now st) suffix, command, why)]
             else [])
       /\ consumePendingCommand (makeId (now st) suffix) (store o)
          = (Some rec, st')
       /\ PendingCommand.command rec = command
       /\ PendingCommand.cwd rec = cwd context
       /\ PendingCommand.reason rec = why
       /\ PendingCommand.chatId rec = orDefault (chatId context) 0.
Proof.
  intros Hd o. subst o. unfold execute. rewrite Hd.
  pose proof (checkCommand_loop_reason DANGEROUS_PATTERNS command) as Hr.
  fold (checkCommand command) in Hr. rewrite Hd in Hr.
  destruct Hr as (why & Hwhy & _). rewrite Hwhy.
  unfold storePendingCommand. simpl.
  repeat split. eexists why, _, _.
  split; [done|]. split; [done|]. split; [done|].
  unfold consumePendingCommand. simpl. rewrite lookup_insert_eq.
  by repeat split.
Qed.

Lemma star_space_sound (ic : bool) (r : regex) (c c' : cursor) :
  matches ic r c c' -> r = Star Space ->
  exists ws, rest c = ws ++ rest c' /\ forallb isSpace ws = true.
Proof.
  induction 1 as [| | | | | | | | | | | | r0 c | r0 c c1 c2 H1 _ _ IH];
    try discriminate.
  - intros _. by exists [].
  - intros E. destruct (IH E) as (ws & Hr & Hws).
    injection E as ->. inversion H1; subst. simpl in *.
    exists (x :: ws). rewrite Hr. split; [done|]. simpl.
    by apply andb_true_iff.
Qed.

Lemma star_space_complete (ic : bool) (ws t : list N) (p : option N) :
  forallb isSpace ws = true ->
  exists q, matches ic (Star Space) (Cursor p (ws ++ t)) (Cursor q t).
Proof.
  revert p. induction ws as [|x ws IH]; intros p Hws.
  - exists p. constructor.
  - simpl in Hws. apply andb_true_iff in Hws as [Hx Hws].
    destruct (IH (Some x) Hws) as [q Hq]. exists q.
    eapply m_StarCons; [|exact Hq]. by constructor.
Qed.

(** [/&\s*$/] matches where an ampersand stands with nothing but white
    space after it. *)
Lemma trailingAmpersand_at (p : option N) (s : list N) :
  matchesAt trailingAmpersand (Cursor p s) = true
  <-> exists ws, s = 38%N :: ws /\ forallb isSpace ws = true.
Proof.
  rewrite matchesAt_spec. unfold trailingAmpersand. simpl source.
  simpl ignoreCase. split.
  - intros (c' & Hin). apply ends_seqs3_in in Hin as (c1 & c2 & H1 & H2 & H3).
    change (str "&") with (Char 38) in H1. simpl in H1.
    apply step1_in in H1 as (x & t & Hr & Hx & ->). simpl in Hr. subst s.
    apply N.eqb_eq in Hx. unfold canon in Hx. subst x.
    apply ends_matches in H2.
    destruct (star_space_sound _ _ _ _ H2 eq_refl) as (ws & Hr & Hws).
    simpl in Hr, H3. destruct (rest c2); [|done].
    exists ws. rewrite app_nil_r in Hr. by subst t.
  - intros (ws & -> & Hws).
    destruct (star_space_complete false ws [] (Some 38%N) Hws) as [q Hq].
    rewrite app_nil_r in Hq.
    exists (Cursor q []). apply ends_seqs3_in.
    exists (Cursor (Some 38%N) ws), (Cursor q []). split; [|split].
    + change (str "&") with (Char 38). simpl. by left.
    + by apply ends_matches.
    + by left.
Qed.

Lemma cutAtFirstMatch_unfold (re : RegExp.t) (p : option N) (s : list N) :
  cutAtFirstMatch re p s
  = if matchesAt re (Cursor p s) then []
    else match s with
         | [] => []
         | x :: s' => x :: cutAtFirstMatch re (Some x) s'
         end.
Proof. by destruct s. Qed.

(** What [replace(/&\s*$/, '')] leaves: the string up to its last
    ampersand when only white space follows that, the string itself
    otherwise. *)
Lemma cutAtFirstMatch_spec (p : option N) (s : list N) :
  (exists pre ws,
      s = pre ++ 38%N :: ws /\ forallb isSpace ws = true
      /\ cutAtFirstMatch trailingAmpersand p s = pre)
  \/ (existsb (matchesAt trailingAmpersand) (cursors p s) = false
      /\ cutAtFirstMatch trailingAmpersand p s = s).
Proof.
  revert p. induction s as [|x s IH]; intros p;
    rewrite cutAtFirstMatch_unfold;
    destruct (matchesAt trailingAmpersand (Cursor p _)) eqn:Em.
  - apply trailingAmpersand_at in Em as (ws & E & _). discriminate.
  - right. cbn [cursors existsb]. by rewrite Em.
  - apply trailingAmpersand_at in Em as (ws & E & Hws). left.
    by exists [], ws.
  - destruct (IH (Some x)) as [(pre & ws & -> & Hws & ->)|[Hno ->]].
    + left. by exists (x :: pre), ws.
    + right. split; [|done]. cbn [cursors existsb]. by rewrite Em, Hno.
Qed.

(** X7. A command that is not dangerous leaves the pending store as it
    was, shows no prompt, and is handed to the shell exactly once.  When
    its trimmed form ends in an ampersand (and white space), or it holds
    [nohup], it is spawned: what is spawned is the trimmed command up to
    that ampersand, trimmed again, or the trimmed command itself when no
    ampersand ends it.  Otherwise it is run as it is.  The result tells
    whether the shell threw. *)
Theorem run_command_safe (sh : Shell) (callbackSet : bool)
    (suffix command : list N) (context : ExecuteContext)
    (st : Approvals.State) :
  dangerous (checkCommand command) = false ->
  let o := execute sh callbackSet suffix command context st in
  store o = st /\ shown o = []
  /\ approval_required (result o) = None
  /\ if test trailingAmpersand (trim command)
        || includes command (lit "nohup")
     then
       exists clean,
         invoked o = [Spawned (trim clean) (cwd context)]
         /\ ((exists ws, trim command = clean ++ 38%N :: ws
                         /\ forallb isSpace ws = true)
             \/ (test trailingAmpersand (trim command) = false
                 /\ clean = trim command))
         /\ success (result o)
            = match spawn sh (trim clean) (cwd context) with
              | inr _ => true
              | inl _ => false
              end
     else
       invoked o = [Ran command (cwd context)]
       /\ success (result o)
          = match execSync sh command (cwd context) with
            | inr _ => true
            | inl _ => false
            end.
Proof.
  intros Hd o. subst o. unfold execute. rewrite Hd.
  unfold executeCommand.
  destruct (test trailingAmpersand (trim command) || _).
  - assert ((exists ws,
                trim command
                = cutAtFirstMatch trailingAmpersand None (trim command)
                    ++ 38%N :: ws
                /\ forallb isSpace ws = true)
            \/ (test trailingAmpersand (trim command) = false
                /\ cutAtFirstMatch trailingAmpersand None (trim command)
                   = trim command)) as Hcut.
    { destruct (cutAtFirstMatch_spec None (trim command))
        as [(pre & ws & E & Hws & Ec)|[Hno Ec]].
      - left. exists ws. by rewrite Ec.
      - right. by split. }
    destruct (spawn sh (trim (cutAtFirstMatch trailingAmpersand None
                                (trim command))) (cwd context)) eqn:Es;
      cbn [store shown result approval_required invoked plain success];
      (split; [done|]); (split; [done|]); (split; [done|]);
      exists (cutAtFirstMatch trailingAmpersand None (trim command));
      rewrite Es; done.
  - destruct (execSync sh command (cwd context)) eqn:Ee;
      cbn [store shown result approval_required invoked plain success];
      repeat split; done.
Qed.

Lemma length_lastN (n : Z) (s : list N) :
  (length (lastN n s) <= Z.to_nat n)%nat.
Proof. unfold lastN. rewrite length_skipn. lia. Qed.

Lemma truncateMiddle_length (limit head tail : Z) (s : list N) :
  (0 <= head)%Z -> (0 <= tail)%Z -> (head + tail + 19 <= limit)%Z ->
  (Z.of_nat (length (truncateMiddle limit head tail s)) <= limit)%Z.
Proof.
  intros Hh Ht Hl. unfold truncateMiddle.
  destruct (Z.ltb_spec limit (Z.of_nat (length s))) as [Hgt|Hle]; [|done].
  rewrite !length_app, length_firstn. simpl length at 2.
  pose proof (length_lastN tail s) as Hlast.
  change (length (lit "...(truncated)...")) with 17%nat.
  simpl length. lia.
Qed.

(** X8. What [executeCommand] returns of a command run in the foreground is
    never empty and never longer than 10000 units, however much the command
    wrote; after a failure the text behind [Exit n: ] is at most 5000 units
    long. *)
Theorem executeCommand_output_bounded (sh : Shell) (command cwd : list N) :
  let r := executeCommand sh command cwd in
  r.2 = [Ran command cwd] ->
  (forall out, output r.1 = Some out ->
               (1 <= Z.of_nat (length out) <= 10000)%Z)
  /\ (forall err, error r.1 = Some err ->
        exists e rest,
          execSync sh command cwd = inl e
          /\ err = lit "Exit " ++ numToString (orDefault (status e) 1)
                     ++ lit ": " ++ rest
          /\ (Z.of_nat (length rest) <= 5000)%Z).
Proof.
  intros r. subst r. unfold executeCommand.
  destruct (test trailingAmpersand (trim command) || _).
  { destruct (spawn sh _ _); simpl; discriminate. }
  destruct (execSync sh command cwd) as [e|raw]; simpl; intros _.
  - split; [discriminate|]. intros err [= <-].
    eexists e, _. split; [done|]. split; [done|].
    apply truncateMiddle_length; lia.
  - split; [|discriminate]. intros out [= <-].
    pose proof (truncateMiddle_length 10000 5000 3000 raw) as Hlen.
    destruct (truncateMiddle 10000 5000 3000 raw); simpl in *; lia.
Qed.

End RunCommand.

(** ** write_file, edit_file, delete_file, list_directory *)

Section EditDelete.
Import JS RegExp Files FilesRest.
Context `{Runtime} {FS : Type} `{FileSystem FS} `{FileSystemRest FS}.

(** X9. [executeWrite] and [executeEdit] refuse, with a security-block
    error and the file system left as it was, every path that names a
    sensitive file and every existing path whose canonical form lies
    outside the canonical workspace. *)
Theorem write_and_edit_refuse_secrets (fs : FS)
    (path content old_text new_text cwd : list N) :
  namesSensitive (fullPathOf path cwd)
  \/ liesOutside fs (fullPathOf path cwd) cwd ->
  (isBlocked (executeWrite fs path content cwd).1 = true
   /\ (executeWrite fs path content cwd).2 = fs)
  /\ (isBlocked (executeEdit fs path old_text new_text cwd).1 = true
      /\ (executeEdit fs path old_text new_text cwd).2 = fs).
Proof.
  intros Hbad.
  assert (isSensitiveFile (fullPathOf path cwd) = false ->
          (isSymlinkEscape fs (fullPathOf path cwd) cwd).1 = true) as Hesc.
  { intros Es. destruct Hbad as [Hs|Ho].
    - apply namesSensitive_isSensitiveFile in Hs. congruence.
    - by apply liesOutside_isSymlinkEscape. }
  split.
  - unfold executeWrite.
    destruct (negb (startsWith _ _) && negb (eqs _ _)); simpl;
      [split; [apply isBlocked_failure | done]|].
    destruct (isSensitiveFile (fullPathOf path cwd)) eqn:Es; simpl;
      [split; [apply isBlocked_failure | done]|].
    rewrite Hesc by done. simpl. split; [apply isBlocked_failure | done].
  - unfold executeEdit.
    destruct (isSensitiveFile (fullPathOf path cwd)) eqn:Es; simpl;
      [split; [apply isBlocked_failure | done]|].
    rewrite Hesc by done. simpl. split; [apply isBlocked_failure | done].
Qed.

Lemma splitAtFirst_unfold (s pat : list N) :
  splitAtFirst s pat
  = if startsWith s pat then Some ([], skipn (length pat) s)
    else match s with
         | [] => None
         | x :: s' =>
             match splitAtFirst s' pat with
             | Some (before, after) => Some (x :: before, after)
             | None => None
             end
         end.
Proof. by destruct s. Qed.

Lemma splitAtFirst_first (content pat before after : list N) :
  firstOccurrence content pat before after ->
  splitAtFirst content pat = Some (before, after).
Proof.
  revert content. induction before as [|x b IH]; intros content [-> Hmin].
  - rewrite splitAtFirst_unfold. simpl app. rewrite startsWith_app.
    by rewrite drop_app_length.
  - rewrite splitAtFirst_unfold.
    destruct (startsWith ((x :: b) ++ pat ++ after) pat) eqn:Es.
    + apply startsWith_spec in Es as [t Et].
      specialize (Hmin [] t Et). simpl in Hmin. lia.
    + simpl. rewrite (IH (b ++ pat ++ after)); [done|].
      split; [done|]. intros b' a' E.
      specialize (Hmin (x :: b') a'). simpl in Hmin.
      rewrite E in Hmin. specialize (Hmin eq_refl). lia.
Qed.

Lemma firstOccurrence_includes (content pat before after : list N) :
  firstOccurrence content pat before after -> includes content pat = true.
Proof. intros [-> _]. apply includes_spec. by exists before, after. Qed.

Lemma getSubstitution_plain (matched before after pre rest : list N) :
  36%N ∉ pre ->
  getSubstitution matched before after (pre ++ rest)
  = pre ++ getSubstitution matched before after rest.
Proof.
  induction pre as [|c pre IH]; intros Hno; [done|].
  apply not_elem_of_cons in Hno as [Hc Hno].
  cbn [app getSubstitution].
  destruct (N.eqb_spec c 36) as [->|_]; [done|].
  by rewrite IH.
Qed.

Lemma getSubstitution_dollar (matched before after : list N) (d : N)
    (rest inserted : list N) :
  dollarPattern d matched before after = Some inserted ->
  getSubstitution matched before after (36%N :: d :: rest)
  = inserted ++ getSubstitution matched before after rest.
Proof.
  unfold dollarPattern. cbn [getSubstitution]. simpl (36 =? 36)%N. cbv iota.
  destruct (d =? 36)%N; [by intros [= <-]|].
  destruct (d =? 38)%N; [by intros [= <-]|].
  destruct (d =? 96)%N; [by intros [= <-]|].
  destruct (d =? 39)%N; [by intros [= <-]|]. done.
Qed.

Lemma executeEdit_writes (fs : FS) (path old_text new_text cwd : list N)
    (content before after : list N) :
  editable fs path cwd content ->
  firstOccurrence content old_text before after ->
  executeEdit fs path old_text new_text cwd
  = edited path
      (writeFileSync fs (fullPathOf path cwd)
         (before ++ getSubstitution old_text before after new_text
            ++ after)).
Proof.
  intros (Es & Hesc & Hex & Hread) Hfirst. unfold executeEdit, edited.
  rewrite Es, Hesc, Hex, Hread. simpl negb. cbv iota.
  rewrite (firstOccurrence_includes _ _ _ _ Hfirst). simpl negb. cbv iota.
  unfold replaceFirst. by rewrite (splitAtFirst_first _ _ _ _ Hfirst).
Qed.

(** X10. When the checks let the path through and the file holds
    [old_text], [executeEdit] writes the file back with the first
    occurrence of [old_text] replaced by [new_text] and everything else as
    it was, provided [new_text] holds no dollar sign. *)
Theorem executeEdit_first_occurrence (fs : FS)
    (path old_text new_text cwd : list N) (content before after : list N) :
  editable fs path cwd content ->
  firstOccurrence content old_text before after ->
  36%N ∉ new_text ->
  executeEdit fs path old_text new_text cwd
  = edited path
      (writeFileSync fs (fullPathOf path cwd)
         (before ++ new_text ++ after)).
Proof.
  intros Hed Hfirst Hno.
  rewrite (executeEdit_writes _ _ _ _ _ _ _ _ Hed Hfirst).
  rewrite <- (app_nil_r new_text) at 1.
  rewrite getSubstitution_plain by done. simpl. by rewrite app_nil_r.
Qed.

(** X11. A dollar sign in [new_text] is not always written as it stands:
    before a second dollar sign, an ampersand, a backtick or an apostrophe
    it stands for one dollar sign, for [old_text], for what precedes the
    occurrence or for what follows it. *)
Theorem executeEdit_dollar_patterns (fs : FS)
    (path old_text cwd : list N) (content before after : list N)
    (pre post inserted : list N) (d : N) :
  editable fs path cwd content ->
  firstOccurrence content old_text before after ->
  36%N ∉ pre -> 36%N ∉ post ->
  dollarPattern d old_text before after = Some inserted ->
  executeEdit fs path old_text (pre ++ 36%N :: d :: post) cwd
  = edited path
      (writeFileSync fs (fullPathOf path cwd)
         (before ++ (pre ++ inserted ++ post) ++ after)).
Proof.
  intros Hed Hfirst Hpre Hpost Hd.
  rewrite (executeEdit_writes _ _ _ _ _ _ _ _ Hed Hfirst).
  rewrite getSubstitution_plain by done.
  rewrite (getSubstitution_dollar _ _ _ _ _ _ Hd).
  rewrite <- (app_nil_r post) at 1.
  rewrite getSubstitution_plain by done. simpl. by rewrite app_nil_r.
Qed.

(** X12. [executeDelete] refuses, and leaves the file system as it was,
    every path whose resolved form does not begin with the resolved
    workspace, whether the file exists or not. *)
Theorem executeDelete_outside_refused (fs : FS) (path cwd : list N) :
  (forall tail,
      Path.resolve (processCwd fs) (fullPathOf path cwd)
      <> Path.resolve (processCwd fs) cwd ++ tail) ->
  executeDelete fs path cwd
  = (failure (lit "Security: cannot delete files outside workspace"), fs).
Proof.
  intros Hout. unfold executeDelete.
  destruct (startsWith _ _) eqn:Es; [|done].
  apply startsWith_spec in Es as [t Et]. by destruct (Hout t).
Qed.

(** X13. The two checks differ: a path whose resolved form begins with
    the resolved workspace but goes on with something other than a slash
    (the workspace [/workspace/4] and the file [/workspace/42/foo.txt]) is
    refused by [executeWrite] and unlinked by [executeDelete]. *)
Theorem executeDelete_sibling_prefix (fs : FS) (path content cwd : list N)
    (x : N) (tail : list N) :
  Path.resolve (processCwd fs) (fullPathOf path cwd)
  = Path.resolve (processCwd fs) cwd ++ x :: tail ->
  x <> 47%N ->
  existsSync fs (fullPathOf path cwd) = true ->
  (isBlocked (executeWrite fs path content cwd).1 = true
   /\ (executeWrite fs path content cwd).2 = fs)
  /\ (executeDelete fs path cwd).2
     = (unlinkSync fs (fullPathOf path cwd)).1
  /\ ((unlinkSync fs (fullPathOf path cwd)).2 = None ->
      (executeDelete fs path cwd).1 = ok (lit "Deleted: " ++ path)).
Proof.
  intros Hres Hx Hex. split.
  - apply executeWrite_containment. rewrite Hres.
    intros [E|[t E]].
    + rewrite <- (app_nil_r (Path.resolve _ cwd)) in E at 2.
      by apply app_inv_head in E.
    + apply app_inv_head in E. change (x :: tail = 47%N :: t) in E.
      congruence.
  - unfold executeDelete. rewrite Hres, startsWith_app, Hex. simpl negb.
    cbv iota. destruct (unlinkSync fs _) as [fs' [message|]]; simpl;
      [split; [done|discriminate] | done].
Qed.

Lemma firstBlocked_spec (resolvedDir : list N) (bs : list (list N)) :
  match firstBlocked resolvedDir bs with
  | Some blocked =>
      blocked ∈ bs
      /\ (resolvedDir = blocked
          \/ exists tail, resolvedDir = blocked ++ lit "/" ++ tail)
  | None =>
      forall blocked, blocked ∈ bs ->
        resolvedDir <> blocked
        /\ forall tail, resolvedDir <> blocked ++ lit "/" ++ tail
  end.
Proof.
  induction bs as [|b bs IH]; cbn [firstBlocked].
  { intros blocked Hin. by apply elem_of_nil in Hin. }
  destruct (eqs resolvedDir b) eqn:Ee; cbn [orb].
  { apply eqs_spec in Ee. split; [by left | by left]. }
  destruct (startsWith resolvedDir (b ++ lit "/")) eqn:Es.
  { apply startsWith_spec in Es as [t Et]. split; [by left|].
    right. exists t. by rewrite Et, <- app_assoc. }
  destruct (firstBlocked resolvedDir bs).
  - destruct IH as [Hin Hb]. split; [by right | done].
  - intros blocked [->|Hin]%elem_of_cons; [|by apply IH].
    split.
    + intros E. apply eqs_spec in E. congruence.
    + intros t E. assert (startsWith resolvedDir (b ++ lit "/") = true);
        [|congruence].
      apply startsWith_spec. exists t. by rewrite E, <- app_assoc.
Qed.

(** X14. [executeListDirectory] refuses, without running any command,
    exactly the directories whose resolved, lower-cased path is a blocked
    directory, lies beneath one, or holds [/.ssh] anywhere; for every
    other directory it runs the one command [ls -la] with the directory
    in quotes, and answers with what the command printed or with the
    message of what it threw. *)
Theorem executeListDirectory_blocked (fs : FS) (path : option (list N))
    (cwd : list N) :
  let dir := match path with
             | Some (c :: p) => fullPathOf (c :: p) cwd
             | _ => cwd
             end in
  let resolvedDir := toLowerCase (Path.resolve (processCwd fs) dir) in
  let refused :=
    (exists blocked, blocked ∈ BLOCKED_DIRECTORIES
       /\ (resolvedDir = blocked
           \/ exists tail, resolvedDir = blocked ++ lit "/" ++ tail))
    \/ (exists pre post, resolvedDir = pre ++ lit "/.ssh" ++ post) in
  let r := executeListDirectory fs path cwd in
  (refused <-> isBlocked r.1 = true /\ r.2 = [])
  /\ (r.2 = [] \/ r.2 = [lit "ls -la " ++ quoted dir])
  /\ (~ refused ->
      r.2 = [lit "ls -la " ++ quoted dir]
      /\ r.1 = match execSyncOrThrow fs (lit "ls -la " ++ quoted dir) cwd with
               | inr out =>
                   {| success := true; output := Some out; error := None |}
               | inl message => failure message
               end).
Proof.
  intros dir resolvedDir refused r.
  assert (r = executeListDirectory fs path cwd) as Er by done.
  unfold executeListDirectory in Er.
  assert (match path with
          | Some p => match p with [] => cwd | _ :: _ => fullPathOf p cwd end
          | None => cwd
          end = dir) as Edir by (by destruct path as [[|??]|]).
  rewrite Edir in Er. fold resolvedDir in Er.
  pose proof (firstBlocked_spec resolvedDir BLOCKED_DIRECTORIES) as Hfb.
  destruct (firstBlocked resolvedDir BLOCKED_DIRECTORIES) as [b|].
  { assert refused as Href by (left; exists b; exact Hfb).
    rewrite Er. cbn [fst snd]. split; [|split; [by left | done]]. split.
    - intros _. split; [apply isBlocked_failure | done].
    - done. }
  destruct (includes resolvedDir (lit "/.ssh")) eqn:Ei.
  { assert refused as Href by (right; by apply includes_spec).
    rewrite Er. cbn [fst snd]. split; [|split; [by left | done]]. split.
    - intros _. split; [apply isBlocked_failure | done].
    - done. }
  assert (r.2 = [lit "ls -la " ++ quoted dir]
          /\ r.1 = match execSyncOrThrow fs (lit "ls -la " ++ quoted dir)
                           cwd with
                   | inr out =>
                       {| success := true; output := Some out;
                          error := None |}
                   | inl message => failure message
                   end) as Hran.
  { rewrite Er. by destruct (execSyncOrThrow fs _ cwd). }
  split; [|split; [by right; apply Hran | done]]. split.
  - intros [(b & Hin & Hb)|Hssh].
    + destruct (Hfb b Hin) as [Hne Hnp]. destruct Hb as [E|[t E]];
        [by destruct Hne | by destruct (Hnp t)].
    + apply includes_spec in Hssh. congruence.
  - intros [_ Hnil]. destruct Hran as [Hran _]. rewrite Hran in Hnil.
    discriminate.
Qed.

End EditDelete.

(** ** read_file: the window of lines and the size of the answer *)

Section ReadFile.
Import JS RegExp Files.
Context `{Runtime} {FS : Type} `{FileSystem FS}.

Lemma numberLines_length (start i : Z) (ls : list (list N)) :
  length (numberLines start i ls) = length ls.
Proof.
  revert i. induction ls as [|l ls IH]; intros i; simpl; [done|].
  by rewrite IH.
Qed.

Lemma numberLines_lookup (start i : Z) (ls : list (list N)) (k : nat) :
  numberLines start i ls !! k
  = (fun l => numToString (start + i + Z.of_nat k + 1) ++ lit "|" ++ l)
      <$> ls !! k.
Proof.
  revert i k. induction ls as [|l ls IH]; intros i k; [done|].
  destruct k as [|k]; cbn [numberLines].
  - simpl. do 3 f_equal. lia.
  - refine (eq_trans (IH (i + 1)%Z k) _).
    change ((l :: ls) !! S k) with (ls !! k).
    destruct (ls !! k); [|done]. simpl. do 3 f_equal. lia.
Qed.

Lemma arraySlice_length {A} (l : list A) (from to : Z) :
  (0 <= from)%Z -> (0 <= to)%Z ->
  Z.of_nat (length (arraySlice l from to))
  = Z.max 0 (Z.min to (Z.of_nat (length l)) - from).
Proof.
  intros Hf Ht. unfold arraySlice.
  destruct (Z.ltb_spec from 0); [lia|]. destruct (Z.ltb_spec to 0); [lia|].
  rewrite length_firstn, length_skipn. lia.
Qed.

Lemma arraySlice_lookup {A} (l : list A) (from to : Z) (i : nat) :
  (0 <= from)%Z -> (0 <= to)%Z ->
  (i < length (arraySlice l from to))%nat ->
  arraySlice l from to !! i = l !! (Z.to_nat from + i)%nat
  /\ is_Some (l !! (Z.to_nat from + i)%nat).
Proof.
  intros Hf Ht Hi.
  pose proof (arraySlice_length l from to Hf Ht) as Hlen.
  revert Hi. unfold arraySlice.
  destruct (Z.ltb_spec from 0); [lia|]. destruct (Z.ltb_spec to 0); [lia|].
  rewrite length_firstn, length_skipn. intros Hi.
  rewrite lookup_take_lt by lia. rewrite lookup_drop.
  replace (Z.to_nat (Z.min from (Z.of_nat (length l)))) with (Z.to_nat from)
    by lia.
  split; [done|]. apply lookup_lt_is_Some. lia.
Qed.

(** X15. With an offset [o >= 1] and a limit [l >= 1], [executeRead]
    answers with the lines [o], [o + 1], ... of the file, at most [l] of
    them and no more than the file has, each behind its own number in the
    file and a bar (as long as the answer stays within 100000 units). *)
Theorem executeRead_window (fs : FS) (path cwd content : list N) (o l : Z) :
  isSensitiveFile (fullPathOf path cwd) = false ->
  (isSymlinkEscape fs (fullPathOf path cwd) cwd).1 = false ->
  existsSync fs (fullPathOf path cwd) = true ->
  readFileSync fs (fullPathOf path cwd) = inr content ->
  (1 <= o)%Z -> (1 <= l)%Z ->
  exists shown,
    Z.of_nat (length shown)
    = Z.max 0 (Z.min l (Z.of_nat (length (split 10 content)) - (o - 1)))
    /\ (forall i : nat, (i < length shown)%nat ->
          exists line,
            split 10 content !! (Z.to_nat (o - 1) + i)%nat = Some line
            /\ shown !! i
               = Some (numToString (o + Z.of_nat i) ++ lit "|" ++ line))
    /\ ((Z.of_nat (length (join [10%N] shown)) <= 100000)%Z ->
        executeRead fs path (Some o) (Some l) cwd
        = ok (orText (join [10%N] shown) (lit "(empty file)"))).
Proof.
  intros Es Hesc Hex Hread Ho Hl.
  exists (numberLines (o - 1) 0
            (arraySlice (split 10 content) (o - 1) (o - 1 + l))).
  assert (orDefault (Some o) 1 = o) as Eo.
  { unfold orDefault. destruct (Z.eqb_spec o 0); [lia | done]. }
  assert (truthy (Some l) = true) as El.
  { unfold truthy. destruct (Z.eqb_spec l 0); [lia | done]. }
  split; [|split].
  - rewrite numberLines_length, arraySlice_length by lia. lia.
  - intros i Hi. rewrite numberLines_length in Hi.
    destruct (arraySlice_lookup (split 10 content) (o - 1) (o - 1 + l) i)
      as [Hlook [line Hline]]; [lia | lia | done |].
    exists line. split; [done|].
    rewrite numberLines_lookup, Hlook, Hline. simpl. do 3 f_equal. lia.
  - intros Hshort. unfold executeRead.
    rewrite Es, Hesc, Hex, Hread. simpl negb. cbv iota.
    rewrite bool_decide_eq_true_2 by eauto. cbn [orb]. cbv zeta.
    rewrite Eo, El. change (default 0%Z (Some l)) with l.
    by rewrite (proj2 (Z.ltb_ge _ _) Hshort).
Qed.

(** X16. Whatever the file holds, a successful answer of [executeRead] is
    never empty and never longer than 100015 units; without offset and
    limit, a file of at most 100000 units that is not empty comes back
    as it is. *)
Theorem executeRead_output_bounded (fs : FS) (path : list N)
    (offset limit : option Z) (cwd out : list N) :
  output (executeRead fs path offset limit cwd) = Some out ->
  (1 <= Z.of_nat (length out) <= 100015)%Z
  /\ exists content,
       readFileSync fs (fullPathOf path cwd) = inr content
       /\ (offset = None -> limit = None -> content <> [] ->
           (Z.of_nat (length content) <= 100000)%Z -> out = content).
Proof.
  unfold executeRead.
  destruct (isSensitiveFile _); [discriminate|].
  destruct (isSymlinkEscape _ _ _).1; [discriminate|].
  destruct (negb _); [discriminate|].
  destruct (readFileSync fs _) as [message|content]; [discriminate|].
  cbv zeta. intros [= <-]. split.
  - match goal with
    | |- context [if (100000 <? Z.of_nat (length ?c))%Z then _ else _] =>
        generalize c
    end.
    intros c. destruct (Z.ltb_spec 100000 (Z.of_nat (length c))) as [Hgt|Hle].
    + destruct c as [|x c]; [simpl in Hgt; lia|].
      change (Z.to_nat 100000) with (S (Z.to_nat 99999)).
      cbn [firstn app orText length].
      rewrite length_app, length_firstn. simpl length. lia.
    + destruct c; simpl in *; lia.
  - exists content. split; [done|]. intros -> -> Hne Hlen.
    rewrite bool_decide_eq_false_2 by (by intros [??]). cbn [orb].
    rewrite (proj2 (Z.ltb_ge _ _) Hlen). by destruct content.
Qed.

End ReadFile.

(** ** The pacing of [safeSend] and the limiter of active users *)

Section Pacing.
Import JS RateLimiter.

(** X17. The waits of [safeSend] before its first attempt: the attempt
    starts no sooner than 200 ms after the last send and, in a group chat,
    no sooner than 5000 ms after the last message to that group; it starts
    at once when both intervals have passed already.  The moment is noted
    as the last send, and for a group chat (and only then, and only for
    that chat) as the group's last message. *)
Theorem safeSend_pacing {T} (chatId : Z) (fn : Z -> N * Outcome T)
    (maxRetriesArg : option Z) (st : State) :
  let st' := (throttle chatId st).2 in
  safeSend chatId fn maxRetriesArg st
  = retryLoop (Z.to_nat (default CONFIG.rateLimit.maxRetries maxRetriesArg))
      1 (default CONFIG.rateLimit.maxRetries maxRetriesArg) fn st'
  /\ (now st <= now st')%Z
  /\ (globalLastSend st + 200 <= now st')%Z
  /\ globalLastSend st' = now st'
  /\ (if (chatId <? 0)%Z
      then (orDefault (lastGroupMessage st !! chatId) 0 + 5000 <= now st')%Z
           /\ lastGroupMessage st'
              = <[chatId := now st']> (lastGroupMessage st)
      else lastGroupMessage st' = lastGroupMessage st)
  /\ ((globalLastSend st + 200 <= now st)%Z ->
      ((chatId <? 0)%Z = true ->
       (orDefault (lastGroupMessage st !! chatId) 0 + 5000 <= now st)%Z) ->
      now st' = now st /\ trace st' = trace st).
Proof.
  intros st'. subst st'. split.
  { unfold safeSend, mbind, M_bind. by destruct (throttle chatId st) as [[] ?]. }
  unfold throttle, mbind, M_bind, when, dateNow, getGlobalLastSend,
    getLastGroup, setLastGroup, setGlobalLastSend, sleep, mret, M_ret,
    CONFIG.rateLimit.globalMinInterval, CONFIG.rateLimit.groupMinInterval.
  destruct (Z.ltb_spec 0 (200 - (now st - globalLastSend st)));
    destruct (Z.ltb_spec chatId 0); cbn -[Z.add Z.sub Z.max orDefault];
    try match goal with
        | |- context [(0 <? ?w)%Z] => destruct (Z.ltb_spec 0 w)
        end;
    cbn -[Z.add Z.sub Z.max orDefault] in *;
    repeat split; try done; try lia; intros; try lia;
    try (by rewrite app_nil_r).
Qed.

End Pacing.

Section Limiter.
Import RateLimiter Bot.

(** X18. As long as [markUserActive] follows the [canAcceptUser] that
    allowed it with no other call in between, the set of active users
    stays within the limit; and once a member of such a set is marked
    inactive, [canAcceptUser] accepts anyone. *)
Theorem limiter_keeps_bound (steps : list Atomic) (us : Users) (u v : Z) :
  bounded us ->
  let us' := fold_left (fun s a => atomic a s) steps us in
  bounded us'
  /\ maxConcurrentUsers us' = maxConcurrentUsers us
  /\ (u ∈ activeUsers us' ->
      canAcceptUser u us' = true
      /\ canAcceptUser v (markUserInactive u us') = true).
Proof.
  intros Hb us'.
  assert (bounded us') as Hb' by (by apply atomic_admission_bounded).
  split; [done|]. split.
  - subst us'. clear. revert us.
    induction steps as [|a steps IH]; intros us; simpl; [done|].
    rewrite IH. destruct a; simpl; [|done].
    unfold checkThenMark. by destruct (canAcceptUser _ _).
  - intros Hin. split.
    + unfold canAcceptUser. by rewrite bool_decide_eq_true_2.
    + unfold canAcceptUser, markUserInactive. simpl.
      case_bool_decide; [done|]. apply Z.ltb_lt.
      unfold bounded in Hb'.
      assert ({[u]} ⊆ activeUsers us') as Hsub
        by (by apply singleton_subseteq_l).
      pose proof (size_difference (activeUsers us') {[u]} Hsub) as Hsz.
      pose proof (subseteq_size _ _ Hsub) as Hpos.
      rewrite size_singleton in Hsz, Hpos.
      lia.
Qed.

End Limiter.

(** ** The pending store before the timeout *)

Section BeforeTimeout.
Import JS Approvals Notions.

Lemma timersInv_call (c : Call) (st : State) :
  timersInv st -> timersInv (call c st).2.
Proof.
  intros Htim. destruct c as [s ch cmd d r suffix|id|id|dt|]; simpl.
  - intros d' i. simpl. rewrite elem_of_app, list_elem_of_singleton.
    intros [Hin|[= -> ->]]; [by apply Htim|].
    exists suffix. f_equal. lia.
  - unfold consumePendingCommand.
    by destruct (pendingCommands st !! id).
  - done.
  - done.
  - intros d i Hin. apply list_elem_of_In, filter_In in Hin as [Hin _].
    by apply Htim, list_elem_of_In.
Qed.

Lemma timersInv_calls (cs : list Call) (st : State) :
  timersInv st -> timersInv (calls cs st).2.
Proof.
  revert st. induction cs as [|c cs IH]; intros st Hinv; simpl; [done|].
  pose proof (timersInv_call c st Hinv) as Hc.
  destruct (call c st) as [r st1]. simpl in Hc.
  specialize (IH st1 Hc). by destruct (calls cs st1).
Qed.

Lemma elapsedIn_nonneg (cs : list Call) : (0 <= elapsedIn cs)%Z.
Proof. induction cs as [|[] cs IH]; simpl; lia. Qed.

(** A record stays while its own timer is not due and no call takes it. *)
Lemma calls_keep_present (t : Z) (suffix : list N) (rec : PendingCommand.t)
    (cs : list Call) (st : State) :
  timersInv st ->
  pendingCommands st !! makeId t suffix = Some rec ->
  (now st + elapsedIn cs < t + COMMAND_TIMEOUT)%Z ->
  Consume (makeId t suffix) ∉ cs ->
  Cancel (makeId t suffix) ∉ cs ->
  Stored (makeId t suffix) ∉ (calls cs st).1 ->
  pendingCommands (calls cs st).2 !! makeId t suffix = Some rec.
Proof.
  revert st. induction cs as [|c cs IH]; intros st Htim L Hnow Hcon Hcan Hsto;
    [done|].
  apply not_elem_of_cons in Hcon as [Hcon1 Hcon].
  apply not_elem_of_cons in Hcan as [Hcan1 Hcan].
  pose proof (timersInv_call c st Htim) as Htim1.
  pose proof (elapsedIn_nonneg cs) as Hpos.
  cbn [calls] in *. destruct (call c st) as [r st1] eqn:Ec.
  specialize (IH st1). destruct (calls cs st1) as [rs st2] eqn:Ecs.
  cbn [fst snd] in *.
  apply not_elem_of_cons in Hsto as [Hsto1 Hsto].
  apply IH; try done.
  - destruct c as [s ch cmd d rr sfx|i|i|dt|]; simpl in Ec.
    + injection Ec as <- <-. simpl.
      rewrite lookup_insert_ne; [done|]. congruence.
    + unfold consumePendingCommand in Ec.
      destruct (pendingCommands st !! i); injection Ec as <- <-; [|done].
      simpl. rewrite lookup_delete_ne; [done|]. congruence.
    + injection Ec as <- <-. simpl.
      rewrite lookup_delete_ne; [done|]. congruence.
    + injection Ec as <- <-. done.
    + injection Ec as <- <-. simpl. rewrite fire_lookup.
      rewrite bool_decide_eq_false_2; [done|].
      intros Hin. apply list_elem_of_fmap in Hin as ([d i] & Ei & Hin).
      simpl in Ei. subst i.
      apply list_elem_of_In, filter_In in Hin as [Hin Hdue].
      simpl in Hdue. apply Z.leb_le in Hdue.
      apply list_elem_of_In, Htim in Hin as [sfx E].
      apply makeId_inj in E. simpl in Hnow. lia.
  - destruct c as [s ch cmd d rr sfx|i|i|dt|]; simpl in Ec.
    + injection Ec as <- <-. done.
    + unfold consumePendingCommand in Ec.
      destruct (pendingCommands st !! i); injection Ec as <- <-; done.
    + injection Ec as <- <-. done.
    + injection Ec as <- <-. simpl in *. lia.
    + injection Ec as <- <-. done.
Qed.

(** X19. A command stored at some moment of a run of the store can be
    consumed, and comes back with the fields it was stored with, after
    any calls that take less than [COMMAND_TIMEOUT] (300 seconds) in all,
    among which none consumes or cancels its id and no
    [storePendingCommand] returns the same id again. *)
Theorem pending_until_timeout (t0 : Z) (before after : list Call)
    (sessionId : list N) (chatId : Z) (command cwd reason suffix : list N)
    (id : list N) (st1 : State) :
  storePendingCommand sessionId chatId command cwd reason suffix
    (calls before (init t0)).2 = (id, st1) ->
  (elapsedIn after < COMMAND_TIMEOUT)%Z ->
  Consume id ∉ after -> Cancel id ∉ after ->
  Stored id ∉ (calls after st1).1 ->
  exists st2,
    consumePendingCommand id (calls after st1).2
    = (Some (PendingCommand.Build id sessionId chatId command cwd reason
               (now st1)), st2)
    /\ pendingCommands st2 !! id = None.
Proof.
  intros Hstore Hshort Hcon Hcan Hsto.
  assert (timersInv (init t0)) as Hinit.
  { intros d i Hin. by apply elem_of_nil in Hin. }
  pose proof (timersInv_calls before _ Hinit) as Htim0.
  pose proof (timersInv_call
                (Store sessionId chatId command cwd reason suffix) _ Htim0)
    as Htim1.
  simpl in Htim1. unfold storePendingCommand in Hstore.
  injection Hstore as <- <-.
  apply consume_present.
  apply calls_keep_present; try done.
  - simpl. by rewrite lookup_insert_eq.
  - simpl. lia.
Qed.

Lemma elem_of_session (sessionId : list N) (st : State)
    (rec : PendingCommand.t) :
  rec ∈ getSessionPendingCommands sessionId st
  <-> PendingCommand.sessionId rec = sessionId
      /\ exists id, pendingCommands st !! id = Some rec.
Proof.
  unfold getSessionPendingCommands.
  rewrite list_elem_of_In, filter_In, <- list_elem_of_In, list_elem_of_fmap.
  rewrite eqs_spec. split.
  - intros [([id r] & -> & Hin) Hs]. split; [done|]. exists id.
    by apply elem_of_map_to_list in Hin.
  - intros [Hs [id L]]. split; [|done]. exists (id, rec). split; [done|].
    by apply elem_of_map_to_list.
Qed.

(** X20. [getSessionPendingCommands] lists exactly the records in the
    store that carry the session's name.  [cancelPendingCommand] tells
    whether the id was pending; after it the id can not be consumed, its
    record is listed for no session unless it is stored under another id
    too, and every other record is listed as before. *)
Theorem cancel_and_listing (id sessionId : list N) (st : State)
    (rec : PendingCommand.t) :
  let st' := (cancelPendingCommand id st).2 in
  (rec ∈ getSessionPendingCommands sessionId st
   <-> PendingCommand.sessionId rec = sessionId
       /\ exists i, pendingCommands st !! i = Some rec)
  /\ ((cancelPendingCommand id st).1 = true
      <-> exists r, pendingCommands st !! id = Some r)
  /\ consumePendingCommand id st' = (None, st')
  /\ (rec ∈ getSessionPendingCommands sessionId st'
      <-> PendingCommand.sessionId rec = sessionId
          /\ exists i, i <> id /\ pendingCommands st !! i = Some rec).
Proof.
  intros st'. split; [apply elem_of_session|]. split; [|split].
  - unfold cancelPendingCommand. simpl. rewrite bool_decide_eq_true. done.
  - apply consume_absent. subst st'. simpl. apply lookup_delete_eq.
  - rewrite elem_of_session. subst st'. simpl. split.
    + intros [Hs [i L]]. split; [done|]. exists i.
      rewrite lookup_delete in L. case_decide; [done|]. split; [congruence|done].
    + intros [Hs (i & Hne & L)]. split; [done|]. exists i.
      by rewrite lookup_delete_ne.
Qed.

End BeforeTimeout.

(** ** Words that always need an approval *)

Section GuardedWords.
Import JS RegExp Approvals Notions.

Lemma cursors_prev (q : option N) (pre t : list N) :
  In (Cursor (match last pre with Some x => Some x | None => q end) t)
    (cursors q (pre ++ t)).
Proof.
  revert q. induction pre as [|x pre IH]; intros q.
  - destruct t; by left.
  - simpl. right. specialize (IH (Some x)).
    destruct pre as [|y pre]; [exact IH|].
    change (last (x :: y :: pre)) with (last (y :: pre)).
    destruct (last (y :: pre)) eqn:El; [exact IH|].
    by apply last_None in El.
Qed.

Lemma checkCommand_loop_member (patterns : list (RegExp.t * list N))
    (pattern : RegExp.t) (why command : list N) :
  In (pattern, why) patterns -> test pattern command = true ->
  dangerous (checkCommand_loop patterns command) = true.
Proof.
  induction patterns as [|[p w] ps IH]; simpl; [done|].
  intros [[= -> ->]|Hin] Ht.
  - by rewrite Ht.
  - destruct (test p command); [done | by apply IH].
Qed.

Lemma ends_chars_exact (w t : list N) (p : option N) :
  w <> [] ->
  In (Cursor (last w) t)
    (ends false (seqs (map Char w)) (Cursor p (w ++ t))).
Proof.
  revert p. induction w as [|a w IH]; intros p Hne; [done|].
  change (map Char (a :: w)) with (Char a :: map Char w).
  rewrite ends_seqs_cons, in_flat_map.
  exists (Cursor (Some a) (w ++ t)). split.
  - apply step1_in. exists a, (w ++ t). split; [done|].
    split; [apply N.eqb_refl | done].
  - destruct w as [|b w]; [by left|]. by apply IH.
Qed.

(** [/\bword\b/] matches at a word that stands on its own. *)
Lemma word_between_boundaries (w post : list N) (p : option N) :
  isWord (head w) = true -> isWord (last w) = true ->
  isWord p = false -> isWord (head post) = false ->
  matchesAt (sensitive [bnd; seqs (map Char w); bnd])
    (Cursor p (w ++ post)) = true.
Proof.
  intros Hh Hl Hp Hpost. apply matchesAt_spec.
  exists (Cursor (last w) post). apply ends_seqs3_in.
  exists (Cursor p (w ++ post)), (Cursor (last w) post).
  assert (w <> []) as Hne by (by destruct w).
  split; [|split].
  - simpl. destruct w as [|a w]; [done|]. simpl in *. rewrite Hp, Hh.
    by left.
  - by apply ends_chars_exact.
  - simpl. rewrite Hl, Hpost. by left.
Qed.

Lemma guarded_pattern (word : list N) :
  word ∈ guardedWords ->
  isWord (head word) = true /\ isWord (last word) = true
  /\ exists why,
       In (sensitive [bnd; seqs (map Char word); bnd], why)
         DANGEROUS_PATTERNS.
Proof.
  unfold guardedWords. rewrite !elem_of_cons, elem_of_nil.
  intros [->|[->|[->|[->|[->|[->|[->|[]]]]]]]];
    (split; [reflexivity|]; split; [reflexivity|]);
    eexists; cbv [DANGEROUS_PATTERNS str]; simpl; tauto.
Qed.

(** X21. A command in which [sudo], [mkfs], [fdisk], [parted], [shred],
    [shutdown] or [reboot] stands as a word of its own is dangerous, with
    a reason, wherever the word stands and whatever surrounds it; and
    [run_command] hands no such command to the shell. *)
Theorem guarded_word_is_dangerous (word command : list N) :
  word ∈ guardedWords -> wholeWord word command ->
  dangerous (checkCommand command) = true
  /\ is_Some (reason (checkCommand command))
  /\ forall sh callbackSet suffix context st,
       Bash.invoked (Bash.execute sh callbackSet suffix command context st)
       = [].
Proof.
  intros Hw (pre & post & -> & Hpre & Hpost).
  destruct (guarded_pattern word Hw) as (Hh & Hl & why & Hin).
  assert (dangerous (checkCommand (pre ++ word ++ post)) = true) as Hd.
  { apply (checkCommand_loop_member _ _ _ _ Hin).
    unfold test. apply existsb_exists.
    exists (Cursor (match last pre with Some x => Some x | None => None end)
              (word ++ post)).
    split; [apply cursors_prev|]. apply word_between_boundaries; try done.
    by destruct (last pre). }
  split; [done|]. split.
  - pose proof (checkCommand_loop_reason DANGEROUS_PATTERNS
                  (pre ++ word ++ post)) as Hr.
    fold (checkCommand (pre ++ word ++ post)) in Hr. rewrite Hd in Hr.
    destruct Hr as (r & -> & _). by eexists.
  - intros. unfold Bash.execute. by rewrite Hd.
Qed.

End GuardedWords.

(** ** search_text past its check, and the symlink check *)

Section SearchCommand.
Import JS RegExp Files.
Context `{Runtime} {FS : Type} `{FileSystem FS}.

(** X22. A pattern that [search_text] does not refuse is always answered
    with success and a text that is not empty, also when [grep] fails or
    finds nothing; the one command run is [grep -rn], the options asked
    for, the exclusions of dependency directories and of files that may
    hold secrets, the pattern with its quotes escaped and the path, both
    in quotes, cut to 200 lines. *)
Theorem executeSearchText_command (fs : FS) (pattern : list N)
    (path : option (list N)) (context_before context_after : option Z)
    (files_only ignore_case : bool) (cwd : list N) :
  test secretPatterns pattern = false ->
  let r := executeSearchText fs pattern path context_before context_after
             files_only ignore_case cwd in
  let opts :=
    (if ignore_case then lit " -i" else [])
      ++ (if files_only then lit " -l" else [])
      ++ (if truthy context_before
          then lit " -B" ++ numToString (default 0%Z context_before) else [])
      ++ (if truthy context_after
          then lit " -A" ++ numToString (default 0%Z context_after) else []) in
  let target :=
    match path with
    | Some (c :: p) => fullPathOf (c :: p) cwd
    | _ => cwd
    end in
  success r.1 = true
  /\ (exists out, output r.1 = Some out /\ out <> [])
  /\ r.2 = [ lit "grep -rn" ++ opts
               ++ lit " --exclude-dir=node_modules --exclude-dir=.git"
               ++ lit " --exclude-dir=dist --exclude=*.env*"
               ++ lit " --exclude=*credentials* --exclude=*secret*"
               ++ lit " --exclude=*.pem --exclude=*.key --exclude=id_rsa* "
               ++ quoted (escapeQuotes pattern) ++ lit " " ++ quoted target
               ++ lit " 2>/dev/null | head -200" ].
Proof.
  intros Hok r opts target. subst r. unfold executeSearchText.
  rewrite Hok.
  assert (match path with
          | Some p => match p with [] => cwd | _ :: _ => fullPathOf p cwd end
          | None => cwd
          end = target) as -> by (by destruct path as [[|??]|]).
  split; [by destruct (execSync fs _ cwd)|]. split.
  { destruct (execSync fs _ cwd) as [[|x out]|]; simpl; by eexists. }
  assert (forall cmd cmd' : list N,
             cmd = cmd' ->
             (match execSync fs cmd cwd with
              | Some out => (ok (orText out (lit "(no matches)")), [cmd])
              | None => (ok (lit "(no matches)"), [cmd])
              end).2 = [cmd']) as Hcmd.
  { intros cmd cmd' <-. by destruct (execSync fs cmd cwd). }
  apply Hcmd. subst opts. unfold searchFlags, quoted.
  generalize (numToString (default 0%Z context_before)).
  generalize (numToString (default 0%Z context_after)).
  generalize (escapeQuotes pattern).
  intros e a b.
  destruct ignore_case, files_only, (truthy context_before),
    (truthy context_after);
    cbn [app join]; rewrite <- ?app_assoc; reflexivity.
Qed.

Lemma firstSensitive_spec (realPath : list N) (ps : list (list N)) :
  (firstSensitive realPath ps).1 = true
  <-> exists s, s ∈ ps /\ startsWith realPath s = true.
Proof.
  induction ps as [|p ps IH]; simpl.
  - split; [done|]. intros (s & Hin & _). by apply elem_of_nil in Hin.
  - destruct (startsWith realPath p) eqn:Es; simpl.
    + split; [|done]. intros _. exists p. split; [by left | done].
    + rewrite IH. split.
      * intros (s & Hin & Hs). exists s. split; [by right | done].
      * intros (s & [->|Hin]%elem_of_cons & Hs); [congruence|].
        by exists s.
Qed.

Lemma inside_dec (realWorkspace realPath : list N) :
  negb (startsWith realPath (realWorkspace ++ lit "/"))
  && negb (eqs realPath realWorkspace) = false
  -> inside realWorkspace realPath.
Proof.
  intros Hb. apply andb_false_iff in Hb as [Hs|He].
  - apply negb_false_iff, startsWith_spec in Hs as [t ->]. right.
    exists t. by rewrite <- app_assoc.
  - apply negb_false_iff, eqs_spec in He. by left.
Qed.

(** X23. [isSymlinkEscape] reports an escape, and gives a reason, in two
    cases and no other: the path exists and its canonical form lies
    outside the canonical workspace; or the path is a symbolic link whose
    canonical form, though inside the workspace, begins with one of
    [/etc], [/root], [/home], [/proc], [/sys], [/dev], [/var]. *)
Theorem isSymlinkEscape_cases (fs : FS) (filePath workspacePath : list N) :
  ((isSymlinkEscape fs filePath workspacePath).1 = true
   <-> liesOutside fs filePath workspacePath
       \/ exists realPath realWorkspace s,
            existsSync fs filePath = true
            /\ realpathSync fs filePath = Some realPath
            /\ realpathSync fs workspacePath = Some realWorkspace
            /\ inside realWorkspace realPath
            /\ lstatIsSymbolicLink fs filePath = Some true
            /\ s ∈ sensitivePaths
            /\ startsWith realPath s = true)
  /\ ((isSymlinkEscape fs filePath workspacePath).1 = true ->
      is_Some (isSymlinkEscape fs filePath workspacePath).2).
Proof.
  split.
  - split.
    + unfold isSymlinkEscape.
      destruct (existsSync fs filePath) eqn:Hex; [|done]. cbn [negb].
      destruct (realpathSync fs filePath) as [realPath|] eqn:Hrp; [|done].
      destruct (realpathSync fs workspacePath) as [realWorkspace|] eqn:Hrw;
        [|done].
      destruct (negb (startsWith realPath (realWorkspace ++ lit "/"))
                && negb (eqs realPath realWorkspace)) eqn:Hin.
      * intros _. left. exists realPath, realWorkspace.
        repeat split; try done. intros Hi.
        apply andb_true_iff in Hin as [Hs He].
        apply negb_true_iff in Hs. apply negb_true_iff in He.
        destruct Hi as [->|[t ->]].
        -- assert (eqs realWorkspace realWorkspace = true)
             by (by apply eqs_spec). congruence.
        -- rewrite app_assoc, startsWith_app in Hs. done.
      * apply inside_dec in Hin.
        destruct (lstatIsSymbolicLink fs filePath) as [[|]|] eqn:Hl;
          [|discriminate|discriminate].
        intros (s & Hs & Hst)%firstSensitive_spec. right.
        by exists realPath, realWorkspace, s.
    + intros [Hout|(realPath & realWorkspace & s & Hex & Hrp & Hrw & Hi & Hl
                    & Hs & Hst)].
      * by apply liesOutside_isSymlinkEscape.
      * unfold isSymlinkEscape. rewrite Hex, Hrp, Hrw, Hl. cbn [negb].
        destruct (negb _ && negb _); [done|].
        apply firstSensitive_spec. by exists s.
  - unfold isSymlinkEscape.
    destruct (existsSync fs filePath); [|done]. cbn [negb].
    destruct (realpathSync fs filePath) as [realPath|]; [|done].
    destruct (realpathSync fs workspacePath) as [realWorkspace|]; [|done].
    destruct (negb _ && negb _); [by eexists|].
    destruct (lstatIsSymbolicLink fs filePath) as [[|]|];
      [|discriminate|discriminate].
    generalize sensitivePaths. intros ps.
    induction ps as [|p ps IH]; simpl; [done|].
    destruct (startsWith realPath p); [by eexists | done].
Qed.

End SearchCommand.

(** ** The theorems above at concrete inputs *)

Section MoreWitnesses.
Import JS Files FilesRest Instances Samples.

Local Ltac unlike E := vm_compute in E; discriminate E.

Lemma escapeHtml_injective_witness : lit "a<b" = [97; 60; 98]%N.
Proof.
  apply (escapeHtml_injective (lit "a<b") [97; 60; 98]%N).
  reflexivity.
Defined.

Lemma splitMessage_within_limit_witness :
  Forall (Formatters.fits 8)
    (Formatters.splitMessage
       ([104; 105; 10; 116; 104; 101; 114; 101; 10; 121; 111; 117]%N)
       (Some 8%Z)).
Proof.
  apply (splitMessage_within_limit
           ([104; 105; 10; 116; 104; 101; 114; 101; 10; 121; 111; 117]%N)
           (Some 8%Z)).
  repeat (constructor; [vm_compute; discriminate|]). constructor.
Defined.

Lemma run_command_dangerous_witness :
  Bash.invoked
    (Bash.execute echoShell true (lit "k3x9ab") (lit "sudo apt update")
       sampleContext (Approvals.init 1000)) = []
  /\ Bash.success
       (Bash.result
          (Bash.execute echoShell true (lit "k3x9ab")
             (lit "sudo apt update") sampleContext (Approvals.init 1000)))
     = false.
Proof.
  destruct (run_command_dangerous echoShell true (lit "k3x9ab")
              (lit "sudo apt update") sampleContext (Approvals.init 1000))
    as (Hinv & Hs & _).
  - reflexivity.
  - split; [exact Hinv | exact Hs].
Defined.

Lemma run_command_safe_witness :
  Bash.store
    (Bash.execute echoShell true (lit "k3x9ab") (lit "ls -la") sampleContext
       (Approvals.init 1000)) = Approvals.init 1000.
Proof.
  destruct (run_command_safe echoShell true (lit "k3x9ab") (lit "ls -la")
              sampleContext (Approvals.init 1000)) as (Hst & _).
  - reflexivity.
  - exact Hst.
Defined.

Lemma executeCommand_output_bounded_witness :
  Bash.output (Bash.executeCommand echoShell (lit "ls -la")
                 (lit "/workspace/7")).1 = Some (lit "ls -la")
  /\ (1 <= Z.of_nat (length (lit "ls -la")) <= 10000)%Z.
Proof.
  destruct (executeCommand_output_bounded echoShell (lit "ls -la")
              (lit "/workspace/7")) as [Hout _].
  - reflexivity.
  - split; [reflexivity|]. apply Hout. reflexivity.
Defined.

Lemma write_and_edit_refuse_secrets_witness :
  (executeEdit (H := asciiRuntime) sampleDisk (lit "out") (lit "other")
     (lit "mine") (lit "/workspace/42")).2 = sampleDisk.
Proof.
  destruct (write_and_edit_refuse_secrets (H := asciiRuntime) sampleDisk
              (lit "out") (lit "data") (lit "other") (lit "mine")
              (lit "/workspace/42")) as [_ [_ Hfs]].
  - right. exists (lit "/workspace/43/x"), (lit "/workspace/42").
    split; [reflexivity|]. split; [reflexivity|]. split; [reflexivity|].
    intros [E|[tail E]]; unlike E.
  - exact Hfs.
Defined.

Lemma hello_editable :
  editable (H := asciiRuntime) sampleDisk (lit "foo.txt")
    (lit "/workspace/42") (lit "hello").
Proof. repeat split; reflexivity. Defined.

Lemma hello_first_l :
  firstOccurrence (lit "hello") (lit "l") (lit "he") (lit "lo").
Proof.
  split; [reflexivity|]. intros [|x [|y b]] a E; [unlike E | unlike E |].
  simpl. lia.
Defined.

Lemma executeEdit_first_occurrence_witness :
  executeEdit (H := asciiRuntime) sampleDisk (lit "foo.txt") (lit "l")
    (lit "L") (lit "/workspace/42")
  = edited (lit "foo.txt")
      (writeFileSync sampleDisk (lit "/workspace/42/foo.txt")
         (lit "heLlo")).
Proof.
  apply (executeEdit_first_occurrence (H := asciiRuntime) sampleDisk
           (lit "foo.txt") (lit "l") (lit "L") (lit "/workspace/42")
           (lit "hello") (lit "he") (lit "lo")).
  - exact hello_editable.
  - exact hello_first_l.
  - intros Hin. vm_compute in Hin.
    apply elem_of_cons in Hin as [Hin|Hin]; [discriminate Hin|].
    by apply elem_of_nil in Hin.
Defined.

Lemma executeEdit_dollar_patterns_witness :
  executeEdit (H := asciiRuntime) sampleDisk (lit "foo.txt") (lit "l")
    (lit "[$&]") (lit "/workspace/42")
  = edited (lit "foo.txt")
      (writeFileSync sampleDisk (lit "/workspace/42/foo.txt")
         (lit "he[l]lo")).
Proof.
  apply (executeEdit_dollar_patterns (H := asciiRuntime) sampleDisk
           (lit "foo.txt") (lit "l") (lit "/workspace/42")
           (lit "hello") (lit "he") (lit "lo") (lit "[") (lit "]") (lit "l")
           38%N).
  - exact hello_editable.
  - exact hello_first_l.
  - intros Hin. vm_compute in Hin.
    apply elem_of_cons in Hin as [Hin|Hin]; [discriminate Hin|].
    by apply elem_of_nil in Hin.
  - intros Hin. vm_compute in Hin.
    apply elem_of_cons in Hin as [Hin|Hin]; [discriminate Hin|].
    by apply elem_of_nil in Hin.
  - reflexivity.
Defined.

Lemma executeDelete_outside_refused_witness :
  executeDelete sampleDisk (lit "/workspace/43/x")
    (lit "/workspace/42")
  = (failure (lit "Security: cannot delete files outside workspace"),
     sampleDisk).
Proof.
  apply (executeDelete_outside_refused sampleDisk
           (lit "/workspace/43/x") (lit "/workspace/42")).
  intros tail E. unlike E.
Defined.

Lemma executeDelete_sibling_prefix_witness :
  isBlocked
    (executeWrite (H := asciiRuntime) sampleDisk
       (lit "/workspace/42/foo.txt") (lit "data") (lit "/workspace/4")).1
  = true
  /\ (executeDelete sampleDisk
        (lit "/workspace/42/foo.txt") (lit "/workspace/4")).1
     = ok (lit "Deleted: /workspace/42/foo.txt").
Proof.
  destruct (executeDelete_sibling_prefix (H := asciiRuntime) sampleDisk
              (lit "/workspace/42/foo.txt") (lit "data") (lit "/workspace/4")
              50%N (lit "/foo.txt")) as ([Hw _] & _ & Hd).
  - reflexivity.
  - discriminate.
  - reflexivity.
  - split; [exact Hw|]. apply Hd. reflexivity.
Defined.

Lemma executeRead_window_witness :
  exists shown,
    shown !! 0%nat = Some (lit "1|hello")
    /\ executeRead (H := asciiRuntime) sampleDisk (lit "foo.txt") (Some 1%Z)
         (Some 1%Z) (lit "/workspace/42")
       = ok (orText (join [10%N] shown) (lit "(empty file)")).
Proof.
  assert (1 <= 1)%Z as Hone by lia.
  destruct hello_editable as (Es & Hesc & Hex & Hread).
  destruct (executeRead_window (H := asciiRuntime) sampleDisk (lit "foo.txt")
              (lit "/workspace/42") (lit "hello") 1 1 Es Hesc Hex Hread
              Hone Hone)
    as (shown & Hlen & Hline & Hout).
  exists shown.
  assert (Z.max 0 (Z.min 1 (Z.of_nat (length (split 10 (lit "hello")))
                             - (1 - 1))) = 1%Z) as E by reflexivity.
  rewrite E in Hlen.
  destruct shown as [|s [|s' shown]]; cbn [length] in Hlen; try lia.
  destruct (Hline 0%nat) as (line & Hl & Hs); [simpl; lia|].
  vm_compute in Hl. injection Hl as <-. split; [exact Hs|].
  apply Hout. simpl in Hs. injection Hs as ->. vm_compute. discriminate.
Defined.

Lemma executeRead_output_bounded_witness :
  (1 <= Z.of_nat (length (lit "hello")) <= 100015)%Z.
Proof.
  apply (executeRead_output_bounded (H := asciiRuntime) sampleDisk
           (lit "foo.txt") None None (lit "/workspace/42") (lit "hello")).
  reflexivity.
Defined.

Lemma limiter_keeps_bound_witness :
  RateLimiter.bounded
    (fold_left (fun s a => Bot.atomic a s) [Bot.Enter 1; Bot.Enter 2]
       RateLimiter.noUsers).
Proof.
  apply (limiter_keeps_bound [Bot.Enter 1; Bot.Enter 2] RateLimiter.noUsers
           1 3).
  vm_compute. discriminate.
Defined.

Lemma pending_until_timeout_witness :
  exists st2,
    Approvals.consumePendingCommand sampleId
      (Approvals.calls [Approvals.Elapse 299999; Approvals.Timers]
         sampleStore).2
    = (Some (Approvals.PendingCommand.Build sampleId (lit "session-7") 7
               (lit "rm -rf build") (lit "/workspace/7")
               (lit "Force recursive delete") 1000), st2)
    /\ Approvals.pendingCommands st2 !! sampleId = None.
Proof.
  apply (pending_until_timeout 1000 []
           [Approvals.Elapse 299999; Approvals.Timers]
           (lit "session-7") 7 (lit "rm -rf build") (lit "/workspace/7")
           (lit "Force recursive delete") (lit "k3x9ab") sampleId
           sampleStore).
  - reflexivity.
  - reflexivity.
  - intros Hin.
    repeat (apply elem_of_cons in Hin as [Hin|Hin]; [discriminate Hin|]).
    by apply elem_of_nil in Hin.
  - intros Hin.
    repeat (apply elem_of_cons in Hin as [Hin|Hin]; [discriminate Hin|]).
    by apply elem_of_nil in Hin.
  - intros Hin. vm_compute in Hin.
    repeat (apply elem_of_cons in Hin as [Hin|Hin]; [discriminate Hin|]).
    by apply elem_of_nil in Hin.
Defined.

Lemma guarded_word_is_dangerous_witness :
  Approvals.dangerous (Approvals.checkCommand (lit "echo hi; sudo reboot"))
  = true.
Proof.
  apply (guarded_word_is_dangerous (lit "sudo")
           (lit "echo hi; sudo reboot")).
  - left.
  - exists (lit "echo hi; "), (lit " reboot").
    split; [reflexivity|]. split; reflexivity.
Defined.

Lemma executeSearchText_command_witness :
  success
    (executeSearchText sampleDisk (lit "TODO") None None
       None false false (lit "/workspace/42")).1 = true.
Proof.
  apply (executeSearchText_command sampleDisk (lit "TODO") None None None
           false false (lit "/workspace/42")).
  reflexivity.
Defined.

End MoreWitnesses.
